(** * Small-Redis storage engine: MemTable, SSTable writer and reader,
      compaction, LSM coordinator and write-ahead log.

    A shallow embedding of the Go sources (package [storage]: the MemTable,
    storage/sstable.go with the LSM store that follows it in the same file,
    storage/sstable_read.go, storage/compaction.go; package [main]: the
    write-ahead log that follows the reader in storage/sstable_read.go, the
    key-value store with its WAL field, and [executeCommand] of main.go)
    together with the properties of the specification that were checked
    against them, and with further properties that the code has.

    Conventions.
    - A Go [string] is a byte sequence: it is a Rocq [string]; [len(s)] is
      [String.length s] and [<], [>=] on strings are [String.ltb] and
      [String.leb] (bytewise lexicographic order).
    - A [[]byte] is a [list byte].  Fixed-width integers are [Z] with the
      wrap-around of each conversion written out ([uint32], [uint64],
      [int64]).
    - A file is the list of the bytes it holds; the file system maps a path
      to the file stored there.  The operating system is taken not to fail:
      the only errors are those the code and the Go library raise on the
      data they are given. *)

From Stdlib Require Import ZArith List Lia Bool Sorted.
From Stdlib.Strings Require Import Ascii String Byte.
From stdpp Require Import base option list gmap strings sorting pretty.

Local Open Scope Z_scope.

(** ** Results and errors *)

(** A Go [(T, error)] result.  The error is the message that [err.Error()]
    gives; [fmt.Errorf("ctx: %v", err)] prefixes it. *)
Inductive result (A : Type) : Type :=
| Ok (a : A)
| Err (msg : string).
Arguments Ok {A} a.
Arguments Err {A} msg.

Definition is_ok {A} (r : result A) : bool :=
  match r with Ok _ => true | Err _ => false end.

Definition Errorf {A} (ctx : string) (r : result A) : result A :=
  match r with
  | Ok a => Ok a
  | Err e => Err (ctx +:+ ": " +:+ e)
  end.

(** ** Fixed-width integers and little-endian bytes *)

Definition uint8  (z : Z) : Z := z mod 2 ^ 8.
Definition uint32 (z : Z) : Z := z mod 2 ^ 32.
Definition uint64 (z : Z) : Z := z mod 2 ^ 64.
Definition int64  (z : Z) : Z := (z + 2 ^ 63) mod 2 ^ 64 - 2 ^ 63.

Definition byte_of_Z (z : Z) : byte :=
  default x00 (Byte.of_N (Z.to_N (z mod 256))).

Definition Z_of_byte (b : byte) : Z := Z.of_N (Byte.to_N b).

(** [binary.LittleEndian.PutUintN]: byte [i] is [byte(v >> (8*i))]. *)
Fixpoint le_bytes (n : nat) (z : Z) : list byte :=
  match n with
  | O => []
  | S n' => byte_of_Z z :: le_bytes n' (Z.shiftr z 8)
  end.

(** [binary.LittleEndian.UintN]: [b[0] | b[1]<<8 | ...]. *)
Fixpoint le_value (bs : list byte) : Z :=
  match bs with
  | [] => 0
  | b :: r => Z.lor (Z_of_byte b) (Z.shiftl (le_value r) 8)
  end.

(** ** Go values handed to [encoding/binary] *)

(** The dynamic type of the [data any] argument of [binary.Write].  An
    untyped integer constant passed as [any] takes its default type [int],
    the platform-sized integer: that is [GoInt]. *)
Inductive GoValue : Type :=
| GoUint8  (z : Z)
| GoUint32 (z : Z)
| GoUint64 (z : Z)
| GoInt64  (z : Z)
| GoInt    (z : Z).

(** [binary.Write] encodes fixed-size values only ("Data must be a
    fixed-size value or a slice of fixed-size values, or a pointer to such
    data"): bool, int8..int64, uint8..uint64, floats, and arrays and structs
    of them.  [int] and [uint] have no fixed size; for them [binary.Write]
    writes nothing and returns an error. *)
Definition binary_encode (v : GoValue) : result (list byte) :=
  match v with
  | GoUint8 z  => Ok (le_bytes 1 z)
  | GoUint32 z => Ok (le_bytes 4 z)
  | GoUint64 z => Ok (le_bytes 8 z)
  | GoInt64 z  => Ok (le_bytes 8 z)
  | GoInt _    => Err "binary.Write: some values are not fixed-sized in type int"
  end.

(** ** Entries *)

Record Entry : Type := mkEntry {
  Key : string;
  Value : list byte;
  Timestamp : Z;
  Deleted : bool
}.

Definition len_string (s : string) : Z := Z.of_nat (String.length s).
Definition len_bytes (b : list byte) : Z := Z.of_nat (List.length b).

(** ** Computations with state and errors *)

(** A computation on a state [S] (an open file, here) that returns a value
    or an error.  What was done to the state before an error stays done. *)
Definition IO (S A : Type) : Type := S -> result A * S.

Definition ret {S A} (a : A) : IO S A := fun s => (Ok a, s).

Definition fail {S A} (msg : string) : IO S A := fun s => (Err msg, s).

Definition bind {S A B} (m : IO S A) (k : A -> IO S B) : IO S B :=
  fun s =>
    match m s with
    | (Ok a, s') => k a s'
    | (Err e, s') => (Err e, s')
    end.

(** [x, err := m; if err != nil { return ..., fmt.Errorf("ctx: %v", err) }] *)
Definition orErrorf {S A} (m : IO S A) (ctx : string) : IO S A :=
  fun s => let '(r, s') := m s in (Errorf ctx r, s').

Notation "x <~ m ;; k" := (bind m (fun x => k))
  (at level 100, m at next level, right associativity).
Notation "m 'onerr' ctx" := (orErrorf m ctx) (at level 60, only parsing).

(** ** Writing to an open file *)

(** The state of a writer is the file written so far: [os.Create] starts
    from the empty file and every write appends. *)
Definition Writer (A : Type) : Type := IO (list byte) A.

(** [binary.Write(file, binary.LittleEndian, v)] *)
Definition binary_Write (v : GoValue) : Writer unit :=
  fun file =>
    match binary_encode v with
    | Ok bs => (Ok tt, file ++ bs)
    | Err e => (Err e, file)
    end.

(** [file.Write(b)]: returns the number of bytes written. *)
Definition file_Write (b : list byte) : Writer Z :=
  fun file => (Ok (len_bytes b), file ++ b).

(** [file.Stat()] followed by [info.Size()]. *)
Definition file_Size : Writer Z :=
  fun file => (Ok (len_bytes file), file).

(** ** SSTable writer (storage/sstable.go) *)

Definition MagicNumber : Z := 0xBABECAFE.
Definition Version : Z := 1.

Record IndexEntry : Type := mkIndexEntry {
  IKey : string;
  Offset : Z
}.

Definition WriteKey (key : string) : Writer Z :=
  let bytesWritten := 0 in
  let keyLength := uint32 (len_string key) in
  _ <~ binary_Write (GoUint32 keyLength) onerr "failed to write key length" ;;
  let bytesWritten := int64 (bytesWritten + 4) in
  n <~ file_Write (list_byte_of_string key) onerr "failed to write key bytes" ;;
  let bytesWritten := int64 (bytesWritten + n) in
  ret bytesWritten.

Definition WriteValue (value : list byte) : Writer Z :=
  let bytesWritten := 0 in
  let valueLength := uint32 (len_bytes value) in
  _ <~ binary_Write (GoUint32 valueLength) onerr "failed to write value length" ;;
  let bytesWritten := int64 (bytesWritten + 4) in
  n <~ file_Write value onerr "failed to write value bytes" ;;
  let bytesWritten := int64 (bytesWritten + n) in
  ret bytesWritten.

Definition WriteMetadata (timestamp : Z) (isDeleted : bool) : Writer Z :=
  let bytesWritten := 0 in
  _ <~ binary_Write (GoInt64 timestamp) onerr "failed to write timestamp" ;;
  let bytesWritten := int64 (bytesWritten + 8) in
  let deletedByte := if isDeleted then 1 else 0 in
  _ <~ binary_Write (GoUint8 deletedByte) onerr "failed to write deleted byte" ;;
  let bytesWritten := int64 (bytesWritten + 1) in
  ret bytesWritten.

Definition WriteEntry (key : string) (value : list byte) (timestamp : Z)
    (isDeleted : bool) : Writer Z :=
  let bytesWritten := 0 in
  n <~ WriteKey key onerr "failed to write key" ;;
  let bytesWritten := int64 (bytesWritten + n) in
  n <~ WriteValue value onerr "failed to write value" ;;
  let bytesWritten := int64 (bytesWritten + n) in
  n <~ WriteMetadata timestamp isDeleted onerr "failed to write metadata" ;;
  let bytesWritten := int64 (bytesWritten + n) in
  ret bytesWritten.

(** The loop of [WriteEntries], from the state [(indexEntries,
    currentOffset)] it has reached. *)
Fixpoint WriteEntries_loop (entries : list Entry)
    (indexEntries : list IndexEntry) (currentOffset : Z)
    : Writer (list IndexEntry * Z) :=
  match entries with
  | [] => ret (indexEntries, currentOffset)
  | entry :: rest =>
      bytesWritten <~ WriteEntry (Key entry) (Value entry) (Timestamp entry)
                        (Deleted entry) onerr "failed to write entry" ;;
      let indexEntries :=
        indexEntries ++ [mkIndexEntry (Key entry) currentOffset] in
      let currentOffset := int64 (currentOffset + bytesWritten) in
      WriteEntries_loop rest indexEntries currentOffset
  end.

(** Returns the index entries and the number of bytes written. *)
Definition WriteEntries (entries : list Entry) : Writer (list IndexEntry * Z) :=
  WriteEntries_loop entries [] 0.

Fixpoint WriteIndex_loop (indexEntries : list IndexEntry) (bytesWritten : Z)
    : Writer Z :=
  match indexEntries with
  | [] => ret bytesWritten
  | indexEntry :: rest =>
      let keyLen := uint32 (len_string (IKey indexEntry)) in
      _ <~ binary_Write (GoUint32 keyLen) onerr "failed to write key length" ;;
      let bytesWritten := int64 (bytesWritten + 4) in
      n <~ file_Write (list_byte_of_string (IKey indexEntry))
             onerr "failed to write key" ;;
      let bytesWritten := int64 (bytesWritten + n) in
      let offset := Offset indexEntry in
      _ <~ binary_Write (GoInt64 offset) onerr "failed to write offset" ;;
      let bytesWritten := int64 (bytesWritten + 8) in
      WriteIndex_loop rest bytesWritten
  end.

(** Returns the index start offset and the number of bytes written. *)
Definition WriteIndex (indexEntries : list IndexEntry) : Writer (Z * Z) :=
  indexStartOffset <~ file_Size ;;
  bytesWritten <~ WriteIndex_loop indexEntries 0 ;;
  ret (indexStartOffset, bytesWritten).

(** [Version] and [MagicNumber] are untyped constants: handed to
    [binary.Write] as [any] they are of type [int]. *)
Definition WriteFooter (indexStartOffset numberOfEntries : Z) : Writer Z :=
  let bytesWritten := 0 in
  _ <~ binary_Write (GoUint64 (uint64 indexStartOffset))
         onerr "failed to write index start offset" ;;
  let bytesWritten := int64 (bytesWritten + 8) in
  _ <~ binary_Write (GoUint32 (uint32 numberOfEntries))
         onerr "failed to write index bytes written" ;;
  let bytesWritten := int64 (bytesWritten + 8) in
  _ <~ binary_Write (GoInt Version) onerr "failed to write version" ;;
  let bytesWritten := int64 (bytesWritten + 4) in
  _ <~ binary_Write (GoInt MagicNumber) onerr "failed to write bytes written" ;;
  let bytesWritten := int64 (bytesWritten + 8) in
  ret bytesWritten.

(** ** The file system *)

(** Path to file contents. *)
Abbreviation FileSystem := (gmap string (list byte)).

(** [os.Create(path)] gives an empty file at [path]; the body then writes to
    it; [file.Sync()] and the deferred [file.Close()] leave the contents as
    they are.  Whatever the body wrote is in the file afterwards, also when
    it stopped on an error. *)
Definition CreateSSTable_body (entries : list Entry) : Writer unit :=
  r <~ WriteEntries entries onerr "failed to write entries" ;;
  let indexEntries := fst r in
  r <~ WriteIndex indexEntries onerr "failed to write index" ;;
  let indexStartOffset := fst r in
  _ <~ WriteFooter indexStartOffset (int64 (Z.of_nat (List.length entries)))
         onerr "failed to write footer" ;;
  ret tt.

Definition CreateSSTable (path : string) (entries : list Entry) (fs : FileSystem)
    : result unit * FileSystem :=
  let '(r, file) := CreateSSTable_body entries [] in
  (r, <[path := file]> fs).

(** ** SSTable reader (storage/sstable_read.go) *)

(** An open file that is read: its contents and the cursor. *)
Record OpenFile : Type := mkOpenFile {
  contents : list byte;
  cursor : Z
}.

Definition Reader (A : Type) : Type := IO OpenFile A.

(** [file.Stat()] followed by [info.Size()]. *)
Definition file_Stat_Size : Reader Z :=
  fun f => (Ok (len_bytes (contents f)), f).

(** [file.Seek(offset, io.SeekStart)]: a negative offset is refused; any
    other is accepted, also beyond the end of the file. *)
Definition file_Seek (offset : Z) : Reader Z :=
  fun f =>
    if offset <? 0 then (Err "seek: invalid argument", f)
    else (Ok offset, mkOpenFile (contents f) offset).

(** [io.ReadFull(file, buf)] with [len(buf) = n]: reads exactly [n] bytes at
    the cursor, or fails ([EOF] when no byte was read, [unexpected EOF] after
    some).  With [n = 0] it succeeds wherever the cursor is. *)
Definition io_ReadFull (n : Z) : Reader (list byte) :=
  fun f =>
    let got := take (Z.to_nat n) (drop (Z.to_nat (cursor f)) (contents f)) in
    let f' := mkOpenFile (contents f) (cursor f + len_bytes got) in
    if len_bytes got =? n then (Ok got, f')
    else if len_bytes got =? 0 then (Err "EOF", f')
    else (Err "unexpected EOF", f').

(** [binary.Read(file, binary.LittleEndian, &x)] for [x] of each type that
    the reader uses. *)
Definition binary_Read_uint32 : Reader Z :=
  bs <~ io_ReadFull 4 ;; ret (le_value bs).

Definition binary_Read_int64 : Reader Z :=
  bs <~ io_ReadFull 8 ;; ret (int64 (le_value bs)).

Definition binary_Read_uint8 : Reader Z :=
  bs <~ io_ReadFull 1 ;; ret (le_value bs).

Module SSTableFooter.
Record t : Type := mk {
  IndexStartOffset : Z;
  NumberOfEntries : Z;
  Version : Z;
  MagicNumber : Z
}.
End SSTableFooter.

Definition ReadFooter : Reader SSTableFooter.t :=
  fileSize <~ file_Stat_Size ;;
  let footerSize := 20 in
  if fileSize <? footerSize then
    fail "file is too small to contain a footer"
  else
    let footerOffset := fileSize - footerSize in
    _ <~ file_Seek footerOffset onerr "failed to seek to footer" ;;
    indexStartOffset <~ binary_Read_int64 onerr "failed to read footer" ;;
    numberOfEntries <~ binary_Read_uint32
                         onerr "failed to read number of entries" ;;
    version <~ binary_Read_uint32 onerr "failed to read version" ;;
    magicNumber <~ binary_Read_uint32 onerr "failed to read magic number" ;;
    if negb (magicNumber =? MagicNumber) then
      fail ("invalid magic number: " +:+ pretty magicNumber)
    else
      ret (SSTableFooter.mk indexStartOffset numberOfEntries version
             magicNumber).

(** The loop of [ReadIndex], with [count] iterations left. *)
Fixpoint ReadIndex_loop (count : nat) (index : gmap string Z)
    : Reader (gmap string Z) :=
  match count with
  | O => ret index
  | S count' =>
      keyLength <~ binary_Read_uint32 onerr "failed to read key length" ;;
      key <~ io_ReadFull keyLength onerr "failed to read key" ;;
      offset <~ binary_Read_int64 onerr "failed to read offset" ;;
      ReadIndex_loop count' (<[string_of_list_byte key := offset]> index)
  end.

Definition ReadIndex (footer : SSTableFooter.t) : Reader (gmap string Z) :=
  _ <~ file_Seek (SSTableFooter.IndexStartOffset footer)
         onerr "failed to seek to index" ;;
  ReadIndex_loop (Z.to_nat (SSTableFooter.NumberOfEntries footer)) ∅.

Definition ReadEntryAtOffset_body (offset : Z) : Reader Entry :=
  _ <~ file_Seek offset onerr "failed to seek to entry" ;;
  keyLength <~ binary_Read_uint32 onerr "failed to read key length" ;;
  keyBytes <~ io_ReadFull keyLength onerr "failed to read key" ;;
  valueLength <~ binary_Read_uint32 onerr "failed to read value length" ;;
  valueBytes <~ io_ReadFull valueLength onerr "failed to read value" ;;
  timestamp <~ binary_Read_int64 onerr "failed to read timestamp" ;;
  deleted <~ binary_Read_uint8 onerr "failed to read deleted" ;;
  ret (mkEntry (string_of_list_byte keyBytes) valueBytes timestamp
         (negb (deleted =? 0))).

(** [ReadEntryAtOffset] seeks before it reads, so where the cursor of the
    handle was does not matter: the handle is given by the file contents. *)
Definition ReadEntryAtOffset (file : list byte) (offset : Z) : result Entry :=
  fst (ReadEntryAtOffset_body offset (mkOpenFile file 0)).

Module SSTable.
Record t : Type := mk {
  filePath : string;
  file : list byte;
  index : gmap string Z;
  footer : SSTableFooter.t
}.

(** Returns: value, found, error.  [Ok None] is [(nil, false, nil)] and
    [Ok (Some v)] is [(v, true, nil)]. *)
Definition Get (s : t) (key : string) : result (option (list byte)) :=
  match index s !! key with
  | None => Ok None
  | Some offset =>
      match ReadEntryAtOffset (file s) offset with
      | Err e => Err ("failed to read entry: " +:+ e)
      | Ok entry =>
          if negb (String.eqb (Key entry) key) then
            Err ("Index Corruption: " +:+ Key entry +:+ " != " +:+ key)
          else if Deleted entry then Ok None
          else Ok (Some (Value entry))
      end
  end.

Definition NumEntries (sst : t) : Z := Z.of_nat (size (index sst)).

Definition FilePath (sst : t) : string := filePath sst.

Definition ContainsKey (sst : t) (key : string) : bool :=
  bool_decide (is_Some (index sst !! key)).
End SSTable.

Definition OpenSSTable_body : Reader (gmap string Z * SSTableFooter.t) :=
  footer <~ ReadFooter onerr "failed to read footer" ;;
  index <~ ReadIndex footer onerr "failed to read index" ;;
  ret (index, footer).

Definition OpenSSTable (filePath : string) (fs : FileSystem) : result SSTable.t :=
  match fs !! filePath with
  | None => Err "failed to open file: no such file or directory"
  | Some file =>
      match fst (OpenSSTable_body (mkOpenFile file 0)) with
      | Err e => Err e
      | Ok (index, footer) => Ok (SSTable.mk filePath file index footer)
      end
  end.

(** ** MemTable *)

Definition DefaultMemTableSize : Z := 4 * 1024 * 1024.

Definition ErrMemTableImmutable : string := "memtable is immutable".

(** [sort.Search(n, f)]: the loop [for i < j { h := int(uint(i+j) >> 1);
    if !f(h) { i = h + 1 } else { j = h } }; return i].  Every turn shrinks
    [j - i], so [n] turns are enough; the loop has ended when they are used
    up. *)
Fixpoint Search_loop (fuel : nat) (f : nat -> bool) (i j : nat) : nat :=
  match fuel with
  | O => i
  | S fuel' =>
      if (i <? j)%nat then
        let h := ((i + j) / 2)%nat in
        if negb (f h) then Search_loop fuel' f (h + 1)%nat j
        else Search_loop fuel' f i h
      else i
  end.

Definition Search (n : nat) (f : nat -> bool) : nat := Search_loop n f 0%nat n.

Module MemTable.
Record t : Type := mk {
  entries : list Entry;
  sizeBytes : Z;
  maxSize : Z;
  immutable : bool
}.

Definition NewMemTable (maxSize : Z) : t :=
  let maxSize := if maxSize <=? 0 then DefaultMemTableSize else maxSize in
  mk [] 0 maxSize false.

(** [sort.Search(len(mt.entries), func(i) { return mt.entries[i].Key >= key })] *)
Definition search (es : list Entry) (key : string) : nat :=
  Search (List.length es)
    (fun i => match es !! i with
              | Some e => String.leb key (Key e)
              | None => false
              end).

(** [append(es, nil); copy(es[idx+1:], es[idx:]); es[idx] = entry] *)
Definition insert_at (idx : nat) (entry : Entry) (es : list Entry)
    : list Entry :=
  take idx es ++ entry :: drop idx es.

(** [Set] ([Set] is a reserved word here, hence the name).  [now] is what
    [time.Now().UnixNano()] returns during the call.  The slice holds
    pointers and an existing entry is updated in place: the entry at [idx]
    is replaced by the updated one, its key unchanged. *)
Definition Set_ (mt : t) (key : string) (value : list byte) (now : Z)
    : result unit * t :=
  if immutable mt then (Err ErrMemTableImmutable, mt)
  else
    let idx := search (entries mt) key in
    let entrySize := int64 (len_string key + len_bytes value + 24) in
    let insert :=
      let entry := mkEntry key value now false in
      (Ok tt, mk (insert_at idx entry (entries mt))
                 (int64 (sizeBytes mt + entrySize))
                 (maxSize mt) (immutable mt)) in
    match entries mt !! idx with
    | Some e =>
        if String.eqb (Key e) key then
          let oldSize := len_bytes (Value e) in
          (Ok tt, mk (<[idx := mkEntry (Key e) value now false]> (entries mt))
                     (int64 (int64 (sizeBytes mt - oldSize) + len_bytes value))
                     (maxSize mt) (immutable mt))
        else insert
    | None => insert
    end.

Definition Delete (mt : t) (key : string) (now : Z) : result unit * t :=
  if immutable mt then (Err ErrMemTableImmutable, mt)
  else
    let idx := search (entries mt) key in
    let entrySize := int64 (len_string key + 24) in
    let insert :=
      let entry := mkEntry key [] now true in
      (Ok tt, mk (insert_at idx entry (entries mt))
                 (int64 (sizeBytes mt + entrySize))
                 (maxSize mt) (immutable mt)) in
    match entries mt !! idx with
    | Some e =>
        if String.eqb (Key e) key then
          (Ok tt, mk (<[idx := mkEntry (Key e) (Value e) now true]> (entries mt))
                     (sizeBytes mt) (maxSize mt) (immutable mt))
        else insert
    | None => insert
    end.

(** Returns [(value, true)] as [Some value] and [(nil, false)] as [None]. *)
Definition Get (mt : t) (key : string) : option (list byte) :=
  let idx := search (entries mt) key in
  match entries mt !! idx with
  | Some e =>
      if String.eqb (Key e) key then
        if Deleted e then None else Some (Value e)
      else None
  | None => None
  end.

Definition ShouldFlush (mt : t) : bool := maxSize mt <=? sizeBytes mt.

Definition MakeImmutable (mt : t) : t :=
  mk (entries mt) (sizeBytes mt) (maxSize mt) true.

(** A copy of the slice. *)
Definition GetAllEntries (mt : t) : list Entry := entries mt.

Definition Size (mt : t) : Z := sizeBytes mt.
Definition Count (mt : t) : Z := Z.of_nat (List.length (entries mt)).
Definition IsImmutable (mt : t) : bool := immutable mt.

(** The mutations a caller can apply, with the clock reading of each. *)
Inductive op : Type :=
| OpSet (key : string) (value : list byte) (now : Z)
| OpDelete (key : string) (now : Z)
| OpMakeImmutable.

Definition apply (mt : t) (o : op) : t :=
  match o with
  | OpSet key value now => snd (Set_ mt key value now)
  | OpDelete key now => snd (Delete mt key now)
  | OpMakeImmutable => MakeImmutable mt
  end.

Definition run (maxSize : Z) (ops : list op) : t :=
  fold_left apply ops (NewMemTable maxSize).
End MemTable.

Definition FlushMemTableToSSTable (memTable : MemTable.t) (path : string)
    (fs : FileSystem) : result unit * FileSystem :=
  let entries := MemTable.GetAllEntries memTable in
  if (List.length entries =? 0)%nat then
    (Err "memtable is empty nothing to flush", fs)
  else CreateSSTable path entries fs.

(** ** Compaction (storage/compaction.go) *)

Definition mergeEntries (e1 e2 : Entry) : Entry :=
  if Timestamp e2 <? Timestamp e1 then e1 else e2.

(** What [range sst.index] visits: the Go runtime chooses the order, so it
    is a parameter of everything that iterates over an index. *)
Definition RangeOrder : Type := gmap string Z -> list (string * Z).

(** A read of one entry that compaction performs: the file and the offset. *)
Definition ReadLog : Type := list (string * Z).

Definition getAllEntriesFromSSTable (range : RangeOrder) (sst : SSTable.t)
    : list Entry * ReadLog :=
  fold_left
    (fun '(entries, log) '(key, offset) =>
       let log := log ++ [(SSTable.filePath sst, offset)] in
       match ReadEntryAtOffset (SSTable.file sst) offset with
       | Err _ => (entries, log)
       | Ok entry =>
           if negb (String.eqb (Key entry) key) then (entries, log)
           else (entries ++ [entry], log)
       end)
    (range (SSTable.index sst)) ([], []).

(** The loop of [mergeSortedEntries], by recursion on the entries that are
    left: [entries1[i:]] and [entries2[j:]].  When one side is exhausted the
    other is appended whole, as the two [append]s after the loop do. *)
Fixpoint mergeSortedEntries (entries1 : list Entry) : list Entry -> list Entry :=
  fix merge_with (entries2 : list Entry) : list Entry :=
    match entries1, entries2 with
    | [], _ => entries2
    | _, [] => entries1
    | e1 :: rest1, e2 :: rest2 =>
        if String.ltb (Key e1) (Key e2) then
          e1 :: mergeSortedEntries rest1 entries2
        else if String.ltb (Key e2) (Key e1) then
          e2 :: merge_with rest2
        else
          let merged := mergeEntries e1 e2 in
          if negb (Deleted merged) then
            merged :: mergeSortedEntries rest1 rest2
          else mergeSortedEntries rest1 rest2
    end.

(** The entries that [CompactSSTables] hands to [CreateSSTable]:
    [merged := allEntries[0]; for i := 1; ...; merged =
    mergeSortedEntries(merged, allEntries[i])]. *)
Definition mergeAll (allEntries : list (list Entry)) : list Entry :=
  match allEntries with
  | [] => []
  | first :: others => fold_left mergeSortedEntries others first
  end.

(** Returns the path of the new SSTable, the file system after the call and
    the entry reads that were made. *)
Definition MergeTwoSSTables (range : RangeOrder) (sst1 sst2 : SSTable.t)
    (outputPath : string) (fs : FileSystem) : result string * FileSystem * ReadLog :=
  let '(entries1, log1) := getAllEntriesFromSSTable range sst1 in
  let '(entries2, log2) := getAllEntriesFromSSTable range sst2 in
  let mergedEntries := mergeSortedEntries entries1 entries2 in
  match CreateSSTable outputPath mergedEntries fs with
  | (Err e, fs') => (Err e, fs', log1 ++ log2)
  | (Ok _, fs') => (Ok outputPath, fs', log1 ++ log2)
  end.

Definition CompactSSTables (range : RangeOrder) (sstables : list SSTable.t)
    (outputPath : string) (fs : FileSystem) : result string * FileSystem * ReadLog :=
  match sstables with
  | [] => (Err "no sstables to compact", fs, [])
  | [sst] => (Ok (SSTable.FilePath sst), fs, [])
  | _ =>
      let all := map (getAllEntriesFromSSTable range) sstables in
      let allEntries := map fst all in
      let log := concat (map snd all) in
      let merged := mergeAll allEntries in
      match CreateSSTable outputPath merged fs with
      | (Err e, fs') => (Err e, fs', log)
      | (Ok _, fs') => (Ok outputPath, fs', log)
      end
  end.

(** ** Paths, patterns and numbers in file names *)

Definition chars (s : string) : list ascii := list_ascii_of_string s.

Definition slash : ascii := "/"%char.

(** [strings.HasPrefix] and [strings.HasSuffix] *)
Definition HasPrefix (s pre : string) : bool :=
  bool_decide (chars pre `prefix_of` chars s).

Definition HasSuffix (s suf : string) : bool :=
  bool_decide (chars suf `suffix_of` chars s).

Definition TrimPrefix (s pre : string) : string :=
  if HasPrefix s pre then
    string_of_list_ascii (drop (String.length pre) (chars s))
  else s.

Definition TrimSuffix (s suf : string) : string :=
  if HasSuffix s suf then
    string_of_list_ascii
      (take (String.length s - String.length suf)%nat (chars s))
  else s.

Fixpoint drop_slashes (l : list ascii) : list ascii :=
  match l with
  | c :: r => if Ascii.eqb c slash then drop_slashes r else l
  | [] => []
  end.

Fixpoint until_slash (l : list ascii) : list ascii :=
  match l with
  | c :: r => if Ascii.eqb c slash then [] else c :: until_slash r
  | [] => []
  end.

(** [filepath.Base]: the last element of the path, trailing separators
    removed first; ["."] for the empty path and ["/"] for a path of
    separators only. *)
Definition Base (path : string) : string :=
  match chars path with
  | [] => "."
  | l =>
      match drop_slashes (reverse l) with
      | [] => "/"
      | r => string_of_list_ascii (reverse (until_slash r))
      end
  end.

(** [filepath.Join(dir, name)] for a directory path that is already clean
    (as ["data"] is; [Join] would rewrite ["./data"] to ["data"]). *)
Definition Join (dir name : string) : string := dir +:+ "/" +:+ name.

(** [filepath.Match(pre + "*" + suf, name)] for [pre] and [suf] free of
    pattern characters: [name] is [pre], then any characters other than the
    separator, then [suf]. *)
Definition Match_star (pre suf name : string) : bool :=
  HasPrefix name pre && HasSuffix name suf &&
  (String.length pre + String.length suf <=? String.length name)%nat &&
  forallb (fun c => negb (Ascii.eqb c slash))
    (drop (String.length pre)
       (take (String.length name - String.length suf)%nat (chars name))).

(** [filepath.Glob(Join(dir, pre + "*" + suf))] on the files of [fs]: the
    matching paths, in the lexical order in which [Glob] lists a directory. *)
Definition Glob (dir pre suf : string) (fs : FileSystem) : list string :=
  merge_sort String.le
    (filter (fun p => Match_star (Join dir pre) suf p = true)
       (map fst (map_to_list fs))).

Definition digit (c : ascii) : option Z :=
  let n := Z.of_N (N_of_ascii c) - 48 in
  if (0 <=? n) && (n <=? 9) then Some n else None.

Fixpoint parse_digits (l : list ascii) (acc : Z) : option Z :=
  match l with
  | [] => Some acc
  | c :: r =>
      match digit c with
      | Some d => parse_digits r (acc * 10 + d)
      | None => None
      end
  end.

(** [strconv.Atoi] on a 64-bit platform: an optional sign, then one or more
    decimal digits, the value within [int]; [None] is a returned error. *)
Definition Atoi (s : string) : option Z :=
  match chars s with
  | [] => None
  | c :: r =>
      let '(neg, ds) :=
        if Ascii.eqb c "-" then (true, r)
        else if Ascii.eqb c "+" then (false, r)
        else (false, c :: r) in
      match ds with
      | [] => None
      | _ =>
          match parse_digits ds 0 with
          | None => None
          | Some n =>
              let v := if neg then - n else n in
              if (- 2 ^ 63 <=? v) && (v <? 2 ^ 63) then Some v else None
          end
      end
  end.

(** ** The LSM store (second part of storage/sstable.go) *)

Definition extractSSTableId (fileName : string) : Z :=
  let base := Base fileName in
  let idStr := TrimPrefix base "sstable-" in
  let idStr := TrimSuffix idStr ".db" in
  match Atoi idStr with
  | None => 0
  | Some id => id
  end.

(** The [less] function handed to [sort.Slice] compares ids with [<]; the
    sorted slice is in ascending id order.  [sort.Slice] does not say in
    which order it leaves files of equal id. *)
Definition id_le (a b : string) : Prop :=
  extractSSTableId a <= extractSSTableId b.

#[global] Instance id_le_dec : RelDecision id_le.
Proof. intros a b. unfold id_le. apply _. Defined.

Definition sort_by_id (files : list string) : list string :=
  merge_sort id_le files.

(** [fmt.Sprintf("%s/sstable-%d.sst", dataDir, sstableID)] *)
Definition flushPath (dataDir : string) (sstableID : Z) : string :=
  dataDir +:+ "/sstable-" +:+ pretty sstableID +:+ ".sst".

Module LSMStore.
Record t : Type := mk {
  memTable : MemTable.t;
  immutableMemTable : option MemTable.t;
  sstables : list SSTable.t;
  memtableSize : Z;
  dataDir : string;
  nextSSTableID : Z
}.

(** The loop of [loadSSTables] over the sorted files. *)
Fixpoint loadSSTables_loop (files : list string) (fs : FileSystem) (store : t)
    : result t :=
  match files with
  | [] => Ok store
  | file :: rest =>
      match OpenSSTable file fs with
      | Err e => Err ("failed to open sstable: " +:+ e)
      | Ok sstable =>
          let id := extractSSTableId file in
          let next :=
            if nextSSTableID store <=? id then int64 (id + 1)
            else nextSSTableID store in
          loadSSTables_loop rest fs
            (mk (memTable store) (immutableMemTable store)
                (sstables store ++ [sstable])
                (memtableSize store) (dataDir store) next)
      end
  end.

Definition loadSSTables (store : t) (fs : FileSystem) : result t :=
  let files := Glob (dataDir store) "sstable-" ".db" fs in
  if (List.length files =? 0)%nat then Ok store
  else loadSSTables_loop (sort_by_id files) fs store.

Definition NewLSMStore (memtableSize : Z) (dataDir : string) (fs : FileSystem)
    : result t :=
  let memtableSize :=
    if memtableSize <=? 0 then DefaultMemTableSize else memtableSize in
  let dataDir := if String.eqb dataDir "" then "database" else dataDir in
  let store :=
    mk (MemTable.NewMemTable memtableSize)
       (Some (MemTable.NewMemTable memtableSize))
       [] memtableSize dataDir 0 in
  match loadSSTables store fs with
  | Err e => Err ("failed to load sstables: " +:+ e)
  | Ok store => Ok store
  end.

(** The loop of [Get] over [store.sstables], first to last; a table whose
    read fails is skipped. *)
Fixpoint Get_sstables (ssts : list SSTable.t) (key : string)
    : option (list byte) :=
  match ssts with
  | [] => None
  | sst :: rest =>
      match SSTable.Get sst key with
      | Err _ => Get_sstables rest key
      | Ok (Some value) => Some value
      | Ok None => Get_sstables rest key
      end
  end.

Definition Get (store : t) (key : string) : option (list byte) :=
  match MemTable.Get (memTable store) key with
  | Some value => Some value
  | None =>
      match
        match immutableMemTable store with
        | Some imm => MemTable.Get imm key
        | None => None
        end
      with
      | Some value => Some value
      | None => Get_sstables (sstables store) key
      end
  end.

(** The background flush, run to its end with nothing interleaved. *)
Definition flushImmutableMemTable (store : t) (fs : FileSystem) : t * FileSystem :=
  match immutableMemTable store with
  | None => (store, fs)
  | Some memtableToFlush =>
      let sstableID := nextSSTableID store in
      let store :=
        mk (memTable store) (immutableMemTable store) (sstables store)
           (memtableSize store) (dataDir store) (int64 (sstableID + 1)) in
      let path := flushPath (dataDir store) sstableID in
      match FlushMemTableToSSTable memtableToFlush path fs with
      | (Err _, fs') => (store, fs')
      | (Ok _, fs') =>
          match OpenSSTable path fs' with
          | Err _ => (store, fs')
          | Ok sstable =>
              (mk (memTable store) None (sstable :: sstables store)
                  (memtableSize store) (dataDir store)
                  (nextSSTableID store), fs')
          end
      end
  end.

(** The two critical sections of [flushImmutableMemTable] and the file
    work between them, which runs without the lock of the store. *)
Definition flush_take (store : t) : t * option (MemTable.t * Z) :=
  match immutableMemTable store with
  | None => (store, None)
  | Some memtableToFlush =>
      let sstableID := nextSSTableID store in
      (mk (memTable store) (immutableMemTable store) (sstables store)
          (memtableSize store) (dataDir store) (int64 (sstableID + 1)),
       Some (memtableToFlush, sstableID))
  end.

Definition flush_write (dataDir : string) (memtableToFlush : MemTable.t)
    (sstableID : Z) (fs : FileSystem) : option SSTable.t * FileSystem :=
  let path := flushPath dataDir sstableID in
  match FlushMemTableToSSTable memtableToFlush path fs with
  | (Err _, fs') => (None, fs')
  | (Ok _, fs') =>
      match OpenSSTable path fs' with
      | Err _ => (None, fs')
      | Ok sstable => (Some sstable, fs')
      end
  end.

Definition flush_publish (store : t) (sstable : SSTable.t) : t :=
  mk (memTable store) None (sstable :: sstables store)
     (memtableSize store) (dataDir store) (nextSSTableID store).

(** [rotateMemTable], called with the lock of the store held.  The flag
    tells whether [go store.flushImmutableMemTable()] was reached.  The
    sleep is not modelled: a flush that is under way needs the lock of the
    store to clear [immutableMemTable], and the caller holds it, so the test
    after the sleep sees what a test before it would see. *)
Definition rotateMemTable (store : t) : result unit * t * bool :=
  let store :=
    mk (MemTable.MakeImmutable (memTable store)) (immutableMemTable store)
       (sstables store) (memtableSize store) (dataDir store)
       (nextSSTableID store) in
  let stillFlushing :=
    match immutableMemTable store with
    | Some imm => MemTable.IsImmutable imm
    | None => false
    end in
  if stillFlushing then
    (Err "still flushing the immutable memtable, cannot rotate", store, false)
  else
    (Ok tt,
     mk (MemTable.NewMemTable (memtableSize store)) (Some (memTable store))
        (sstables store) (memtableSize store) (dataDir store)
        (nextSSTableID store),
     true).

(** [Set] and [Delete] of the store; [now] is the clock reading that the
    MemTable takes.  The MemTable is updated in place, so the store holds
    the updated table whatever is returned. *)
Definition Set_ (store : t) (key : string) (value : list byte) (now : Z)
    : result unit * t * bool :=
  let '(err, memTable') := MemTable.Set_ (memTable store) key value now in
  let store :=
    mk memTable' (immutableMemTable store) (sstables store)
       (memtableSize store) (dataDir store) (nextSSTableID store) in
  match err with
  | Err e => (Err ("failed to set value in memtable: " +:+ e), store, false)
  | Ok _ =>
      if MemTable.ShouldFlush (memTable store) then
        match rotateMemTable store with
        | (Err e, store, started) =>
            (Err ("failed to rotate memtable: " +:+ e), store, started)
        | (Ok _, store, started) => (Ok tt, store, started)
        end
      else (Ok tt, store, false)
  end.

Definition Delete (store : t) (key : string) (now : Z)
    : result unit * t * bool :=
  let '(err, memTable') := MemTable.Delete (memTable store) key now in
  let store :=
    mk memTable' (immutableMemTable store) (sstables store)
       (memtableSize store) (dataDir store) (nextSSTableID store) in
  match err with
  | Err e => (Err ("failed to delete value in memtable: " +:+ e), store, false)
  | Ok _ =>
      if MemTable.ShouldFlush (memTable store) then
        match rotateMemTable store with
        | (Err e, store, started) =>
            (Err ("failed to rotate memtable: " +:+ e), store, started)
        | (Ok _, store, started) => (Ok tt, store, started)
        end
      else (Ok tt, store, false)
  end.
End LSMStore.

(** ** The key-value store of package main *)

Module Store.
Record t : Type := mk {
  data : gmap string string
}.

Definition Set_ (s : t) (key value : string) : result unit * t :=
  (Ok tt, mk (<[key := value]> (data s))).

Definition Get (s : t) (key : string) : option string := data s !! key.

Definition Delete (s : t) (key : string) : t := mk (delete key (data s)).
End Store.

(** ** The write-ahead log (last part of storage/sstable_read.go) *)

(** What the process asks of the operating system for a file: [write(2)]
    hands bytes to the kernel, [fsync(2)] forces them to the device. *)
Inductive Syscall : Type :=
| SysWrite (path : string) (data : list byte)
| SysFsync (path : string).

(** The files as reads see them, and the system calls made so far. *)
Record Disk : Type := mkDisk {
  files : FileSystem;
  syscalls : list Syscall
}.

(** [file.Write(data)] on a file opened with [O_APPEND]. *)
Definition os_Write (path : string) (data : list byte) (d : Disk) : Disk :=
  mkDisk (<[path := default [] (files d !! path) ++ data]> (files d))
         (syscalls d ++ [SysWrite path data]).

(** [file.Sync()] *)
Definition os_Sync (path : string) (d : Disk) : Disk :=
  mkDisk (files d) (syscalls d ++ [SysFsync path]).

Definition newline : string := String (ascii_of_nat 10) EmptyString.
Definition carriage_return : ascii := ascii_of_nat 13.

(** [bufio.defaultBufSize] and [bufio.MaxScanTokenSize] *)
Definition defaultBufSize : Z := 4096.
Definition MaxScanTokenSize : Z := 65536.

(** [bufio.Scanner] with [ScanLines]: the lines of [l], each without its
    terminator and without one trailing carriage return; a last line that
    has no terminator counts when it is not empty.  The flag tells that the
    scanner stopped with [ErrTooLong]: a line that does not fit the buffer
    of [MaxScanTokenSize] bytes ends the scan. *)
Definition dropCR (cur : list ascii) : list ascii :=
  match reverse cur with
  | c :: r => if Ascii.eqb c carriage_return then reverse r else cur
  | [] => cur
  end.

Fixpoint Scan_lines (l : list ascii) (cur : list ascii) : list string * bool :=
  match l with
  | [] =>
      match cur with
      | [] => ([], false)
      | _ =>
          if MaxScanTokenSize <=? Z.of_nat (List.length cur) then ([], true)
          else ([string_of_list_ascii (dropCR cur)], false)
      end
  | c :: r =>
      if Ascii.eqb c (ascii_of_nat 10) then
        if MaxScanTokenSize <=? Z.of_nat (List.length cur) then ([], true)
        else
          let '(lines, tooLong) := Scan_lines r [] in
          (string_of_list_ascii (dropCR cur) :: lines, tooLong)
      else Scan_lines r (cur ++ [c])
  end.

(** The part of [l] before the first [sep] and the part after it. *)
Fixpoint cut (sep : ascii) (l : list ascii) : option (list ascii * list ascii) :=
  match l with
  | [] => None
  | c :: r =>
      if Ascii.eqb c sep then Some ([], r)
      else
        match cut sep r with
        | Some (before, after) => Some (c :: before, after)
        | None => None
        end
  end.

Fixpoint SplitN_chars (sep : ascii) (n : nat) (l : list ascii) : list string :=
  match n with
  | O => []
  | S O => [string_of_list_ascii l]
  | S n' =>
      match cut sep l with
      | None => [string_of_list_ascii l]
      | Some (before, after) =>
          string_of_list_ascii before :: SplitN_chars sep n' after
      end
  end.

(** [strings.SplitN(s, sep, n)] for a one-byte separator and [n > 0]: at
    most [n] parts, the last one the unsplit remainder. *)
Definition SplitN (s : string) (sep : ascii) (n : nat) : list string :=
  SplitN_chars sep n (chars s).

Module WAL.
(** [writer] holds the bytes that the [bufio.Writer] has buffered; the
    file is the one at [path]. *)
Record t : Type := mk {
  writer : list byte;
  path : string
}.

(** [os.OpenFile(path, O_CREATE|O_WRONLY|O_APPEND, 0644)] *)
Definition NewWAL (path : string) (d : Disk) : t * Disk :=
  let fs :=
    match files d !! path with
    | Some _ => files d
    | None => <[path := []]> (files d)
    end in
  (mk [] path, mkDisk fs (syscalls d)).

(** [w.writer.WriteString(s)]: the string goes to the buffer when it
    fits; otherwise the buffer is filled and written out, and what is
    left is buffered or, when it is larger than the buffer, handed to the
    file as it is. *)
Definition writer_WriteString (w : t) (s : list byte) (d : Disk) : t * Disk :=
  let available := defaultBufSize - len_bytes (writer w) in
  if len_bytes s <=? available then (mk (writer w ++ s) (path w), d)
  else if len_bytes (writer w) =? 0 then (w, os_Write (path w) s d)
  else
    let head := take (Z.to_nat available) s in
    let rest := drop (Z.to_nat available) s in
    let d := os_Write (path w) (writer w ++ head) d in
    if len_bytes rest <=? defaultBufSize then (mk rest (path w), d)
    else (mk [] (path w), os_Write (path w) rest d).

(** [w.writer.Flush()] *)
Definition writer_Flush (w : t) (d : Disk) : t * Disk :=
  if len_bytes (writer w) =? 0 then (w, d)
  else (mk [] (path w), os_Write (path w) (writer w) d).

(** [fmt.Sprintf("%d|%s|%s|%s\n", timestamp, operation, key, value)] *)
Definition format_entry (timestamp : Z) (operation key value : string)
    : string :=
  pretty timestamp +:+ "|" +:+ operation +:+ "|" +:+ key +:+ "|" +:+ value
    +:+ newline.

(** [now] is what [time.Now().Unix()] returns during the call. *)
Definition WriteEntry (w : t) (operation key value : string) (now : Z)
    (d : Disk) : result unit * t * Disk :=
  let timestamp := now in
  let entry := format_entry timestamp operation key value in
  let '(w, d) := writer_WriteString w (list_byte_of_string entry) d in
  let '(w, d) := writer_Flush w d in
  (Ok tt, w, d).

Definition Close (w : t) (d : Disk) : t * Disk := writer_Flush w d.

(** What [Recover] leaves: the error it returns, the store, and the lines
    it printed. *)
Record Recovered : Type := mkRecovered {
  err : option string;
  store : Store.t;
  stdout : list string
}.

(** One turn of the loop [for scanner.Scan() { ... }], on the state
    [(lineNum, store, stdout)]. *)
Definition Recover_line (st : Z * Store.t * list string) (line : string)
    : Z * Store.t * list string :=
  let '(lineNum, store, out) := st in
  let lineNum := int64 (lineNum + 1) in
  let parts := SplitN line "|" 4 in
  if (List.length parts <? 4)%nat then
    (lineNum, store,
     out ++ ["error parsing line " +:+ pretty lineNum +:+
             ": unexpected EOF or corrupt WAL entry" +:+ newline])
  else
    let operation := nth 1 parts "" in
    let key := nth 2 parts "" in
    let value := nth 3 parts "" in
    if String.eqb operation "SET" then
      (lineNum, snd (Store.Set_ store key value), out)
    else if String.eqb operation "DEL" then
      (lineNum, Store.Delete store key, out)
    else (lineNum, store, out ++ ["unknown operation: " +:+ operation]).

Definition Recover (w : t) (store : Store.t) (d : Disk) : Recovered :=
  match files d !! path w with
  | None => mkRecovered None store []
  | Some data =>
      let '(lines, tooLong) :=
        Scan_lines (chars (string_of_list_byte data)) [] in
      let '(lineNum, store, out) :=
        fold_left Recover_line lines (0, store, []) in
      if tooLong then
        mkRecovered
          (Some "error reading WAL: bufio.Scanner: token too long")
          store out
      else
        mkRecovered None store
          (out ++ ["WAL recovery complete: replayed " +:+ pretty lineNum
                   +:+ " entries" +:+ newline])
  end.

(** A line is replayed when [Recover] applies it to the store: it has its
    four parts and its operation is [SET] or [DEL]. *)
Definition is_replayed (line : string) : bool :=
  let parts := SplitN line "|" 4 in
  negb (List.length parts <? 4)%nat &&
  (String.eqb (nth 1 parts "") "SET" || String.eqb (nth 1 parts "") "DEL").

Definition replayed (lines : list string) : Z :=
  Z.of_nat (List.length (List.filter is_replayed lines)).
End WAL.

(** ** The log of a running store, and the server (main.go) *)

(** The error of [os.File.Write] on a closed file: a [PathError] that wraps
    [os.ErrClosed]. *)
Definition write_on_closed (path : string) : string :=
  "write " +:+ path +:+ ": file already closed".

Module LogFile.
(** The WAL that a store holds: the buffer and the path, whether
    [file.Close] has been called, and the error that the [bufio.Writer]
    keeps once a write has failed. *)
Record t : Type := mk {
  wal : WAL.t;
  closed : bool;
  err : option string
}.

Definition buffered (l : t) : list byte := WAL.writer (wal l).
Definition path (l : t) : string := WAL.path (wal l).

Definition with_buffer (l : t) (buffer : list byte) : t :=
  mk (WAL.mk buffer (path l)) (closed l) (err l).

Definition with_err (l : t) (e : string) : t :=
  mk (wal l) (closed l) (Some e).

(** [w.file.Write(data)] *)
Definition file_Write (l : t) (data : list byte) (d : Disk)
    : result unit * Disk :=
  if closed l then (Err (write_on_closed (path l)), d)
  else (Ok tt, os_Write (path l) data d).

(** [w.writer.Flush()]: an earlier error is returned again; a failed write
    leaves the buffer as it is and is remembered. *)
Definition Flush (l : t) (d : Disk) : result unit * t * Disk :=
  match err l with
  | Some e => (Err e, l, d)
  | None =>
      if len_bytes (buffered l) =? 0 then (Ok tt, l, d)
      else
        match file_Write l (buffered l) d with
        | (Err e, d) => (Err e, with_err l e, d)
        | (Ok _, d) => (Ok tt, with_buffer l [], d)
        end
  end.

(** [w.writer.WriteString(s)]: the loop [for len(s) > b.Available() &&
    b.err == nil] turns at most twice, once to fill and flush a buffer that
    holds something and once to hand a large rest to the file. *)
Definition WriteString (l : t) (s : list byte) (d : Disk)
    : result unit * t * Disk :=
  match err l with
  | Some e => (Err e, l, d)
  | None =>
      let available := defaultBufSize - len_bytes (buffered l) in
      if len_bytes s <=? available then
        (Ok tt, with_buffer l (buffered l ++ s), d)
      else if len_bytes (buffered l) =? 0 then
        match file_Write l s d with
        | (Err e, d) => (Err e, with_err l e, d)
        | (Ok _, d) => (Ok tt, l, d)
        end
      else
        let head := take (Z.to_nat available) s in
        let rest := drop (Z.to_nat available) s in
        match Flush (with_buffer l (buffered l ++ head)) d with
        | (Err e, l, d) => (Err e, l, d)
        | (Ok _, l, d) =>
            if len_bytes rest <=? defaultBufSize then
              (Ok tt, with_buffer l rest, d)
            else
              match file_Write l rest d with
              | (Err e, d) => (Err e, with_err l e, d)
              | (Ok _, d) => (Ok tt, l, d)
              end
        end
  end.

(** [WriteEntry] with the errors of the writer. *)
Definition WriteEntry (l : t) (operation key value : string) (now : Z)
    (d : Disk) : result unit * t * Disk :=
  let entry := WAL.format_entry now operation key value in
  match WriteString l (list_byte_of_string entry) d with
  | (Err e, l, d) => (Err e, l, d)
  | (Ok _, l, d) => Flush l d
  end.

(** [Close]: the result of the flush is dropped, then [w.file.Close()]. *)
Definition Close (l : t) (d : Disk) : t * Disk :=
  let '(_, l, d) := Flush l d in
  (mk (wal l) true (err l), d).
End LogFile.

Module Server.
(** The global [store] of main.go: the data and the log. *)
Record t : Type := mk {
  data : Store.t;
  log : LogFile.t
}.

(** [NewStore]; [None] is the [nil] that it returns when recovery fails
    ([NewWAL] opens every path here, so its error branch is not taken).
    The deferred [wal.Close()] runs when [NewStore] returns, on both
    paths. *)
Definition NewStore (d : Disk) : option t * Disk :=
  let '(wal, d) := WAL.NewWAL "wal.log" d in
  let recovered := WAL.Recover wal (Store.mk ∅) d in
  let '(log, d) := LogFile.Close (LogFile.mk wal false None) d in
  match WAL.err recovered with
  | Some _ => (None, d)
  | None => (Some (mk (WAL.store recovered) log), d)
  end.

Definition crlf : string :=
  String (ascii_of_nat 13) (String (ascii_of_nat 10) EmptyString).

(** [fmt.Sprintf("$%d\r\n%s\r\n", len(s), s)] *)
Definition bulk (s : string) : string :=
  "$" +:+ pretty (len_string s) +:+ crlf +:+ s +:+ crlf.

(** [fmt.Sprintf("-ERR %s\r\n", err)] *)
Definition error_reply (e : string) : string := "-ERR " +:+ e +:+ crlf.

Section Commands.
(** [strings.ToUpper], which follows the Unicode tables. *)
Variable ToUpper : string -> string.

(** [executeCommand]; [now] is the clock reading that [WriteEntry] takes. *)
Definition executeCommand (args : list string) (now : Z) (s : t) (d : Disk)
    : string * t * Disk :=
  match args with
  | [] => ("-ERR empty command" +:+ crlf, s, d)
  | arg0 :: _ =>
      let command := ToUpper arg0 in
      if String.eqb command "PING" then ("+PONG" +:+ crlf, s, d)
      else if String.eqb command "ECHO" then
        if (List.length args <? 2)%nat then
          ("-ERR wrong number of arguments for 'echo' command" +:+ crlf, s, d)
        else (bulk (nth 1 args ""), s, d)
      else if String.eqb command "SET" then
        if (List.length args <? 3)%nat then
          ("-ERR wrong number of arguments for 'set' command" +:+ crlf, s, d)
        else
          let key := nth 1 args "" in
          let value := nth 2 args "" in
          match LogFile.WriteEntry (log s) "SET" key value now d with
          | (Err e, log, d) => (error_reply e, mk (data s) log, d)
          | (Ok _, log, d) =>
              match Store.Set_ (data s) key value with
              | (Err e, data) => (error_reply e, mk data log, d)
              | (Ok _, data) => ("+OK" +:+ crlf, mk data log, d)
              end
          end
      else if String.eqb command "GET" then
        if (List.length args <? 2)%nat then
          ("-ERR wrong number of arguments for 'get' command" +:+ crlf, s, d)
        else
          match Store.Get (data s) (nth 1 args "") with
          | None => ("$-1" +:+ crlf, s, d)
          | Some value => (bulk value, s, d)
          end
      else if String.eqb command "DEL" then
        if (List.length args <? 2)%nat then
          ("-ERR wrong number of arguments for 'del' command" +:+ crlf, s, d)
        else
          let key := nth 1 args "" in
          match LogFile.WriteEntry (log s) "DEL" key "" now d with
          | (Err e, log, d) => (error_reply e, mk (data s) log, d)
          | (Ok _, log, d) =>
              ("+OK" +:+ crlf, mk (Store.Delete (data s) key) log, d)
          end
      else ("-ERR unknown command '" +:+ command +:+ "'" +:+ crlf, s, d)
  end.

(** The commands of one client after the other, each with its clock
    reading; the replies in order. *)
Fixpoint serve (commands : list (list string * Z)) (s : t) (d : Disk)
    : list string * t * Disk :=
  match commands with
  | [] => ([], s, d)
  | (args, now) :: rest =>
      let '(reply, s, d) := executeCommand args now s d in
      let '(replies, s, d) := serve rest s d in
      (reply :: replies, s, d)
  end.
End Commands.
End Server.

(** ** Files used as inputs *)

(** An SSTable file holding [entries]: the entry region and the index as
    [CreateSSTable] lays them out, then the 20-byte footer in the layout
    that [ReadFooter] reads (index offset, entry count, version and magic
    number as [uint64], [uint32], [uint32], [uint32]), with the given
    version and magic number. *)
Definition sstable_file_with (version magic : Z) (entries : list Entry)
    : list byte :=
  snd (CreateSSTable_body entries [])
    ++ le_bytes 4 version ++ le_bytes 4 magic.

Definition sstable_file (entries : list Entry) : list byte :=
  sstable_file_with Version MagicNumber entries.

(** The fields of the footer of a file: the bytes that [ReadFooter] decodes
    when the file has its 20 bytes. *)
Definition footer_bytes (file : list byte) (from size : Z) : list byte :=
  take (Z.to_nat size) (drop (Z.to_nat (len_bytes file - from)) file).

Definition footer_index_start (file : list byte) : Z :=
  int64 (le_value (footer_bytes file 20 8)).
Definition footer_entries (file : list byte) : Z :=
  le_value (footer_bytes file 12 4).
Definition footer_version (file : list byte) : Z :=
  le_value (footer_bytes file 8 4).
Definition footer_magic (file : list byte) : Z :=
  le_value (footer_bytes file 4 4).

(** ** Vocabulary and inputs of the properties *)

(** The strict order of Go's [<] on keys. *)
Definition key_lt (a b : string) : Prop := String.ltb a b = true.

Definition keys (es : list Entry) : list string := map Key es.

(** Every key is below all the keys after it: strictly ascending, hence
    without duplicates. *)
Definition sorted_unique (es : list Entry) : Prop :=
  StronglySorted key_lt (keys es).

(** The error that [CreateSSTable] returns when [WriteFooter] reaches the
    version. *)
Definition footer_write_error : string :=
  "failed to write footer: failed to write version: binary.Write: some values are not fixed-sized in type int".

(** The table that [OpenSSTable] loads from a well-formed file holding
    [entries]. *)
Definition table_of (path : string) (entries : list Entry) : SSTable.t :=
  match OpenSSTable path {[ path := sstable_file entries ]} with
  | Ok sst => sst
  | Err _ => SSTable.mk path [] ∅ (SSTableFooter.mk 0 0 0 0)
  end.

(** Three generations of the key ["k"]: written as ["v0"], overwritten by
    ["v1"], then deleted. *)
Definition gen_old : SSTable.t :=
  table_of "data/sstable-0.db" [mkEntry "k" [x76; x30] 1 false].

Definition gen_mid : SSTable.t :=
  table_of "data/sstable-1.db" [mkEntry "k" [x76; x31] 2 false].

Definition gen_new : SSTable.t :=
  table_of "data/sstable-2.db" [mkEntry "k" [] 3 true].

(** A data directory with two generations of the key ["k"]. *)
Definition two_generations : FileSystem :=
  {[ "data/sstable-0.db" :=
       sstable_file [mkEntry "k" (list_byte_of_string "old") 1 false];
     "data/sstable-1.db" :=
       sstable_file [mkEntry "k" (list_byte_of_string "new") 2 false] ]}.

(** A sealed MemTable with one entry, waiting to be flushed. *)
Definition store_before_flush : LSMStore.t :=
  LSMStore.mk (MemTable.NewMemTable 500)
    (Some (MemTable.MakeImmutable
             (MemTable.run 500 [MemTable.OpSet "a" [x31] 1])))
    [] 500 "data" 0.

(** How many [fsync] calls a trace holds. *)
Definition fsync_count (trace : list Syscall) : nat :=
  List.length
    (List.filter (fun c => match c with SysFsync _ => true | SysWrite _ _ => false end)
       trace).

(** The bytes of one entry in the entry region, as [WriteEntry] lays them
    out. *)
Definition encode_entry (e : Entry) : list byte :=
  le_bytes 4 (uint32 (len_string (Key e))) ++ list_byte_of_string (Key e)
  ++ le_bytes 4 (uint32 (len_bytes (Value e))) ++ Value e
  ++ le_bytes 8 (Timestamp e) ++ le_bytes 1 (if Deleted e then 1 else 0).

(** The bytes of one index record, as the loop of [WriteIndex] lays them
    out. *)
Definition encode_index (ie : IndexEntry) : list byte :=
  le_bytes 4 (uint32 (len_string (IKey ie))) ++ list_byte_of_string (IKey ie)
  ++ le_bytes 8 (Offset ie).

(** The number of bytes of an encoded entry. *)
Definition encoded_size (e : Entry) : Z :=
  4 + len_string (Key e) + 4 + len_bytes (Value e) + 8 + 1.

Fixpoint total_size (entries : list Entry) : Z :=
  match entries with
  | [] => 0
  | e :: rest => encoded_size e + total_size rest
  end.

(** The index entries that [WriteEntries] records for [entries] when the
    first of them is written at [offset]. *)
Fixpoint index_from (offset : Z) (entries : list Entry) : list IndexEntry :=
  match entries with
  | [] => []
  | e :: rest => mkIndexEntry (Key e) offset :: index_from (offset + encoded_size e) rest
  end.

(** An entry that the format can hold: the lengths fit their [uint32]
    fields and the timestamp its [int64] field. *)
Definition encodable (e : Entry) : Prop :=
  len_string (Key e) < 2 ^ 32 /\ len_bytes (Value e) < 2 ^ 32 /\
  - 2 ^ 63 <= Timestamp e < 2 ^ 63.

(** The three regions of a well-formed file. *)
Definition entry_region (entries : list Entry) : list byte :=
  concat (map encode_entry entries).

Definition index_region (entries : list Entry) : list byte :=
  concat (map encode_index (index_from 0 entries)).

Definition footer_region (entries : list Entry) : list byte :=
  le_bytes 8 (uint64 (len_bytes (entry_region entries)))
  ++ le_bytes 4 (uint32 (int64 (Z.of_nat (List.length entries))))
  ++ le_bytes 4 Version ++ le_bytes 4 MagicNumber.

(** What an open file still has to offer from its cursor on, and the file
    after [n] more bytes have been read. *)
Definition remaining (f : OpenFile) : list byte :=
  drop (Z.to_nat (cursor f)) (contents f).

Definition advance (f : OpenFile) (n : Z) : OpenFile :=
  mkOpenFile (contents f) (cursor f + n).

(** An index record that the format can hold, and the map that reading a
    sequence of records builds. *)
Definition index_ok (ie : IndexEntry) : Prop :=
  len_string (IKey ie) < 2 ^ 32 /\ - 2 ^ 63 <= Offset ie < 2 ^ 63.

Definition index_of (ies : list IndexEntry) (m : gmap string Z) : gmap string Z :=
  fold_left (fun m ie => <[IKey ie := Offset ie]> m) ies m.

(** A reader moves the cursor and leaves the contents alone. *)
Definition keeps_contents {A} (m : Reader A) : Prop :=
  forall f : OpenFile, contents (snd (m f)) = contents f.

(** ** Vocabulary of the further properties *)

(** *** The MemTable *)

(** What [Set] adds to [sizeBytes] for a new entry: key, value and 24 bytes
    of bookkeeping. *)
Definition mem_size (e : Entry) : Z :=
  len_string (Key e) + len_bytes (Value e) + 24.

Definition sum_mem_size (es : list Entry) : Z :=
  fold_right (fun e acc => mem_size e + acc) 0 es.

(** The accounting of a MemTable is right when [sizeBytes] is the sum over
    its entries, in [int64] arithmetic. *)
Definition size_ok (mt : MemTable.t) : Prop :=
  MemTable.sizeBytes mt = int64 (sum_mem_size (MemTable.entries mt)).

(** What a reader of the operation sequence expects [Get key] to answer:
    the value of the last [Set] of the key that was made while the table
    was not sealed, unless a [Delete] of the key followed it. *)
Fixpoint last_write (ops : list MemTable.op) (sealed : bool)
    (current : option (list byte)) (key : string) : option (list byte) :=
  match ops with
  | [] => current
  | o :: rest =>
      if sealed then current
      else
        match o with
        | MemTable.OpSet k value _ =>
            last_write rest false
              (if String.eqb k key then Some value else current) key
        | MemTable.OpDelete k _ =>
            last_write rest false
              (if String.eqb k key then None else current) key
        | MemTable.OpMakeImmutable => current
        end
  end.

(** The slice after a write of [k]: the entry found by the search is
    replaced by [upd] of it when it has the key, and [fresh] is inserted at
    the position of the search otherwise. *)
Definition written (es : list Entry) (k : string) (upd : Entry -> Entry)
    (fresh : Entry) : list Entry :=
  match es !! MemTable.search es k with
  | Some e =>
      if String.eqb (Key e) k then <[MemTable.search es k := upd e]> es
      else MemTable.insert_at (MemTable.search es k) fresh es
  | None => MemTable.insert_at (MemTable.search es k) fresh es
  end.

(** *** Entries by key *)

(** The first entry with the given key. *)
Definition find_key (k : string) (es : list Entry) : option Entry :=
  List.find (fun e => String.eqb (Key e) k) es.

(** What a merge of two lists holds under a key, from what each list holds
    under it: the entry that [mergeEntries] picks when both have one, unless
    it is a tombstone; the only entry otherwise, tombstone or not. *)
Definition merged_lookup (a b : option Entry) : option Entry :=
  match a, b with
  | Some e1, Some e2 =>
      if Deleted (mergeEntries e1 e2) then None else Some (mergeEntries e1 e2)
  | Some e1, None => Some e1
  | None, Some e2 => Some e2
  | None, None => None
  end.

(** The index pair [(key, offset)] leads to the entry [e] of the file. *)
Definition read_as (file : list byte) (pair : string * Z) (e : Entry) : Prop :=
  ReadEntryAtOffset file pair.2 = Ok e /\ Key e = pair.1.

(** *** The store with its background flushes *)

(** A flush that [rotateMemTable] has started: not yet run, between its two
    critical sections with the table and the id it took, or with its file
    written and opened, waiting for the lock. *)
Inductive Flush : Type :=
| FlushStarted
| FlushTaken (memtableToFlush : MemTable.t) (sstableID : Z)
| FlushOpened (sstable : SSTable.t).

Record World : Type := mkWorld {
  w_store : LSMStore.t;
  w_files : FileSystem;
  w_flushes : list Flush
}.

(** What can happen next: a call of the client, which runs under the lock of
    the store, or the next move of one of the flushes. *)
Inductive Event : Type :=
| CallSet (key : string) (value : list byte) (now : Z)
| CallDelete (key : string) (now : Z)
| FlushMoves (i : nat).

Definition started (b : bool) : list Flush :=
  if b then [FlushStarted] else [].

Definition step (w : World) (ev : Event) : World :=
  match ev with
  | CallSet key value now =>
      let '(_, store, b) := LSMStore.Set_ (w_store w) key value now in
      mkWorld store (w_files w) (w_flushes w ++ started b)
  | CallDelete key now =>
      let '(_, store, b) := LSMStore.Delete (w_store w) key now in
      mkWorld store (w_files w) (w_flushes w ++ started b)
  | FlushMoves i =>
      match w_flushes w !! i with
      | None => w
      | Some FlushStarted =>
          match LSMStore.flush_take (w_store w) with
          | (store, None) => mkWorld store (w_files w) (delete i (w_flushes w))
          | (store, Some (memtableToFlush, sstableID)) =>
              mkWorld store (w_files w)
                (<[i := FlushTaken memtableToFlush sstableID]> (w_flushes w))
          end
      | Some (FlushTaken memtableToFlush sstableID) =>
          match LSMStore.flush_write (LSMStore.dataDir (w_store w))
                  memtableToFlush sstableID (w_files w) with
          | (None, fs) => mkWorld (w_store w) fs (delete i (w_flushes w))
          | (Some sstable, fs) =>
              mkWorld (w_store w) fs (<[i := FlushOpened sstable]> (w_flushes w))
          end
      | Some (FlushOpened sstable) =>
          mkWorld (LSMStore.flush_publish (w_store w) sstable) (w_files w)
            (delete i (w_flushes w))
      end
  end.

Definition run_world (w : World) (events : list Event) : World :=
  fold_left step events w.

(** No flush of the world has its table written and opened. *)
Definition not_opened (f : Flush) : Prop :=
  match f with FlushOpened _ => False | _ => True end.

(** The slot [immutableMemTable] holds a sealed table. *)
Definition slot_sealed (store : LSMStore.t) : Prop :=
  exists imm : MemTable.t,
    LSMStore.immutableMemTable store = Some imm /\
    MemTable.IsImmutable imm = true.

(** A store without the id of its next table. *)
Definition layers (store : LSMStore.t)
    : MemTable.t * option MemTable.t * list SSTable.t * Z * string :=
  (LSMStore.memTable store, LSMStore.immutableMemTable store,
   LSMStore.sstables store, LSMStore.memtableSize store,
   LSMStore.dataDir store).

(** What [Get] of the store answers from the layers below the MemTable. *)
Definition Get_below (store : LSMStore.t) (key : string) : option (list byte) :=
  match
    match LSMStore.immutableMemTable store with
    | Some imm => MemTable.Get imm key
    | None => None
    end
  with
  | Some value => Some value
  | None => LSMStore.Get_sstables (LSMStore.sstables store) key
  end.

(** The directory that [NewLSMStore] uses. *)
Definition dataDir_of (dataDir : string) : string :=
  if String.eqb dataDir "" then "database" else dataDir.

(** The name that the loader expects for the table with the given id. *)
Definition table_name (id : Z) : string :=
  "sstable-" +:+ pretty id +:+ ".db".

(** *** Records of the log *)

(** A record handed to [WriteEntry], with the clock reading of the call. *)
Record LogRecord : Type := mkLogRecord {
  r_operation : string;
  r_key : string;
  r_value : string;
  r_now : Z
}.

Definition write_record (st : WAL.t * Disk) (r : LogRecord) : WAL.t * Disk :=
  let '(_, w, d) :=
    WAL.WriteEntry (fst st) (r_operation r) (r_key r) (r_value r) (r_now r)
      (snd st) in
  (w, d).

(** What [Recover] does with the record of a line that has its four parts. *)
Definition replay (store : Store.t) (r : LogRecord) : Store.t :=
  if String.eqb (r_operation r) "SET" then
    snd (Store.Set_ store (r_key r) (r_value r))
  else if String.eqb (r_operation r) "DEL" then Store.Delete store (r_key r)
  else store.

Definition line_feed : ascii := ascii_of_nat 10.
Definition bar : ascii := "|"%char.

(** A character that neither ends a field nor a line. *)
Definition plain (c : ascii) : Prop := c <> bar /\ c <> line_feed.

(** The line of a record, without its line end. *)
Definition line_of (r : LogRecord) : list ascii :=
  chars (pretty (r_now r)) ++ bar :: chars (r_operation r) ++ bar ::
  chars (r_key r) ++ bar :: chars (r_value r).

(** A record that comes back from the log as it went in: no separator in the
    operation and the key, no line end in any field, no carriage return at
    the end of the value, and a line that fits the buffer of the scanner. *)
Definition loggable (r : LogRecord) : Prop :=
  (bar ∉ chars (r_operation r)) /\ (line_feed ∉ chars (r_operation r)) /\
  (bar ∉ chars (r_key r)) /\ (line_feed ∉ chars (r_key r)) /\
  (line_feed ∉ chars (r_value r)) /\
  last (chars (r_value r)) <> Some carriage_return /\
  len_string (WAL.format_entry (r_now r) (r_operation r) (r_key r) (r_value r))
  <= MaxScanTokenSize.

(** A record whose line the scanner refuses: no line end inside, and
    [MaxScanTokenSize] bytes or more before the line end. *)
Definition too_long (r : LogRecord) : Prop :=
  (line_feed ∉ chars (r_operation r)) /\ (line_feed ∉ chars (r_key r)) /\
  (line_feed ∉ chars (r_value r)) /\
  MaxScanTokenSize
  < len_string (WAL.format_entry (r_now r) (r_operation r) (r_key r) (r_value r)).

(** A value of 64 KiB. *)
Definition long_value : string :=
  string_of_list_ascii (repeat "a"%char (Z.to_nat MaxScanTokenSize)).

(** *** The server *)

(** A log whose file is closed and whose writer has failed, if at all, on
    that. *)
Definition log_closed (l : LogFile.t) : Prop :=
  LogFile.closed l = true /\
  (LogFile.err l = None \/
   LogFile.err l = Some (write_on_closed (LogFile.path l))).

(** A command that [executeCommand] takes as a write with enough arguments. *)
Definition is_write (ToUpper : string -> string) (args : list string) : bool :=
  match args with
  | [] => false
  | arg0 :: _ =>
      (String.eqb (ToUpper arg0) "SET" && (3 <=? List.length args)%nat) ||
      (String.eqb (ToUpper arg0) "DEL" && (2 <=? List.length args)%nat)
  end.

(** [strings.ToUpper] on ASCII letters, other bytes unchanged. *)
Definition ascii_upper (s : string) : string :=
  string_of_list_ascii
    (map (fun c =>
            let n := nat_of_ascii c in
            if (97 <=? n)%nat && (n <=? 122)%nat then ascii_of_nat (n - 32)
            else c)
       (chars s)).

(** * Properties *)

(** ** The order on keys *)

Lemma ltb_negb_leb (a b : string) : String.ltb a b = negb (String.leb b a).
Proof.
  unfold String.ltb, String.leb.
  rewrite (String.compare_antisym b a).
  destruct (String.compare a b); reflexivity.
Qed.

Lemma leb_false_lt (a b : string) : String.leb a b = false -> key_lt b a.
Proof. intros H. unfold key_lt. rewrite ltb_negb_leb, H. reflexivity. Qed.

Lemma key_lt_irrefl (a : string) : ~ key_lt a a.
Proof.
  unfold key_lt. rewrite ltb_negb_leb.
  assert (String.le a a) as Hle by reflexivity.
  unfold String.le in Hle. destruct (String.leb a a); simpl; [discriminate | contradiction].
Qed.

Lemma leb_lt_trans (a b c : string) :
  String.leb a b = true -> key_lt b c -> key_lt a c.
Proof.
  unfold key_lt. rewrite !ltb_negb_leb. intros Hab Hbc.
  destruct (String.leb c a) eqn:Hca; [|reflexivity].
  assert (String.le c b) as Hcb.
  { transitivity a; unfold String.le; [rewrite Hca | rewrite Hab]; exact I. }
  unfold String.le in Hcb. destruct (String.leb c b); [discriminate | contradiction].
Qed.

Lemma key_lt_leb (a b : string) : key_lt a b -> String.leb a b = true.
Proof.
  unfold key_lt. rewrite ltb_negb_leb. intros H.
  destruct (String.le_total a b) as [Hle | Hle]; unfold String.le in Hle.
  - destruct (String.leb a b); [reflexivity | contradiction].
  - destruct (String.leb b a); [discriminate | contradiction].
Qed.

#[global] Instance key_lt_trans : Transitive key_lt.
Proof. intros a b c Hab Hbc. eapply leb_lt_trans; [apply key_lt_leb|]; eassumption. Qed.

Lemma leb_neq_lt (a b : string) :
  String.leb a b = true -> a <> b -> key_lt a b.
Proof.
  intros Hab Hne. unfold key_lt. rewrite ltb_negb_leb.
  destruct (String.leb b a) eqn:Hba; [|reflexivity].
  exfalso. apply Hne. apply String.leb_antisym; assumption.
Qed.

(** ** Binary search *)

Section search.
Variable f : nat -> bool.
Variable n : nat.
Hypothesis f_mono :
  forall a b : nat, (a <= b < n)%nat -> f a = true -> f b = true.

Lemma Search_loop_bounds (fuel i j : nat) :
  (i <= j <= n)%nat -> (j - i <= fuel)%nat ->
  (forall k, (k < i)%nat -> f k = false) ->
  (forall k, (j <= k < n)%nat -> f k = true) ->
  (Search_loop fuel f i j <= n)%nat /\
  (forall k, (k < Search_loop fuel f i j)%nat -> f k = false) /\
  (forall k, (Search_loop fuel f i j <= k < n)%nat -> f k = true).
Proof.
  revert i j. induction fuel as [|fuel IH]; intros i j Hij Hfuel Hlo Hhi;
    cbn [Search_loop].
  - assert (i = j) by lia. subst. repeat split; [lia | assumption | assumption].
  - destruct (Nat.ltb_spec i j) as [Hlt | Hge].
    + assert (i <= (i + j) / 2 < j)%nat as Hh.
      { split; [apply Nat.div_le_lower_bound | apply Nat.Div0.div_lt_upper_bound]; lia. }
      destruct (f ((i + j) / 2)%nat) eqn:Hf; cbn [negb]; apply IH;
        try lia; try assumption.
      * intros k Hk. destruct (Nat.eq_dec k ((i + j) / 2)%nat) as [-> | Hne];
          [assumption|]. apply (f_mono ((i + j) / 2)%nat); [lia | assumption].
      * intros k Hk. destruct (f k) eqn:Hfk; [|reflexivity].
        destruct (Nat.ltb_spec k i) as [Hki | Hki]; [rewrite Hlo in Hfk; [discriminate | assumption]|].
        rewrite (f_mono k ((i + j) / 2)%nat) in Hf; [discriminate | lia | assumption].
    + assert (i = j) by lia. subst. repeat split; [lia | assumption | assumption].
Qed.

Lemma Search_spec :
  (Search n f <= n)%nat /\
  (forall k, (k < Search n f)%nat -> f k = false) /\
  (forall k, (Search n f <= k < n)%nat -> f k = true).
Proof.
  unfold Search. apply Search_loop_bounds; intros; lia.
Qed.
End search.

(** ** The MemTable keeps its entries strictly sorted *)

Lemma StronglySorted_lookup_lt {A} (R : relation A) (l : list A) :
  StronglySorted R l ->
  forall (i j : nat) (x y : A),
    (i < j)%nat -> l !! i = Some x -> l !! j = Some y -> R x y.
Proof.
  induction 1 as [|a l Hl IH Hall]; intros i j x y Hij Hi Hj.
  - rewrite lookup_nil in Hi. discriminate.
  - destruct j as [|j]; [lia|]. destruct i as [|i]; simpl in *.
    + injection Hi as <-. rewrite Forall_forall in Hall.
      apply Hall. eapply list_elem_of_lookup_2. eassumption.
    + apply (IH i j); [lia | assumption | assumption].
Qed.

Lemma StronglySorted_key_lt_NoDup (ks : list string) :
  StronglySorted key_lt ks -> NoDup ks.
Proof.
  induction 1 as [|a l Hl IH Hall]; constructor; [|assumption].
  intros Hin. rewrite Forall_forall in Hall.
  apply (key_lt_irrefl a). apply Hall. assumption.
Qed.

Lemma lookup_keys (es : list Entry) (i : nat) :
  keys es !! i = Key <$> (es !! i).
Proof. unfold keys. apply list_lookup_fmap. Qed.

Lemma search_spec (es : list Entry) (key : string) :
  sorted_unique es ->
  (MemTable.search es key <= List.length es)%nat /\
  (forall k e, (k < MemTable.search es key)%nat -> es !! k = Some e ->
               key_lt (Key e) key) /\
  (forall k e, (MemTable.search es key <= k)%nat -> es !! k = Some e ->
               String.leb key (Key e) = true).
Proof.
  intros Hs. unfold MemTable.search.
  set (f := fun i : nat => match es !! i with
                           | Some e => String.leb key (Key e)
                           | None => false
                           end).
  assert (forall a b : nat, (a <= b < List.length es)%nat ->
                            f a = true -> f b = true) as Hmono.
  { intros a b [Hab Hb] Ha. unfold f in *.
    destruct (es !! a) as [ea|] eqn:Hea; [|discriminate].
    destruct (lookup_lt_is_Some_2 es b Hb) as [eb Heb]. rewrite Heb.
    destruct (Nat.eq_dec a b) as [-> | Hne]; [congruence|].
    apply key_lt_leb. eapply leb_lt_trans; [exact Ha|].
    apply (StronglySorted_lookup_lt key_lt (keys es) Hs a b); [lia | |];
      rewrite lookup_keys; [rewrite Hea | rewrite Heb]; reflexivity. }
  destruct (Search_spec f (List.length es) Hmono) as (Hle & Hlo & Hhi).
  split; [exact Hle|]. split.
  - intros k e Hk He. specialize (Hlo k Hk). unfold f in Hlo. rewrite He in Hlo.
    apply leb_false_lt. exact Hlo.
  - intros k e Hk He.
    assert (k < List.length es)%nat as Hkn by (eapply lookup_lt_Some; eassumption).
    specialize (Hhi k (conj Hk Hkn)). unfold f in Hhi. rewrite He in Hhi. exact Hhi.
Qed.

Lemma update_keeps_keys (es : list Entry) (idx : nat) (e e' : Entry) :
  es !! idx = Some e -> Key e' = Key e -> keys (<[idx := e']> es) = keys es.
Proof.
  intros He Hk. unfold keys.
  change (map Key (<[idx := e']> es)) with (Key <$> <[idx := e']> es).
  rewrite list_fmap_insert, Hk. apply list_insert_id.
  rewrite list_lookup_fmap, He. reflexivity.
Qed.

Lemma insert_at_sorted (es : list Entry) (entry : Entry) :
  sorted_unique es ->
  (forall e, es !! MemTable.search es (Key entry) = Some e ->
             Key e <> Key entry) ->
  sorted_unique (MemTable.insert_at (MemTable.search es (Key entry)) entry es).
Proof.
  intros Hs Hne.
  destruct (search_spec es (Key entry) Hs) as (Hle & Hlo & Hhi).
  set (idx := MemTable.search es (Key entry)) in *.
  unfold sorted_unique, MemTable.insert_at, keys in *.
  rewrite map_app. simpl.
  pose proof Hs as Hs'. rewrite <- (take_drop idx es), map_app in Hs'.
  apply StronglySorted_app in Hs' as (Hcross & Hl & Hr).
  assert (forall y, y ∈ map Key (drop idx es) -> key_lt (Key entry) y) as Hgt.
  { intros y Hy. apply list_elem_of_lookup_1 in Hy as [k Hk].
    change (map Key (drop idx es)) with (Key <$> drop idx es) in Hk.
    rewrite list_lookup_fmap, lookup_drop in Hk.
    destruct (es !! (idx + k)%nat) as [e|] eqn:He; [|discriminate].
    injection Hk as <-.
    destruct k as [|k].
    - rewrite Nat.add_0_r in He. apply leb_neq_lt.
      + apply (Hhi idx e); [lia | exact He].
      + intros Heq. apply (Hne e He). symmetry. exact Heq.
    - destruct (lookup_lt_is_Some_2 es idx) as [e0 He0].
      { apply lookup_lt_Some in He. lia. }
      eapply leb_lt_trans; [apply (Hhi idx e0); [lia | exact He0]|].
      apply (StronglySorted_lookup_lt key_lt (map Key es) Hs idx (idx + S k));
        [lia | |];
        change (map Key es) with (Key <$> es); rewrite list_lookup_fmap;
        [rewrite He0 | rewrite He]; reflexivity. }
  assert (forall x, x ∈ map Key (take idx es) -> key_lt x (Key entry)) as Hlt.
  { intros x Hx.
    change (map Key (take idx es)) with (Key <$> take idx es) in Hx.
    apply list_elem_of_fmap in Hx as (e & -> & He).
    apply elem_of_take in He as (k & He & Hk). apply (Hlo k e Hk He). }
  apply StronglySorted_app. split; [|split].
  - intros x1 x2 H1 H2. apply elem_of_cons in H2 as [-> | H2].
    + apply Hlt. exact H1.
    + apply Hcross; assumption.
  - exact Hl.
  - constructor; [exact Hr|]. apply Forall_forall. exact Hgt.
Qed.

Lemma Set_sorted (mt : MemTable.t) (key : string) (value : list byte) (now : Z) :
  sorted_unique (MemTable.entries mt) ->
  sorted_unique (MemTable.entries (snd (MemTable.Set_ mt key value now))).
Proof.
  intros Hs. unfold MemTable.Set_.
  destruct (MemTable.immutable mt); [exact Hs|].
  destruct (MemTable.entries mt !! MemTable.search (MemTable.entries mt) key)
    as [e|] eqn:He.
  - destruct (String.eqb_spec (Key e) key) as [Heq | Hneq]; simpl.
    + unfold sorted_unique. erewrite update_keeps_keys; [exact Hs | exact He | reflexivity].
    + apply (insert_at_sorted _ (mkEntry key value now false) Hs).
      simpl. intros e' He'. congruence.
  - simpl. apply (insert_at_sorted _ (mkEntry key value now false) Hs).
    simpl. intros e' He'. congruence.
Qed.

Lemma Delete_sorted (mt : MemTable.t) (key : string) (now : Z) :
  sorted_unique (MemTable.entries mt) ->
  sorted_unique (MemTable.entries (snd (MemTable.Delete mt key now))).
Proof.
  intros Hs. unfold MemTable.Delete.
  destruct (MemTable.immutable mt); [exact Hs|].
  destruct (MemTable.entries mt !! MemTable.search (MemTable.entries mt) key)
    as [e|] eqn:He.
  - destruct (String.eqb_spec (Key e) key) as [Heq | Hneq]; simpl.
    + unfold sorted_unique. erewrite update_keeps_keys; [exact Hs | exact He | reflexivity].
    + apply (insert_at_sorted _ (mkEntry key [] now true) Hs).
      simpl. intros e' He'. congruence.
  - simpl. apply (insert_at_sorted _ (mkEntry key [] now true) Hs).
    simpl. intros e' He'. congruence.
Qed.

Lemma apply_sorted (mt : MemTable.t) (o : MemTable.op) :
  sorted_unique (MemTable.entries mt) ->
  sorted_unique (MemTable.entries (MemTable.apply mt o)).
Proof.
  destruct o; simpl; [apply Set_sorted | apply Delete_sorted | exact id].
Qed.

Lemma fold_apply_sorted (ops : list MemTable.op) (mt : MemTable.t) :
  sorted_unique (MemTable.entries mt) ->
  sorted_unique (MemTable.entries (fold_left MemTable.apply ops mt)).
Proof.
  revert mt. induction ops as [|o ops IH]; intros mt Hs; simpl; [exact Hs|].
  apply IH. apply apply_sorted. exact Hs.
Qed.

(** C9. For every sequence of Set and Delete operations (and of sealings)
    applied to a MemTable that starts empty, the entry list that
    [GetAllEntries] returns is strictly sorted by key, and no key occurs in
    it twice. *)
Theorem MemTable_GetAllEntries_sorted_unique (maxSize : Z)
    (ops : list MemTable.op) :
  StronglySorted key_lt
    (map Key (MemTable.GetAllEntries (MemTable.run maxSize ops))) /\
  NoDup (map Key (MemTable.GetAllEntries (MemTable.run maxSize ops))).
Proof.
  assert (sorted_unique (MemTable.entries (MemTable.run maxSize ops))) as Hs.
  { unfold MemTable.run. apply fold_apply_sorted. constructor. }
  split; [exact Hs | apply StronglySorted_key_lt_NoDup; exact Hs].
Qed.

(** ** Single-table compaction *)

(** C10. Called with a list of exactly one SSTable, [CompactSSTables]
    returns that table's file path and no error, reads no entry, and leaves
    the file system as it was: no file is created and none is changed. *)
Theorem CompactSSTables_single_is_noop (range : RangeOrder) (sst : SSTable.t)
    (outputPath : string) (fs : FileSystem) :
  CompactSSTables range [sst] outputPath fs
  = (Ok (SSTable.filePath sst), fs, []).
Proof. reflexivity. Qed.

(** With two tables the call does read and write: one entry read per index
    key, in the order of the tables, and a file at the output path. *)
Lemma CompactSSTables_two_tables_reads_and_writes :
  snd (CompactSSTables map_to_list [gen_mid; gen_old] "data/sstable-2.db" ∅)
  = [("data/sstable-1.db", 0); ("data/sstable-0.db", 0)] /\
  map fst (map_to_list
             (snd (fst (CompactSSTables map_to_list [gen_mid; gen_old]
                          "data/sstable-2.db" ∅))))
  = ["data/sstable-2.db"].
Proof. split; vm_compute; reflexivity. Qed.

(** ** Reading the footer *)

Lemma io_ReadFull_in_range (file : list byte) (pos n : Z) :
  0 <= pos -> 0 <= n -> pos + n <= len_bytes file ->
  io_ReadFull n (mkOpenFile file pos)
  = (Ok (take (Z.to_nat n) (drop (Z.to_nat pos) file)),
     mkOpenFile file (pos + n)).
Proof.
  intros Hpos Hn Hle. unfold io_ReadFull, len_bytes in *. simpl.
  assert (List.length (take (Z.to_nat n) (drop (Z.to_nat pos) file))
          = Z.to_nat n) as Hlen.
  { rewrite length_take, length_drop. lia. }
  rewrite Hlen, Z2Nat.id by lia. rewrite Z.eqb_refl. reflexivity.
Qed.

Lemma ReadFooter_too_small (file : list byte) (pos : Z) :
  len_bytes file < 20 ->
  fst (ReadFooter (mkOpenFile file pos))
  = Err "file is too small to contain a footer".
Proof.
  intros Hlt. unfold ReadFooter, bind, file_Stat_Size. simpl.
  destruct (Z.ltb_spec (len_bytes file) 20); [reflexivity | lia].
Qed.

Lemma ReadFooter_large_enough (file : list byte) (pos : Z) :
  20 <= len_bytes file ->
  fst (ReadFooter (mkOpenFile file pos))
  = if footer_magic file =? MagicNumber then
      Ok (SSTableFooter.mk (footer_index_start file) (footer_entries file)
            (footer_version file) (footer_magic file))
    else Err ("invalid magic number: " +:+ pretty (footer_magic file)).
Proof.
  intros Hge. unfold ReadFooter, bind at 1, file_Stat_Size. cbn [contents].
  destruct (Z.ltb_spec (len_bytes file) 20) as [Hlt | _]; [lia|].
  unfold bind at 1, orErrorf at 1, file_Seek.
  destruct (Z.ltb_spec (len_bytes file - 20) 0) as [Hlt | _]; [lia|].
  cbn [Errorf contents].
  unfold bind at 1, orErrorf at 1, binary_Read_int64, bind at 1.
  rewrite io_ReadFull_in_range by lia. cbn [ret Errorf].
  unfold bind at 1, orErrorf at 1, binary_Read_uint32 at 1, bind at 1.
  rewrite io_ReadFull_in_range by lia. cbn [ret Errorf].
  unfold bind at 1, orErrorf at 1, binary_Read_uint32 at 1, bind at 1.
  rewrite io_ReadFull_in_range by lia. cbn [ret Errorf].
  unfold bind at 1, orErrorf at 1, binary_Read_uint32 at 1, bind at 1.
  rewrite io_ReadFull_in_range by lia. cbn [ret Errorf].
  unfold footer_magic, footer_version, footer_entries, footer_index_start,
    footer_bytes.
  replace (len_bytes file - 20 + 8) with (len_bytes file - 12) by lia.
  replace (len_bytes file - 12 + 4) with (len_bytes file - 8) by lia.
  replace (len_bytes file - 8 + 4) with (len_bytes file - 4) by lia.
  destruct (le_value (take (Z.to_nat 4) (drop (Z.to_nat (len_bytes file - 4)) file))
            =? MagicNumber); reflexivity.
Qed.

Lemma OpenSSTable_footer_error (path : string) (fs : FileSystem)
    (file : list byte) (e : string) :
  fs !! path = Some file ->
  fst (ReadFooter (mkOpenFile file 0)) = Err e ->
  OpenSSTable path fs = Err ("failed to read footer: " +:+ e).
Proof.
  intros Hfile Herr. unfold OpenSSTable. rewrite Hfile.
  unfold OpenSSTable_body, bind, orErrorf.
  destruct (ReadFooter (mkOpenFile file 0)) as [r f'].
  simpl in Herr. subst r. reflexivity.
Qed.

(** C7, as the code has it.  [OpenSSTable] rejects a file shorter than 20
    bytes and a file whose last four bytes do not decode to the magic number
    0xBABECAFE, each with an error of [ReadFooter]; the version field of the
    footer is read and stored but takes no part in the decision. *)
Theorem OpenSSTable_rejects_short_or_bad_magic (path : string)
    (fs : FileSystem) (file : list byte)
    (Hfile : fs !! path = Some file)
    (Hbad : len_bytes file < 20 \/ footer_magic file <> MagicNumber) :
  OpenSSTable path fs
  = Err ("failed to read footer: " +:+
         (if len_bytes file <? 20 then "file is too small to contain a footer"
          else "invalid magic number: " +:+ pretty (footer_magic file))).
Proof.
  apply (OpenSSTable_footer_error path fs file); [exact Hfile|].
  destruct (Z.ltb_spec (len_bytes file) 20) as [Hlt | Hge].
  - apply ReadFooter_too_small. exact Hlt.
  - rewrite ReadFooter_large_enough by exact Hge.
    destruct Hbad as [Hlt | Hmagic]; [lia|].
    destruct (Z.eqb_spec (footer_magic file) MagicNumber); [contradiction | reflexivity].
Qed.

(** A file whose footer carries the magic number 0xCAFEBABE, bytes in the
    wrong order, is turned away. *)
Lemma OpenSSTable_rejects_short_or_bad_magic_witness :
  OpenSSTable "data/sstable-0.db"
    {[ "data/sstable-0.db" :=
         sstable_file_with 1 0xCAFEBABE [mkEntry "a" [x31] 1 false] ]}
  = Err "failed to read footer: invalid magic number: 3405691582".
Proof.
  apply (OpenSSTable_rejects_short_or_bad_magic "data/sstable-0.db"
           {[ "data/sstable-0.db" :=
                sstable_file_with 1 0xCAFEBABE [mkEntry "a" [x31] 1 false] ]}
           (sstable_file_with 1 0xCAFEBABE [mkEntry "a" [x31] 1 false])).
  - vm_compute. reflexivity.
  - right. vm_compute. discriminate.
Defined.

(** C7, as stated, fails: a file whose footer has the right magic number and
    version 2 is opened without error, and its one entry is served. *)
Lemma OpenSSTable_accepts_unknown_version :
  exists sst : SSTable.t,
    OpenSSTable "data/sstable-0.db"
      {[ "data/sstable-0.db" :=
           sstable_file_with 2 MagicNumber [mkEntry "a" [x31] 1 false] ]}
    = Ok sst /\
    SSTableFooter.Version (SSTable.footer sst) = 2 /\
    SSTableFooter.Version (SSTable.footer sst) <> Version /\
    SSTable.Get sst "a" = Ok (Some [x31]).
Proof.
  eexists. split; [vm_compute; reflexivity|].
  split; [reflexivity|]. split; [discriminate | vm_compute; reflexivity].
Qed.

(** ** Writing an SSTable *)

Lemma WriteEntry_succeeds (key : string) (value : list byte) (timestamp : Z)
    (isDeleted : bool) (file : list byte) :
  exists (n : Z) (written : list byte),
    WriteEntry key value timestamp isDeleted file = (Ok n, file ++ written).
Proof.
  cbv [WriteEntry WriteKey WriteValue WriteMetadata bind orErrorf binary_Write
       binary_encode file_Write ret Errorf].
  eexists. eexists. rewrite <- !app_assoc. reflexivity.
Qed.

Lemma WriteEntries_loop_succeeds (entries : list Entry) :
  forall (indexEntries : list IndexEntry) (currentOffset : Z) (file : list byte),
  exists (r : list IndexEntry * Z) (written : list byte),
    WriteEntries_loop entries indexEntries currentOffset file
    = (Ok r, file ++ written) /\
    List.length (fst r) = (List.length indexEntries + List.length entries)%nat.
Proof.
  induction entries as [|entry rest IH]; intros indexEntries currentOffset file.
  - exists (indexEntries, currentOffset), []. rewrite app_nil_r. simpl.
    split; [reflexivity | lia].
  - cbn [WriteEntries_loop]. unfold bind at 1, orErrorf at 1.
    destruct (WriteEntry_succeeds (Key entry) (Value entry) (Timestamp entry)
                (Deleted entry) file) as (n & written & ->).
    cbn [Errorf].
    destruct (IH (indexEntries ++ [mkIndexEntry (Key entry) currentOffset])
                (int64 (currentOffset + n)) (file ++ written))
      as (r & written' & -> & Hlen).
    exists r, (written ++ written'). rewrite app_assoc. split; [reflexivity|].
    rewrite Hlen, length_app. simpl. lia.
Qed.

Lemma WriteIndex_loop_succeeds (indexEntries : list IndexEntry) :
  forall (bytesWritten : Z) (file : list byte),
  exists (n : Z) (written : list byte),
    WriteIndex_loop indexEntries bytesWritten file = (Ok n, file ++ written).
Proof.
  induction indexEntries as [|indexEntry rest IH]; intros bytesWritten file.
  - exists bytesWritten, []. rewrite app_nil_r. reflexivity.
  - cbn [WriteIndex_loop].
    cbv [bind orErrorf binary_Write binary_encode file_Write Errorf].
    match goal with
    | |- context [WriteIndex_loop rest ?b ?f] =>
        destruct (IH b f) as (n & written & ->)
    end.
    eexists. eexists. rewrite <- !app_assoc. reflexivity.
Qed.

Lemma WriteFooter_stops_at_version (indexStartOffset numberOfEntries : Z)
    (file : list byte) :
  WriteFooter indexStartOffset numberOfEntries file
  = (Err "failed to write version: binary.Write: some values are not fixed-sized in type int",
     file ++ le_bytes 8 (uint64 indexStartOffset)
          ++ le_bytes 4 (uint32 numberOfEntries)).
Proof.
  cbv [WriteFooter bind orErrorf binary_Write binary_encode ret Errorf].
  rewrite <- app_assoc. reflexivity.
Qed.

Lemma CreateSSTable_body_stops_at_version (entries : list Entry) :
  exists entryRegion indexRegion : list byte,
    CreateSSTable_body entries []
    = (Err footer_write_error,
       entryRegion ++ indexRegion
         ++ le_bytes 8 (uint64 (len_bytes entryRegion))
         ++ le_bytes 4 (uint32 (int64 (Z.of_nat (List.length entries))))).
Proof.
  unfold CreateSSTable_body, WriteEntries.
  unfold bind at 1, orErrorf at 1.
  destruct (WriteEntries_loop_succeeds entries [] 0 [])
    as (r & written & -> & _).
  cbn [Errorf app].
  unfold bind at 1, orErrorf at 1, WriteIndex, bind at 1, file_Size.
  unfold bind at 1.
  destruct (WriteIndex_loop_succeeds (fst r) 0 written) as (n & written' & ->).
  cbn [ret Errorf fst].
  unfold bind at 1, orErrorf at 1.
  rewrite WriteFooter_stops_at_version. cbn [Errorf].
  exists written, written'. rewrite <- !app_assoc. reflexivity.
Qed.

Lemma CreateSSTable_fails (path : string) (entries : list Entry)
    (fs : FileSystem) :
  fst (CreateSSTable path entries fs) = Err footer_write_error.
Proof.
  unfold CreateSSTable.
  destruct (CreateSSTable_body_stops_at_version entries)
    as (entryRegion & indexRegion & ->).
  reflexivity.
Qed.

(** C8.  The claim is about the files of successful [CreateSSTable] calls,
    and the code has none: for every path and every entry list the call
    stops with an error when it writes the footer's version, because the
    untyped constant [Version] reaches [binary.Write] as an [int].  The file
    it leaves ends with 12 bytes of footer, the index offset and the entry
    count; neither the version nor the magic number is written.  For one
    entry, the last four bytes of the file are the count 1, not the magic
    number. *)
Theorem CreateSSTable_leaves_footer_without_magic :
  (forall (path : string) (entries : list Entry) (fs : FileSystem),
     exists entryRegion indexRegion : list byte,
       CreateSSTable path entries fs
       = (Err footer_write_error,
          <[path := entryRegion ++ indexRegion
                      ++ le_bytes 8 (uint64 (len_bytes entryRegion))
                      ++ le_bytes 4
                           (uint32 (int64 (Z.of_nat (List.length entries))))]>
            fs)) /\
  (exists file : list byte,
     (snd (CreateSSTable "data/sstable-0.sst" [mkEntry "a" [x31] 1 false] ∅)
        !! "data/sstable-0.sst") = Some file /\
     drop (List.length file - 4) file = [x01; x00; x00; x00] /\
     le_bytes 4 MagicNumber = [xfe; xca; xbe; xba]).
Proof.
  split.
  - intros path entries fs. unfold CreateSSTable.
    destruct (CreateSSTable_body_stops_at_version entries)
      as (entryRegion & indexRegion & ->).
    exists entryRegion, indexRegion. reflexivity.
  - eexists. split; [vm_compute; reflexivity|].
    split; vm_compute; reflexivity.
Qed.

(** C1.  The round trip cannot be made: for every path and every entry list
    [CreateSSTable] returns an error (the footer is cut short, see C8), and
    the file it leaves for the one-entry list is refused by [OpenSSTable],
    so no entry and no index offset can be read back. *)
Theorem CreateSSTable_then_OpenSSTable_fails :
  (forall (path : string) (entries : list Entry) (fs : FileSystem),
     fst (CreateSSTable path entries fs) = Err footer_write_error) /\
  OpenSSTable "data/sstable-0.sst"
    (snd (CreateSSTable "data/sstable-0.sst" [mkEntry "a" [x31] 1 false] ∅))
  = Err "failed to read footer: invalid magic number: 1".
Proof.
  split; [exact CreateSSTable_fails | vm_compute; reflexivity].
Qed.

(** ** Compaction *)

Lemma range_singleton (range : RangeOrder) (k : string) (v : Z) :
  (forall index, range index ≡ₚ map_to_list index) ->
  range {[ k := v ]} = [(k, v)].
Proof.
  intros H. specialize (H {[ k := v ]}). rewrite map_to_list_singleton in H.
  apply Permutation_singleton_r. exact H.
Qed.

Lemma getAllEntries_one_key (range : RangeOrder) (sst : SSTable.t)
    (k : string) (offset : Z) :
  (forall index, range index ≡ₚ map_to_list index) ->
  SSTable.index sst = {[ k := offset ]} ->
  getAllEntriesFromSSTable range sst
  = match ReadEntryAtOffset (SSTable.file sst) offset with
    | Err _ => ([], [(SSTable.filePath sst, offset)])
    | Ok entry =>
        if negb (String.eqb (Key entry) k)
        then ([], [(SSTable.filePath sst, offset)])
        else ([entry], [(SSTable.filePath sst, offset)])
    end.
Proof.
  intros Hrange Hindex. unfold getAllEntriesFromSSTable.
  rewrite Hindex, (range_singleton range k offset Hrange). simpl.
  destruct (ReadEntryAtOffset (SSTable.file sst) offset) as [entry|];
    [destruct (negb (String.eqb (Key entry) k))|]; reflexivity.
Qed.

(** C2.  Compaction of the tables [gen_new; gen_mid; gen_old], newest
    first as the store keeps them, whatever order [range] visits an index
    in.  The newest entry of ["k"] is a tombstone.  Before compaction the
    store's lookup answers ["v1"].  The merge pairs the tombstone with
    ["v1"], drops both, and then takes ["v0"] from the oldest table: the
    entries handed to [CreateSSTable] hold ["k"] with the oldest value.
    The call itself ends with the footer error of C8, so no output table
    is made. *)
Theorem CompactSSTables_resurrects_deleted_key (range : RangeOrder)
    (Hrange : forall index, range index ≡ₚ map_to_list index) :
  LSMStore.Get
    (LSMStore.mk (MemTable.NewMemTable 0) None [gen_new; gen_mid; gen_old]
       0 "data" 3) "k"
  = Some [x76; x31] /\
  mergeAll (map fst (map (getAllEntriesFromSSTable range)
                       [gen_new; gen_mid; gen_old]))
  = [mkEntry "k" [x76; x30] 1 false] /\
  fst (fst (CompactSSTables range [gen_new; gen_mid; gen_old]
              "data/sstable-3.db" ∅))
  = Err footer_write_error.
Proof.
  split; [vm_compute; reflexivity|]. split.
  - cbn [map].
    rewrite (getAllEntries_one_key range gen_new "k" 0 Hrange)
      by (vm_compute; reflexivity).
    rewrite (getAllEntries_one_key range gen_mid "k" 0 Hrange)
      by (vm_compute; reflexivity).
    rewrite (getAllEntries_one_key range gen_old "k" 0 Hrange)
      by (vm_compute; reflexivity).
    vm_compute. reflexivity.
  - unfold CompactSSTables.
    match goal with
    | |- context [CreateSSTable ?p ?es ?fs] =>
        pose proof (CreateSSTable_fails p es fs) as H;
        destruct (CreateSSTable p es fs) as [[u|e] fs']; simpl in H
    end; [discriminate|].
    simpl. congruence.
Qed.

Lemma CompactSSTables_resurrects_deleted_key_witness :
  mergeAll (map fst (map (getAllEntriesFromSSTable map_to_list)
                       [gen_new; gen_mid; gen_old]))
  = [mkEntry "k" [x76; x30] 1 false].
Proof.
  apply (CompactSSTables_resurrects_deleted_key map_to_list).
  intros index. reflexivity.
Defined.

(** ** Loading SSTables at startup *)

#[global] Instance id_le_total : Total id_le.
Proof. intros a b. unfold id_le. lia. Qed.

#[global] Instance id_le_trans : Transitive id_le.
Proof. intros a b c. unfold id_le. lia. Qed.

Lemma OpenSSTable_filePath (file : string) (fs : FileSystem) (sst : SSTable.t) :
  OpenSSTable file fs = Ok sst -> SSTable.filePath sst = file.
Proof.
  unfold OpenSSTable. destruct (fs !! file) as [bytes|]; [|discriminate].
  destruct (fst (OpenSSTable_body (mkOpenFile bytes 0))) as [[index footer]|];
    [|discriminate].
  intros [= <-]. reflexivity.
Qed.

Lemma loadSSTables_loop_paths (files : list string) (fs : FileSystem) :
  forall store store' : LSMStore.t,
    LSMStore.loadSSTables_loop files fs store = Ok store' ->
    map SSTable.filePath (LSMStore.sstables store')
    = map SSTable.filePath (LSMStore.sstables store) ++ files.
Proof.
  induction files as [|file rest IH]; intros store store' Hload; simpl in Hload.
  - injection Hload as <-. rewrite app_nil_r. reflexivity.
  - destruct (OpenSSTable file fs) as [sst|] eqn:Hopen; [|discriminate].
    apply IH in Hload. simpl in Hload. rewrite Hload, map_app. simpl.
    rewrite (OpenSSTable_filePath file fs sst Hopen), <- app_assoc.
    reflexivity.
Qed.

(** The tables of a freshly built store are in ascending order of the ids
    in their file names: the oldest file is first. *)
Lemma NewLSMStore_sstables_ascending (memtableSize : Z) (dataDir : string)
    (fs : FileSystem) (store : LSMStore.t) :
  LSMStore.NewLSMStore memtableSize dataDir fs = Ok store ->
  StronglySorted id_le (map SSTable.filePath (LSMStore.sstables store)).
Proof.
  unfold LSMStore.NewLSMStore, LSMStore.loadSSTables.
  cbn [LSMStore.dataDir].
  match goal with
  | |- context [Glob ?d ?p ?s ?f] => set (files := Glob d p s f)
  end.
  destruct (Nat.eqb_spec (List.length files) 0) as [Hnil | Hcons].
  - intros [= <-]. constructor.
  - match goal with
    | |- context [LSMStore.loadSSTables_loop ?l ?f ?s] =>
        destruct (LSMStore.loadSSTables_loop l f s) as [loaded|] eqn:Hload
    end; [|discriminate].
    intros [= <-]. apply loadSSTables_loop_paths in Hload.
    rewrite Hload. simpl. apply StronglySorted_merge_sort; apply _.
Qed.

(** C3.  A store built over a directory that holds [sstable-0.db] and
    [sstable-1.db], both with the key ["k"], lists the tables oldest first,
    and [Get] answers with the value of the lowest id, ["old"], not with the
    one of the highest id. *)
Theorem LSMStore_Get_after_load_reads_oldest_first :
  exists store : LSMStore.t,
    LSMStore.NewLSMStore 500 "data" two_generations = Ok store /\
    map SSTable.filePath (LSMStore.sstables store)
    = ["data/sstable-0.db"; "data/sstable-1.db"] /\
    LSMStore.Get store "k" = Some (list_byte_of_string "old").
Proof.
  eexists. split; [vm_compute; reflexivity|].
  split; vm_compute; reflexivity.
Qed.

(** ** Where the flush writes and where the loader looks *)

Lemma chars_append (a b : string) : chars (a +:+ b) = chars a ++ chars b.
Proof.
  unfold chars. induction a as [|c a IH]; simpl; [reflexivity|].
  rewrite IH. reflexivity.
Qed.

Lemma flushPath_not_db (dataDir : string) (sstableID : Z) :
  HasSuffix (flushPath dataDir sstableID) ".db" = false.
Proof.
  unfold HasSuffix. apply bool_decide_eq_false. intros Hsuf.
  unfold flushPath in Hsuf. rewrite !chars_append in Hsuf.
  change (chars ".db") with (["."%char; "d"%char] ++ ["b"%char]) in Hsuf.
  change (chars ".sst") with (["."%char; "s"%char; "s"%char] ++ ["t"%char])
    in Hsuf.
  rewrite !app_assoc in Hsuf.
  apply suffix_snoc_inv_1 in Hsuf. discriminate.
Qed.

(** C4.  The flush writes to [dataDir/sstable-<id>.sst]; the loader lists
    [dataDir/sstable-*.db].  For no directory and no id does the loader's
    pattern match the path of the flush.  After the flush of a one-entry
    MemTable the only file is [data/sstable-0.sst], the loader's listing of
    the directory is empty, and a store built anew has no table; a
    well-formed table stored under the flush's name is not listed either. *)
Theorem flushed_SSTable_is_not_loaded :
  (forall (dataDir : string) (sstableID : Z),
     Match_star (Join dataDir "sstable-") ".db" (flushPath dataDir sstableID)
     = false) /\
  map fst (map_to_list (snd (LSMStore.flushImmutableMemTable
                               store_before_flush ∅)))
  = ["data/sstable-0.sst"] /\
  Glob "data" "sstable-" ".db"
    (snd (LSMStore.flushImmutableMemTable store_before_flush ∅)) = [] /\
  Glob "data" "sstable-" ".db"
    {[ flushPath "data" 0 := sstable_file [mkEntry "a" [x31] 1 false] ]} = [] /\
  (exists store : LSMStore.t,
     LSMStore.NewLSMStore 500 "data"
       (snd (LSMStore.flushImmutableMemTable store_before_flush ∅))
     = Ok store /\
     LSMStore.sstables store = []).
Proof.
  split.
  - intros dataDir sstableID. unfold Match_star.
    rewrite flushPath_not_db, andb_false_r. reflexivity.
  - split; [vm_compute; reflexivity|].
    split; [vm_compute; reflexivity|].
    split; [vm_compute; reflexivity|].
    eexists. split; vm_compute; reflexivity.
Qed.

(** ** The write-ahead log: appending *)

Lemma fsync_count_os_Write (path : string) (data : list byte) (d : Disk) :
  fsync_count (syscalls (os_Write path data d)) = fsync_count (syscalls d).
Proof.
  unfold fsync_count, os_Write. cbn [syscalls].
  rewrite List.filter_app, length_app. simpl. lia.
Qed.

Lemma writer_WriteString_no_fsync (w : WAL.t) (s : list byte) (d : Disk) :
  fsync_count (syscalls (snd (WAL.writer_WriteString w s d)))
  = fsync_count (syscalls d).
Proof.
  unfold WAL.writer_WriteString.
  repeat match goal with
         | |- context [if ?c then _ else _] => destruct c
         end;
    cbn [snd]; rewrite ?fsync_count_os_Write; reflexivity.
Qed.

Lemma writer_Flush_no_fsync (w : WAL.t) (d : Disk) :
  fsync_count (syscalls (snd (WAL.writer_Flush w d)))
  = fsync_count (syscalls d).
Proof.
  unfold WAL.writer_Flush.
  destruct (len_bytes (WAL.writer w) =? 0); cbn [snd];
    rewrite ?fsync_count_os_Write; reflexivity.
Qed.

(** C5.  [WriteEntry] returns success for every record, and the system
    calls it has made by then are [write]s only: the trace holds as many
    [fsync] calls after the append as before.  Appending one record to a
    fresh log makes exactly one call, the [write] of the record. *)
Theorem WAL_WriteEntry_never_syncs :
  (forall (w : WAL.t) (operation key value : string) (now : Z) (d : Disk),
     fst (fst (WAL.WriteEntry w operation key value now d)) = Ok tt /\
     fsync_count (syscalls (snd (WAL.WriteEntry w operation key value now d)))
     = fsync_count (syscalls d)) /\
  syscalls (snd (WAL.WriteEntry (WAL.mk [] "wal.log") "SET" "k" "v" 17
                   (mkDisk {[ "wal.log" := [] ]} [])))
  = [SysWrite "wal.log" (list_byte_of_string ("17|SET|k|v" +:+ newline))].
Proof.
  split; [|vm_compute; reflexivity].
  intros w operation key value now d. unfold WAL.WriteEntry.
  pose proof (writer_WriteString_no_fsync w
                (list_byte_of_string (WAL.format_entry now operation key value))
                d) as H1.
  destruct (WAL.writer_WriteString w
              (list_byte_of_string (WAL.format_entry now operation key value))
              d) as [w1 d1].
  pose proof (writer_Flush_no_fsync w1 d1) as H2.
  destruct (WAL.writer_Flush w1 d1) as [w2 d2].
  cbn [fst snd] in *. split; [reflexivity | congruence].
Qed.

(** ** The write-ahead log: replay *)

Lemma int64_in_range (z : Z) : - 2 ^ 63 <= z < 2 ^ 63 -> int64 z = z.
Proof.
  intros H. unfold int64. rewrite Z.mod_small; lia.
Qed.

Lemma Recover_line_counts (line : string) (lineNum : Z) (store : Store.t)
    (out : list string) :
  fst (fst (WAL.Recover_line (lineNum, store, out) line)) = int64 (lineNum + 1).
Proof.
  unfold WAL.Recover_line.
  repeat match goal with
         | |- context [if ?c then _ else _] => destruct c
         end; reflexivity.
Qed.

Lemma fold_Recover_line_counts (lines : list string) :
  forall (lineNum : Z) (store : Store.t) (out : list string),
    0 <= lineNum -> lineNum + Z.of_nat (List.length lines) < 2 ^ 63 ->
    fst (fst (fold_left WAL.Recover_line lines (lineNum, store, out)))
    = lineNum + Z.of_nat (List.length lines).
Proof.
  induction lines as [|line rest IH]; intros lineNum store out H0 Hmax.
  - simpl. lia.
  - cbn [fold_left].
    pose proof (Recover_line_counts line lineNum store out) as Hc.
    destruct (WAL.Recover_line (lineNum, store, out) line) as [[n s] o].
    cbn [fst] in Hc. subst n.
    cbn [List.length] in Hmax.
    rewrite int64_in_range by lia. rewrite IH by lia.
    cbn [List.length]. lia.
Qed.

(** A line that is not replayed leaves the store as it is. *)
Lemma Recover_line_not_replayed (line : string) (lineNum : Z)
    (store : Store.t) (out : list string) :
  WAL.is_replayed line = false ->
  snd (fst (WAL.Recover_line (lineNum, store, out) line)) = store.
Proof.
  unfold WAL.is_replayed, WAL.Recover_line.
  destruct (List.length (SplitN line "|" 4) <? 4)%nat; [reflexivity|].
  cbn [negb andb].
  destruct (String.eqb (nth 1 (SplitN line "|" 4) "") "SET"); [discriminate|].
  destruct (String.eqb (nth 1 (SplitN line "|" 4) "") "DEL"); [discriminate|].
  reflexivity.
Qed.

(** C6.  When [Recover] reads the log to its end, the count in its closing
    message is the number of lines the scanner produced, whether or not they
    were replayed. *)
Theorem WAL_Recover_reports_lines_read (w : WAL.t) (store : Store.t)
    (d : Disk) (data : list byte) (lines : list string)
    (Hfile : files d !! WAL.path w = Some data)
    (Hscan : Scan_lines (chars (string_of_list_byte data)) [] = (lines, false))
    (Hsize : Z.of_nat (List.length lines) < 2 ^ 63) :
  WAL.err (WAL.Recover w store d) = None /\
  last (WAL.stdout (WAL.Recover w store d))
  = Some ("WAL recovery complete: replayed "
          +:+ pretty (Z.of_nat (List.length lines)) +:+ " entries" +:+ newline).
Proof.
  unfold WAL.Recover. rewrite Hfile, Hscan.
  pose proof (fold_Recover_line_counts lines 0 store [] (Z.le_refl 0)) as Hc.
  destruct (fold_left WAL.Recover_line lines (0, store, [])) as [[n s] o].
  cbn [fst] in Hc. rewrite Hc by lia. cbn [WAL.err WAL.stdout].
  split; [reflexivity|]. rewrite last_snoc. reflexivity.
Qed.

(** A log of one line that is no record: nothing is replayed, the store is
    as before, and the message says "replayed 1 entries". *)
Lemma WAL_Recover_reports_lines_read_witness :
  WAL.replayed ["garbage"] = 0 /\
  WAL.store (WAL.Recover (WAL.mk [] "wal.log") (Store.mk ∅)
               (mkDisk {[ "wal.log" := list_byte_of_string ("garbage" +:+ newline) ]} []))
  = Store.mk ∅ /\
  last (WAL.stdout
          (WAL.Recover (WAL.mk [] "wal.log") (Store.mk ∅)
             (mkDisk {[ "wal.log" := list_byte_of_string ("garbage" +:+ newline) ]} [])))
  = Some ("WAL recovery complete: replayed 1 entries" +:+ newline).
Proof.
  split; [reflexivity|]. split; [vm_compute; reflexivity|].
  apply (WAL_Recover_reports_lines_read (WAL.mk [] "wal.log") (Store.mk ∅)
           (mkDisk {[ "wal.log" := list_byte_of_string ("garbage" +:+ newline) ]} [])
           (list_byte_of_string ("garbage" +:+ newline)) ["garbage"]).
  - vm_compute. reflexivity.
  - vm_compute. reflexivity.
  - vm_compute. reflexivity.
Defined.

(** ** The round trip of a well-formed file *)

Lemma Z_of_byte_of_Z (z : Z) : Z_of_byte (byte_of_Z z) = z mod 256.
Proof.
  unfold Z_of_byte, byte_of_Z.
  assert (0 <= z mod 256 < 256) as Hr by (apply Z.mod_pos_bound; lia).
  destruct (Byte.of_N (Z.to_N (z mod 256))) as [b|] eqn:Hb.
  - apply Byte.to_of_N in Hb. simpl. rewrite Hb. lia.
  - apply Byte.of_N_None_iff in Hb. lia.
Qed.

Lemma lor_shiftl_8 (a b : Z) :
  0 <= a < 256 -> 0 <= b -> Z.lor a (Z.shiftl b 8) = a + 256 * b.
Proof.
  intros Ha Hb.
  assert (Z.land a (Z.shiftl b 8) = 0) as Hland.
  { apply Z.bits_inj'. intros i Hi. rewrite Z.land_spec, Z.bits_0.
    destruct (Z.ltb_spec i 8) as [Hlt | Hge].
    - rewrite Z.shiftl_spec_low by lia. apply andb_false_r.
    - assert (Z.testbit a i = false) as ->; [|reflexivity].
      destruct (Z.eq_dec a 0) as [-> | Hne]; [apply Z.bits_0|].
      apply Z.bits_above_log2; [lia|].
      assert (Z.log2 a < 8); [|lia]. apply Z.log2_lt_pow2; lia. }
  rewrite <- Z.lxor_lor by exact Hland.
  rewrite <- Z.add_nocarry_lxor by exact Hland.
  rewrite Z.shiftl_mul_pow2 by lia. change (2 ^ 8) with 256. lia.
Qed.

Lemma le_value_nonneg (bs : list byte) : 0 <= le_value bs.
Proof.
  induction bs as [|b r IH]; simpl; [lia|].
  apply Z.lor_nonneg. split; [unfold Z_of_byte; lia|].
  apply Z.shiftl_nonneg. exact IH.
Qed.

Lemma le_value_le_bytes (n : nat) (z : Z) :
  le_value (le_bytes n z) = z mod 2 ^ (8 * Z.of_nat n).
Proof.
  revert z. induction n as [|n IH]; intros z.
  - simpl. rewrite Z.mod_1_r. reflexivity.
  - cbn [le_bytes le_value]. rewrite IH, Z_of_byte_of_Z.
    rewrite lor_shiftl_8.
    + rewrite Z.shiftr_div_pow2 by lia. change (2 ^ 8) with 256.
      replace (8 * Z.of_nat (S n)) with (8 + 8 * Z.of_nat n) by lia.
      rewrite Z.pow_add_r by lia. change (2 ^ 8) with 256.
      rewrite Z.rem_mul_r by lia. reflexivity.
    + apply Z.mod_pos_bound. lia.
    + apply Z.mod_pos_bound. lia.
Qed.

Lemma length_le_bytes (n : nat) (z : Z) : List.length (le_bytes n z) = n.
Proof. revert z. induction n as [|n IH]; intros z; simpl; [|rewrite IH]; reflexivity. Qed.

Lemma len_bytes_app (a b : list byte) : len_bytes (a ++ b) = len_bytes a + len_bytes b.
Proof. unfold len_bytes. rewrite length_app. lia. Qed.

Lemma len_bytes_le_bytes (n : nat) (z : Z) : len_bytes (le_bytes n z) = Z.of_nat n.
Proof. unfold len_bytes. rewrite length_le_bytes. reflexivity. Qed.

Lemma len_bytes_of_string (s : string) : len_bytes (list_byte_of_string s) = len_string s.
Proof.
  unfold len_bytes, len_string, list_byte_of_string. rewrite length_map.
  f_equal. induction s as [|c s IH]; simpl; [|rewrite IH]; reflexivity.
Qed.

Lemma len_bytes_nonneg (b : list byte) : 0 <= len_bytes b.
Proof. unfold len_bytes. lia. Qed.

Lemma len_string_nonneg (s : string) : 0 <= len_string s.
Proof. unfold len_string. lia. Qed.

Lemma len_encode_entry (e : Entry) : len_bytes (encode_entry e) = encoded_size e.
Proof.
  unfold encode_entry, encoded_size.
  rewrite !len_bytes_app, !len_bytes_le_bytes, len_bytes_of_string. lia.
Qed.

Lemma encoded_size_pos (e : Entry) : 0 < encoded_size e.
Proof.
  unfold encoded_size. pose proof (len_string_nonneg (Key e)).
  pose proof (len_bytes_nonneg (Value e)). lia.
Qed.

Lemma total_size_nonneg (entries : list Entry) : 0 <= total_size entries.
Proof.
  induction entries as [|e r IH]; simpl; [lia|].
  pose proof (encoded_size_pos e). lia.
Qed.

Lemma WriteEntry_encodes (e : Entry) (file : list byte) :
  encodable e ->
  WriteEntry (Key e) (Value e) (Timestamp e) (Deleted e) file
  = (Ok (encoded_size e), file ++ encode_entry e).
Proof.
  intros (Hk & Hv & Ht).
  pose proof (len_string_nonneg (Key e)). pose proof (len_bytes_nonneg (Value e)).
  cbv [WriteEntry WriteKey WriteValue WriteMetadata bind orErrorf binary_Write
       binary_encode file_Write ret Errorf].
  unfold encode_entry, encoded_size. rewrite len_bytes_of_string.
  rewrite <- !app_assoc. f_equal. f_equal.
  change (2 ^ 32) with 4294967296 in *. change (2 ^ 63) with 9223372036854775808 in *.
  repeat match goal with
         | |- context [int64 ?z] => rewrite (int64_in_range z) by lia
         end.
  lia.
Qed.

Lemma WriteEntries_loop_encodes (entries : list Entry) :
  forall (indexEntries : list IndexEntry) (currentOffset : Z) (file : list byte),
    Forall encodable entries ->
    0 <= currentOffset -> currentOffset + total_size entries < 2 ^ 63 ->
    WriteEntries_loop entries indexEntries currentOffset file
    = (Ok (indexEntries ++ index_from currentOffset entries,
           currentOffset + total_size entries),
       file ++ concat (map encode_entry entries)).
Proof.
  induction entries as [|e rest IH]; intros indexEntries currentOffset file Hall H0 Hmax.
  - simpl. unfold ret. rewrite !app_nil_r, Z.add_0_r. reflexivity.
  - apply Forall_cons in Hall as [He Hrest]. cbn [total_size] in Hmax.
    pose proof (encoded_size_pos e). pose proof (total_size_nonneg rest).
    cbn [WriteEntries_loop]. unfold bind at 1, orErrorf at 1.
    rewrite (WriteEntry_encodes e file He). cbn [Errorf].
    rewrite int64_in_range by lia.
    rewrite IH by (try assumption; lia).
    cbn [index_from total_size map concat].
    rewrite <- !app_assoc. cbn [app]. rewrite Z.add_assoc. reflexivity.
Qed.

Lemma WriteIndex_loop_encodes (indexEntries : list IndexEntry) :
  forall (bytesWritten : Z) (file : list byte),
  exists n : Z,
    WriteIndex_loop indexEntries bytesWritten file
    = (Ok n, file ++ concat (map encode_index indexEntries)).
Proof.
  induction indexEntries as [|ie rest IH]; intros bytesWritten file.
  - exists bytesWritten. simpl. rewrite app_nil_r. reflexivity.
  - cbn [WriteIndex_loop].
    cbv [bind orErrorf binary_Write binary_encode file_Write Errorf].
    match goal with
    | |- context [WriteIndex_loop rest ?b ?f] =>
        destruct (IH b f) as (n & ->)
    end.
    exists n. cbn [map concat]. unfold encode_index.
    rewrite <- !app_assoc. reflexivity.
Qed.

Lemma sstable_file_layout (entries : list Entry) :
  Forall encodable entries -> total_size entries < 2 ^ 63 ->
  sstable_file entries
  = entry_region entries ++ index_region entries ++ footer_region entries.
Proof.
  intros Hall Hmax. unfold sstable_file, sstable_file_with, CreateSSTable_body, WriteEntries.
  unfold bind at 1, orErrorf at 1.
  rewrite (WriteEntries_loop_encodes entries [] 0 []) by (try assumption; lia).
  cbn [Errorf app fst].
  unfold bind at 1, orErrorf at 1, WriteIndex, bind at 1, file_Size.
  unfold bind at 1.
  destruct (WriteIndex_loop_encodes (index_from 0 entries) 0
              (concat (map encode_entry entries))) as (n & ->).
  cbn [ret Errorf fst].
  unfold bind at 1, orErrorf at 1.
  rewrite WriteFooter_stops_at_version. cbn [snd Errorf].
  unfold entry_region, index_region, footer_region.
  rewrite <- !app_assoc. reflexivity.
Qed.

Lemma remaining_advance (f : OpenFile) (bs rest : list byte) :
  0 <= cursor f -> remaining f = bs ++ rest ->
  remaining (advance f (len_bytes bs)) = rest /\ 0 <= cursor (advance f (len_bytes bs)).
Proof.
  intros Hc Hrem. unfold remaining, advance, len_bytes in *. cbn [contents cursor].
  split; [|lia].
  rewrite Z2Nat.inj_add, Nat2Z.id by lia.
  rewrite <- drop_drop, Hrem. apply drop_app_length.
Qed.

Lemma io_ReadFull_remaining (f : OpenFile) (n : Z) (bs rest : list byte) :
  remaining f = bs ++ rest -> n = len_bytes bs ->
  io_ReadFull n f = (Ok bs, advance f (len_bytes bs)).
Proof.
  intros Hrem ->. unfold io_ReadFull, remaining in *. cbv zeta.
  rewrite Hrem. unfold len_bytes. rewrite Nat2Z.id, take_app_length.
  rewrite Z.eqb_refl. reflexivity.
Qed.

Lemma binary_Read_uint32_remaining (f : OpenFile) (z : Z) (rest : list byte) :
  remaining f = le_bytes 4 z ++ rest ->
  binary_Read_uint32 f = (Ok (z mod 2 ^ 32), advance f 4).
Proof.
  intros Hrem. unfold binary_Read_uint32, bind.
  rewrite (io_ReadFull_remaining f 4 _ _ Hrem) by (rewrite len_bytes_le_bytes; reflexivity).
  rewrite len_bytes_le_bytes. unfold ret. rewrite le_value_le_bytes. reflexivity.
Qed.

Lemma binary_Read_int64_remaining (f : OpenFile) (z : Z) (rest : list byte) :
  remaining f = le_bytes 8 z ++ rest ->
  binary_Read_int64 f = (Ok (int64 (z mod 2 ^ 64)), advance f 8).
Proof.
  intros Hrem. unfold binary_Read_int64, bind.
  rewrite (io_ReadFull_remaining f 8 _ _ Hrem) by (rewrite len_bytes_le_bytes; reflexivity).
  rewrite len_bytes_le_bytes. unfold ret. rewrite le_value_le_bytes. reflexivity.
Qed.

Lemma binary_Read_uint8_remaining (f : OpenFile) (z : Z) (rest : list byte) :
  remaining f = le_bytes 1 z ++ rest ->
  binary_Read_uint8 f = (Ok (z mod 2 ^ 8), advance f 1).
Proof.
  intros Hrem. unfold binary_Read_uint8, bind.
  rewrite (io_ReadFull_remaining f 1 _ _ Hrem) by (rewrite len_bytes_le_bytes; reflexivity).
  rewrite len_bytes_le_bytes. unfold ret. rewrite le_value_le_bytes. reflexivity.
Qed.

Lemma int64_of_uint64 (z : Z) : - 2 ^ 63 <= z < 2 ^ 63 -> int64 (z mod 2 ^ 64) = z.
Proof.
  intros H. unfold int64.
  rewrite Zplus_mod_idemp_l. rewrite Z.mod_small; lia.
Qed.

Lemma ReadEntry_remaining (f : OpenFile) (e : Entry) (rest : list byte) :
  0 <= cursor f -> remaining f = encode_entry e ++ rest -> encodable e ->
  exists f',
    (keyLength <~ binary_Read_uint32 onerr "failed to read key length" ;;
     keyBytes <~ io_ReadFull keyLength onerr "failed to read key" ;;
     valueLength <~ binary_Read_uint32 onerr "failed to read value length" ;;
     valueBytes <~ io_ReadFull valueLength onerr "failed to read value" ;;
     timestamp <~ binary_Read_int64 onerr "failed to read timestamp" ;;
     deleted <~ binary_Read_uint8 onerr "failed to read deleted" ;;
     ret (mkEntry (string_of_list_byte keyBytes) valueBytes timestamp
            (negb (deleted =? 0)))) f = (Ok e, f').
Proof.
  intros Hc Hrem (Hk & Hv & Ht).
  pose proof (len_string_nonneg (Key e)) as Hk0.
  pose proof (len_bytes_nonneg (Value e)) as Hv0.
  unfold encode_entry in Hrem. rewrite <- !app_assoc in Hrem.
  unfold bind at 1, orErrorf at 1.
  rewrite (binary_Read_uint32_remaining f _ _ Hrem). cbn [Errorf].
  apply remaining_advance in Hrem as [Hrem Hc1]; [|exact Hc].
  rewrite len_bytes_le_bytes in Hrem, Hc1. change (Z.of_nat 4) with 4 in *.
  unfold uint32 at 1. rewrite Z.mod_mod by lia. rewrite Z.mod_small by lia.
  unfold bind at 1, orErrorf at 1.
  rewrite (io_ReadFull_remaining _ _ _ _ Hrem) by (rewrite len_bytes_of_string; reflexivity).
  cbn [Errorf].
  apply remaining_advance in Hrem as [Hrem Hc2]; [|exact Hc1].
  unfold bind at 1, orErrorf at 1.
  rewrite (binary_Read_uint32_remaining _ _ _ Hrem). cbn [Errorf].
  apply remaining_advance in Hrem as [Hrem Hc3]; [|exact Hc2].
  rewrite len_bytes_le_bytes in Hrem, Hc3. change (Z.of_nat 4) with 4 in *.
  unfold uint32 at 1. rewrite Z.mod_mod by lia. rewrite Z.mod_small by lia.
  unfold bind at 1, orErrorf at 1.
  rewrite (io_ReadFull_remaining _ _ _ _ Hrem) by reflexivity.
  cbn [Errorf].
  apply remaining_advance in Hrem as [Hrem Hc4]; [|exact Hc3].
  unfold bind at 1, orErrorf at 1.
  rewrite (binary_Read_int64_remaining _ _ _ Hrem). cbn [Errorf].
  apply remaining_advance in Hrem as [Hrem Hc5]; [|exact Hc4].
  rewrite len_bytes_le_bytes in Hrem, Hc5. change (Z.of_nat 8) with 8 in *.
  unfold bind at 1, orErrorf at 1.
  rewrite (binary_Read_uint8_remaining _ _ _ Hrem). cbn [Errorf].
  unfold ret. eexists. f_equal. f_equal.
  rewrite string_of_list_byte_of_string, int64_of_uint64 by exact Ht.
  destruct e as [k v t d]. cbn [Key Value Timestamp Deleted]. f_equal.
  destruct d; reflexivity.
Qed.

Lemma ReadEntryAtOffset_decodes (file : list byte) (offset : Z) (e : Entry)
    (rest : list byte) :
  0 <= offset -> drop (Z.to_nat offset) file = encode_entry e ++ rest ->
  encodable e ->
  ReadEntryAtOffset file offset = Ok e.
Proof.
  intros H0 Hdrop He. unfold ReadEntryAtOffset, ReadEntryAtOffset_body.
  unfold bind at 1, orErrorf at 1, file_Seek.
  destruct (Z.ltb_spec offset 0) as [Hlt | _]; [lia|]. cbn [Errorf contents].
  destruct (ReadEntry_remaining (mkOpenFile file offset) e rest H0 Hdrop He)
    as (f' & ->).
  reflexivity.
Qed.

Lemma ReadIndex_loop_decodes (ies : list IndexEntry) :
  forall (m : gmap string Z) (f : OpenFile) (rest : list byte),
    0 <= cursor f ->
    remaining f = concat (map encode_index ies) ++ rest ->
    Forall index_ok ies ->
    exists f',
      ReadIndex_loop (List.length ies) m f = (Ok (index_of ies m), f').
Proof.
  induction ies as [|ie ies IH]; intros m f rest Hc Hrem Hall.
  - eexists. reflexivity.
  - apply Forall_cons in Hall as [[Hk Ho] Hall].
    pose proof (len_string_nonneg (IKey ie)) as Hk0.
    cbn [map concat] in Hrem. unfold encode_index in Hrem.
    rewrite <- !app_assoc in Hrem.
    cbn [List.length ReadIndex_loop].
    unfold bind at 1, orErrorf at 1.
    rewrite (binary_Read_uint32_remaining f _ _ Hrem). cbn [Errorf].
    apply remaining_advance in Hrem as [Hrem Hc1]; [|exact Hc].
    rewrite len_bytes_le_bytes in Hrem, Hc1. change (Z.of_nat 4) with 4 in *.
    unfold uint32 at 1. rewrite Z.mod_mod by lia. rewrite Z.mod_small by lia.
    unfold bind at 1, orErrorf at 1.
    rewrite (io_ReadFull_remaining _ _ _ _ Hrem)
      by (rewrite len_bytes_of_string; reflexivity).
    cbn [Errorf].
    apply remaining_advance in Hrem as [Hrem Hc2]; [|exact Hc1].
    unfold bind at 1, orErrorf at 1.
    rewrite (binary_Read_int64_remaining _ _ _ Hrem). cbn [Errorf].
    apply remaining_advance in Hrem as [Hrem Hc3]; [|exact Hc2].
    rewrite len_bytes_le_bytes in Hrem, Hc3. change (Z.of_nat 8) with 8 in *.
    rewrite string_of_list_byte_of_string, int64_of_uint64 by exact Ho.
    destruct (IH (<[IKey ie := Offset ie]> m) _ rest Hc3 Hrem Hall) as (f' & ->).
    eexists. reflexivity.
Qed.

Lemma index_of_lookup_other (ies : list IndexEntry) :
  forall (m : gmap string Z) (k : string),
    k ∉ map IKey ies -> index_of ies m !! k = m !! k.
Proof.
  induction ies as [|ie ies IH]; intros m k Hk; [reflexivity|].
  cbn [map] in Hk. apply not_elem_of_cons in Hk as [Hne Hk].
  unfold index_of in *. cbn [fold_left]. rewrite IH by exact Hk.
  apply lookup_insert_ne. congruence.
Qed.

Lemma index_of_lookup (ies : list IndexEntry) :
  forall (m : gmap string Z) (i : nat) (ie : IndexEntry),
    NoDup (map IKey ies) -> ies !! i = Some ie ->
    index_of ies m !! IKey ie = Some (Offset ie).
Proof.
  induction ies as [|ie0 ies IH]; intros m i ie Hnd Hi.
  - rewrite lookup_nil in Hi. discriminate.
  - cbn [map] in Hnd. apply NoDup_cons in Hnd as [Hnotin Hnd].
    destruct i as [|i]; simpl in Hi.
    + injection Hi as ->. unfold index_of. cbn [fold_left].
      fold (index_of ies (<[IKey ie := Offset ie]> m)).
      rewrite index_of_lookup_other by exact Hnotin.
      apply lookup_insert_eq.
    + unfold index_of. cbn [fold_left]. apply (IH _ i); assumption.
Qed.

Lemma index_from_keys (entries : list Entry) :
  forall offset, map IKey (index_from offset entries) = map Key entries.
Proof.
  induction entries as [|e r IH]; intros offset; simpl; [|rewrite IH]; reflexivity.
Qed.

Lemma index_from_length (entries : list Entry) :
  forall offset, List.length (index_from offset entries) = List.length entries.
Proof.
  induction entries as [|e r IH]; intros offset; simpl; [|rewrite IH]; reflexivity.
Qed.

Lemma index_from_lookup (entries : list Entry) :
  forall (offset : Z) (i : nat) (e : Entry),
    entries !! i = Some e ->
    index_from offset entries !! i
    = Some (mkIndexEntry (Key e) (offset + total_size (take i entries))).
Proof.
  induction entries as [|e0 r IH]; intros offset i e Hi.
  - rewrite lookup_nil in Hi. discriminate.
  - destruct i as [|i]; simpl in Hi.
    + injection Hi as ->. simpl. rewrite Z.add_0_r. reflexivity.
    + simpl. rewrite (IH _ i e Hi), Z.add_assoc. reflexivity.
Qed.

Lemma total_size_take_le (entries : list Entry) (i : nat) :
  0 <= total_size (take i entries) <= total_size entries.
Proof.
  revert i. induction entries as [|e r IH]; intros i.
  - rewrite take_nil. cbn [total_size]. lia.
  - pose proof (encoded_size_pos e). pose proof (total_size_nonneg r).
    destruct i as [|i]; cbn [firstn total_size]; [lia|].
    specialize (IH i). lia.
Qed.

Lemma index_from_ok (entries : list Entry) :
  forall offset,
    Forall encodable entries -> 0 <= offset ->
    offset + total_size entries < 2 ^ 63 ->
    Forall index_ok (index_from offset entries).
Proof.
  induction entries as [|e r IH]; intros offset Hall H0 Hmax; [constructor|].
  apply Forall_cons in Hall as [(Hk & _ & _) Hall]. cbn [total_size] in Hmax.
  pose proof (encoded_size_pos e). pose proof (total_size_nonneg r).
  cbn [index_from]. constructor.
  - split; cbn [IKey Offset]; [exact Hk | lia].
  - apply IH; [exact Hall | lia | lia].
Qed.

Lemma len_entry_region (entries : list Entry) :
  len_bytes (entry_region entries) = total_size entries.
Proof.
  unfold entry_region. induction entries as [|e r IH]; [reflexivity|].
  cbn [map concat total_size]. rewrite len_bytes_app, len_encode_entry, IH.
  reflexivity.
Qed.

Lemma entry_region_split (entries : list Entry) (i : nat) (e : Entry) :
  entries !! i = Some e ->
  entry_region entries
  = entry_region (take i entries) ++ encode_entry e
      ++ entry_region (drop (S i) entries).
Proof.
  intros Hi. rewrite <- (take_drop_middle entries i e Hi) at 1.
  unfold entry_region. rewrite map_app, concat_app. reflexivity.
Qed.

Lemma keeps_ret {A} (a : A) : keeps_contents (ret a).
Proof. intros f. reflexivity. Qed.

Lemma keeps_fail {A} (msg : string) : keeps_contents (@fail OpenFile A msg).
Proof. intros f. reflexivity. Qed.

Lemma keeps_bind {A B} (m : Reader A) (k : A -> Reader B) :
  keeps_contents m -> (forall a, keeps_contents (k a)) ->
  keeps_contents (bind m k).
Proof.
  intros Hm Hk f. unfold bind. specialize (Hm f).
  destruct (m f) as [[a|e] f1]; cbn [snd] in *; [|exact Hm].
  rewrite Hk. exact Hm.
Qed.

Lemma keeps_orErrorf {A} (m : Reader A) (ctx : string) :
  keeps_contents m -> keeps_contents (orErrorf m ctx).
Proof.
  intros Hm f. unfold orErrorf. specialize (Hm f).
  destruct (m f) as [r f1]. exact Hm.
Qed.

Lemma keeps_io_ReadFull (n : Z) : keeps_contents (io_ReadFull n).
Proof.
  intros f. unfold io_ReadFull. cbv zeta.
  repeat match goal with
         | |- context [if ?c then _ else _] => destruct c
         end; reflexivity.
Qed.

Lemma keeps_file_Seek (offset : Z) : keeps_contents (file_Seek offset).
Proof. intros f. unfold file_Seek. destruct (offset <? 0); reflexivity. Qed.

Lemma ReadFooter_contents : keeps_contents ReadFooter.
Proof.
  unfold ReadFooter. apply keeps_bind; [intros f; reflexivity|]. intros fileSize.
  destruct (fileSize <? 20); [apply keeps_fail|].
  repeat (apply keeps_bind;
          [apply keeps_orErrorf;
           first [apply keeps_file_Seek
                 | apply keeps_bind; [apply keeps_io_ReadFull | intros; apply keeps_ret]]
          | intros ?]).
  match goal with
  | |- context [if ?c then _ else _] => destruct c
  end; [apply keeps_fail | apply keeps_ret].
Qed.

Lemma footer_bytes_app (body a b c : list byte) (from size : Z) :
  from = len_bytes (b ++ c) -> size = len_bytes b ->
  footer_bytes (body ++ a ++ b ++ c) from size = b.
Proof.
  intros -> ->. unfold footer_bytes.
  replace (body ++ a ++ b ++ c) with ((body ++ a) ++ b ++ c)
    by (rewrite <- app_assoc; reflexivity).
  rewrite len_bytes_app.
  replace (len_bytes (body ++ a) + len_bytes (b ++ c) - len_bytes (b ++ c))
    with (len_bytes (body ++ a)) by lia.
  unfold len_bytes. rewrite !Nat2Z.id, drop_app_length, take_app_length.
  reflexivity.
Qed.

Lemma len_footer_region (entries : list Entry) :
  len_bytes (footer_region entries) = 20.
Proof.
  unfold footer_region. rewrite !len_bytes_app, !len_bytes_le_bytes. reflexivity.
Qed.

(** Reader and writer agree on the entry region and on the index.  Let a
    file hold what [CreateSSTable] writes for [entries], completed by the
    version and the magic number as the reader expects them.  If the keys
    are distinct and every entry fits the fields of the format, then
    [OpenSSTable] accepts the file; for every entry, the index of the
    reader holds under its key the offset that [WriteEntries] recorded for
    it, and [ReadEntryAtOffset] at that offset gives the entry back, key,
    value, timestamp and deleted flag. *)
Theorem sstable_file_round_trip (path : string) (fs : FileSystem)
    (entries : list Entry)
    (Hfile : fs !! path = Some (sstable_file entries))
    (Hkeys : NoDup (map Key entries))
    (Hsmall : Forall encodable entries)
    (Hcount : Z.of_nat (List.length entries) < 2 ^ 32)
    (Hsize : total_size entries < 2 ^ 63) :
  exists sst : SSTable.t,
    OpenSSTable path fs = Ok sst /\
    SSTable.file sst = sstable_file entries /\
    forall (i : nat) (e : Entry),
      entries !! i = Some e ->
      exists ie : IndexEntry,
        fst (WriteEntries entries [])
        = Ok (index_from 0 entries, total_size entries) /\
        index_from 0 entries !! i = Some ie /\
        IKey ie = Key e /\
        SSTable.index sst !! Key e = Some (Offset ie) /\
        ReadEntryAtOffset (SSTable.file sst) (Offset ie) = Ok e.
Proof.
  pose proof (sstable_file_layout entries Hsmall Hsize) as Hlayout.
  pose proof (total_size_nonneg entries) as Hsize0.
  pose proof (len_entry_region entries) as HlenE.
  pose proof (len_footer_region entries) as HlenF.
  set (file := sstable_file entries) in *.
  assert (20 <= len_bytes file) as Hlen.
  { rewrite Hlayout, !len_bytes_app, HlenF.
    pose proof (len_bytes_nonneg (entry_region entries)).
    pose proof (len_bytes_nonneg (index_region entries)). lia. }
  assert (footer_magic file = MagicNumber) as Hmagic.
  { unfold footer_magic. rewrite Hlayout. unfold footer_region.
    replace (entry_region entries ++ index_region entries ++
             le_bytes 8 (uint64 (len_bytes (entry_region entries))) ++
             le_bytes 4 (uint32 (int64 (Z.of_nat (List.length entries)))) ++
             le_bytes 4 Version ++ le_bytes 4 MagicNumber)
      with (entry_region entries
            ++ (index_region entries ++
                le_bytes 8 (uint64 (len_bytes (entry_region entries))) ++
                le_bytes 4 (uint32 (int64 (Z.of_nat (List.length entries)))) ++
                le_bytes 4 Version)
            ++ le_bytes 4 MagicNumber ++ [])
      by (rewrite <- !app_assoc, app_nil_r; reflexivity).
    rewrite footer_bytes_app by reflexivity. reflexivity. }
  assert (footer_index_start file = total_size entries) as Hstart.
  { unfold footer_index_start. rewrite Hlayout. unfold footer_region.
    rewrite footer_bytes_app
      by (rewrite ?len_bytes_app, ?len_bytes_le_bytes; reflexivity).
    rewrite le_value_le_bytes. unfold uint64. change (8 * Z.of_nat 8) with 64.
    rewrite Z.mod_mod by lia. rewrite int64_of_uint64; lia. }
  assert (footer_entries file = Z.of_nat (List.length entries)) as Hn.
  { unfold footer_entries. rewrite Hlayout. unfold footer_region.
    replace (entry_region entries ++ index_region entries ++
             le_bytes 8 (uint64 (len_bytes (entry_region entries))) ++
             le_bytes 4 (uint32 (int64 (Z.of_nat (List.length entries)))) ++
             le_bytes 4 Version ++ le_bytes 4 MagicNumber)
      with (entry_region entries
            ++ (index_region entries ++
                le_bytes 8 (uint64 (len_bytes (entry_region entries))))
            ++ le_bytes 4 (uint32 (int64 (Z.of_nat (List.length entries))))
            ++ (le_bytes 4 Version ++ le_bytes 4 MagicNumber))
      by (rewrite <- !app_assoc; reflexivity).
    rewrite footer_bytes_app
      by (rewrite ?len_bytes_app, ?len_bytes_le_bytes; reflexivity).
    rewrite le_value_le_bytes. unfold uint32. change (8 * Z.of_nat 4) with 32.
    rewrite Z.mod_mod by lia. rewrite int64_in_range by lia.
    apply Z.mod_small. lia. }
  (* opening *)
  unfold OpenSSTable. rewrite Hfile. fold file.
  unfold OpenSSTable_body. unfold bind at 1, orErrorf at 1.
  pose proof (ReadFooter_large_enough file 0 Hlen) as Hfooter.
  pose proof (ReadFooter_contents (mkOpenFile file 0)) as Hcont.
  destruct (ReadFooter (mkOpenFile file 0)) as [r f1].
  cbn [fst snd contents] in Hfooter, Hcont.
  rewrite Hmagic, Z.eqb_refl in Hfooter. subst r. cbn [Errorf].
  unfold bind at 1, orErrorf at 1, ReadIndex.
  unfold bind at 1, orErrorf at 1, file_Seek.
  cbn [SSTableFooter.IndexStartOffset SSTableFooter.NumberOfEntries].
  rewrite Hstart, Hn, Hcont.
  destruct (Z.ltb_spec (total_size entries) 0) as [Hneg | _]; [lia|].
  cbn [Errorf].
  rewrite Nat2Z.id, <- (index_from_length entries 0).
  destruct (ReadIndex_loop_decodes (index_from 0 entries) ∅
              (mkOpenFile file (total_size entries)) (footer_region entries))
    as (f2 & ->).
  { cbn [cursor]. lia. }
  { unfold remaining. cbn [cursor contents]. rewrite Hlayout.
    apply drop_app_length'. rewrite <- HlenE. unfold len_bytes.
    rewrite Nat2Z.id. reflexivity. }
  { apply index_from_ok; [exact Hsmall | lia | lia]. }
  cbn [Errorf ret fst].
  eexists. split; [reflexivity|]. split; [reflexivity|].
  intros i e Hi. cbn [SSTable.index SSTable.file].
  exists (mkIndexEntry (Key e) (0 + total_size (take i entries))).
  cbn [IKey Offset].
  split.
  { unfold WriteEntries.
    rewrite (WriteEntries_loop_encodes entries [] 0 []) by (try assumption; lia).
    reflexivity. }
  split; [apply index_from_lookup; exact Hi|].
  split; [reflexivity|]. split.
  - apply (index_of_lookup (index_from 0 entries) ∅ i
             (mkIndexEntry (Key e) (0 + total_size (take i entries)))).
    + rewrite index_from_keys. exact Hkeys.
    + apply index_from_lookup. exact Hi.
  - pose proof (total_size_take_le entries i) as Hoff.
    apply (ReadEntryAtOffset_decodes file _ e
             (entry_region (drop (S i) entries) ++ index_region entries
                ++ footer_region entries)).
    + lia.
    + rewrite Hlayout, (entry_region_split entries i e Hi), <- !app_assoc.
      apply drop_app_length'. rewrite Z.add_0_l, <- len_entry_region.
      unfold len_bytes. rewrite Nat2Z.id. reflexivity.
    + rewrite Forall_forall in Hsmall. apply Hsmall.
      eapply list_elem_of_lookup_2. exact Hi.
Qed.

(** A lookup in the opened table follows: the value of a live entry, and
    nothing for a tombstone. *)
Corollary sstable_file_Get (path : string) (fs : FileSystem)
    (entries : list Entry) (e : Entry)
    (Hfile : fs !! path = Some (sstable_file entries))
    (Hkeys : NoDup (map Key entries))
    (Hsmall : Forall encodable entries)
    (Hcount : Z.of_nat (List.length entries) < 2 ^ 32)
    (Hsize : total_size entries < 2 ^ 63)
    (Hin : e ∈ entries) :
  exists sst : SSTable.t,
    OpenSSTable path fs = Ok sst /\
    SSTable.Get sst (Key e)
    = Ok (if Deleted e then None else Some (Value e)).
Proof.
  destruct (sstable_file_round_trip path fs entries Hfile Hkeys Hsmall Hcount
              Hsize) as (sst & Hopen & _ & Hall).
  apply list_elem_of_lookup_1 in Hin as [i Hi].
  destruct (Hall i e Hi) as (ie & _ & _ & _ & Hindex & Hread).
  exists sst. split; [exact Hopen|].
  unfold SSTable.Get. rewrite Hindex, Hread, String.eqb_refl. cbn [negb].
  destruct (Deleted e); reflexivity.
Qed.

(** The round trip on a file of two entries, the second a tombstone. *)
Example sstable_file_Get_example :
  exists sst : SSTable.t,
    OpenSSTable "data/sstable-0.db"
      {[ "data/sstable-0.db" :=
           sstable_file [mkEntry "a" [x31] 1 false; mkEntry "b" [] 2 true] ]}
    = Ok sst /\
    SSTable.Get sst "a" = Ok (Some [x31]).
Proof.
  apply (sstable_file_Get "data/sstable-0.db"
           {[ "data/sstable-0.db" :=
                sstable_file [mkEntry "a" [x31] 1 false; mkEntry "b" [] 2 true] ]}
           [mkEntry "a" [x31] 1 false; mkEntry "b" [] 2 true]
           (mkEntry "a" [x31] 1 false)).
  - vm_compute. reflexivity.
  - apply NoDup_cons. split; [|apply NoDup_singleton].
    intros Hin. apply list_elem_of_singleton in Hin. discriminate.
  - repeat constructor; vm_compute; congruence.
  - vm_compute. reflexivity.
  - vm_compute. reflexivity.
  - apply elem_of_cons. left. reflexivity.
Qed.

(** * Further properties of the code *)

(** ** The MemTable: lookups, sizes and the seal *)

Lemma search_finds (es : list Entry) (k : string) (i : nat) (e : Entry) :
  sorted_unique es -> es !! i = Some e -> Key e = k ->
  MemTable.search es k = i.
Proof.
  intros Hs Hi Hk. destruct (search_spec es k Hs) as (Hle & Hlo & Hhi).
  destruct (Nat.lt_trichotomy i (MemTable.search es k)) as [Hlt | [Heq | Hgt]].
  - exfalso. apply (key_lt_irrefl k). rewrite <- Hk at 1. apply (Hlo i e Hlt Hi).
  - symmetry. exact Heq.
  - exfalso. assert (i < List.length es)%nat as Hlen by (eapply lookup_lt_Some; eassumption).
    destruct (lookup_lt_is_Some_2 es (MemTable.search es k)) as [e0 He0]; [lia|].
    apply (key_lt_irrefl k). eapply leb_lt_trans.
    + apply (Hhi (MemTable.search es k) e0 (Nat.le_refl _) He0).
    + rewrite <- Hk.
      apply (StronglySorted_lookup_lt key_lt (keys es) Hs (MemTable.search es k) i);
        [exact Hgt | |];
        rewrite lookup_keys; [rewrite He0 | rewrite Hi]; reflexivity.
Qed.

(** The entry that holds [k], if any, is the one at the position of the
    search. *)
Lemma search_hit_or_absent (es : list Entry) (k : string) :
  sorted_unique es ->
  (exists e, es !! MemTable.search es k = Some e /\ Key e = k /\
             forall e', e' ∈ es -> Key e' = k -> e' = e) \/
  ((forall e', e' ∈ es -> Key e' <> k) /\
   forall e, es !! MemTable.search es k = Some e -> Key e <> k).
Proof.
  intros Hs.
  destruct (es !! MemTable.search es k) as [e|] eqn:He.
  - destruct (String.eqb_spec (Key e) k) as [Heq | Hne].
    + left. exists e. split; [reflexivity|]. split; [exact Heq|].
      intros e' Hin Hk'. apply list_elem_of_lookup_1 in Hin as [i Hi].
      rewrite <- (search_finds es k i e' Hs Hi Hk') in Hi. congruence.
    + right. split.
      * intros e' Hin Hk'. apply list_elem_of_lookup_1 in Hin as [i Hi].
        rewrite <- (search_finds es k i e' Hs Hi Hk') in Hi. congruence.
      * intros e0 [= <-]. exact Hne.
  - right. split.
    + intros e' Hin Hk'. apply list_elem_of_lookup_1 in Hin as [i Hi].
      rewrite <- (search_finds es k i e' Hs Hi Hk') in Hi. congruence.
    + intros e0 H0. discriminate.
Qed.

Lemma Get_Some_iff (mt : MemTable.t) (k : string) (v : list byte) :
  sorted_unique (MemTable.entries mt) ->
  MemTable.Get mt k = Some v <->
  exists e, e ∈ MemTable.entries mt /\ Key e = k /\ Deleted e = false /\ Value e = v.
Proof.
  intros Hs. unfold MemTable.Get.
  destruct (search_hit_or_absent (MemTable.entries mt) k Hs)
    as [(e & He & Hk & Huniq) | [Habs Hmiss]].
  - rewrite He. rewrite <- Hk at 1. rewrite String.eqb_refl. split.
    + intros Hget. exists e. split; [eapply list_elem_of_lookup_2; eassumption|].
      split; [exact Hk|]. destruct (Deleted e); [discriminate|].
      split; [reflexivity | congruence].
    + intros (e' & Hin & Hk' & Hd & Hv). rewrite (Huniq e' Hin Hk') in Hd, Hv.
      rewrite Hd. congruence.
  - split.
    + intros Hget.
      destruct (MemTable.entries mt !! MemTable.search (MemTable.entries mt) k)
        as [e|] eqn:He; [|discriminate].
      destruct (String.eqb_spec (Key e) k) as [Heq | Hne]; [|discriminate].
      exfalso. apply (Hmiss e); [reflexivity | exact Heq].
    + intros (e' & Hin & Hk' & _). exfalso. apply (Habs e' Hin Hk').
Qed.

Lemma Set_entries (mt : MemTable.t) (k : string) (v : list byte) (now : Z) :
  MemTable.immutable mt = false ->
  MemTable.entries (snd (MemTable.Set_ mt k v now))
  = written (MemTable.entries mt) k (fun e => mkEntry (Key e) v now false)
      (mkEntry k v now false).
Proof.
  intros Him. unfold MemTable.Set_, written. rewrite Him.
  destruct (MemTable.entries mt !! MemTable.search (MemTable.entries mt) k)
    as [e|]; [destruct (String.eqb (Key e) k)|]; reflexivity.
Qed.

Lemma Delete_entries (mt : MemTable.t) (k : string) (now : Z) :
  MemTable.immutable mt = false ->
  MemTable.entries (snd (MemTable.Delete mt k now))
  = written (MemTable.entries mt) k
      (fun e => mkEntry (Key e) (Value e) now true) (mkEntry k [] now true).
Proof.
  intros Him. unfold MemTable.Delete, written. rewrite Him.
  destruct (MemTable.entries mt !! MemTable.search (MemTable.entries mt) k)
    as [e|]; [destruct (String.eqb (Key e) k)|]; reflexivity.
Qed.

Lemma written_elem (es : list Entry) (k : string) (upd : Entry -> Entry)
    (fresh : Entry) :
  sorted_unique es ->
  exists ne : Entry,
    (ne = fresh \/ exists e0, e0 ∈ es /\ Key e0 = k /\ ne = upd e0) /\
    forall e', e' ∈ written es k upd fresh <->
               e' = ne \/ (e' ∈ es /\ Key e' <> k).
Proof.
  intros Hs. unfold written.
  destruct (search_hit_or_absent es k Hs)
    as [(e & He & Hk & Huniq) | [Habs Hmiss]].
  - rewrite He.
    destruct (String.eqb_spec (Key e) k) as [_ | Hne]; [|contradiction].
    exists (upd e). split.
    { right. exists e. split; [eapply list_elem_of_lookup_2; eassumption|].
      split; [exact Hk | reflexivity]. }
    intros e'.
    assert (MemTable.search es k < List.length es)%nat as Hlt
      by (eapply lookup_lt_Some; eassumption).
    assert (forall x, x ∈ es <->
              x ∈ take (MemTable.search es k) es \/ x = e \/
              x ∈ drop (S (MemTable.search es k)) es) as Hes.
    { intros x. rewrite <- (take_drop_middle es _ e He) at 1.
      rewrite elem_of_app, elem_of_cons. reflexivity. }
    assert (forall x, x ∈ take (MemTable.search es k) es -> Key x <> k) as Htake.
    { intros x Hx Hxk. apply elem_of_take in Hx as (j & Hj & Hjlt).
      pose proof (search_finds es k j x Hs Hj Hxk). lia. }
    assert (forall x, x ∈ drop (S (MemTable.search es k)) es -> Key x <> k) as Hdrop.
    { intros x Hx Hxk. apply list_elem_of_lookup_1 in Hx as [j Hj].
      rewrite lookup_drop in Hj.
      pose proof (search_finds es k _ x Hs Hj Hxk). lia. }
    rewrite (insert_take_drop es _ (upd e) Hlt), elem_of_app, elem_of_cons, Hes.
    split.
    + intros [Hx | [-> | Hx]]; [right | left | right]; try reflexivity.
      * split; [left; exact Hx | apply Htake; exact Hx].
      * split; [right; right; exact Hx | apply Hdrop; exact Hx].
    + intros [-> | [[Hx | [-> | Hx]] Hne]]; auto. contradiction.
  - exists fresh. split; [left; reflexivity|].
    intros e'.
    assert (e' ∈ MemTable.insert_at (MemTable.search es k) fresh es <->
            e' = fresh \/ e' ∈ es) as Hins.
    { unfold MemTable.insert_at.
      assert (e' ∈ es <-> e' ∈ take (MemTable.search es k) es \/
                          e' ∈ drop (MemTable.search es k) es) as ->.
      { rewrite <- (take_drop (MemTable.search es k) es) at 1.
        apply elem_of_app. }
      rewrite elem_of_app, elem_of_cons. tauto. }
    assert (e' ∈ match es !! MemTable.search es k with
                 | Some e =>
                     if String.eqb (Key e) k
                     then <[MemTable.search es k := upd e]> es
                     else MemTable.insert_at (MemTable.search es k) fresh es
                 | None => MemTable.insert_at (MemTable.search es k) fresh es
                 end <-> e' = fresh \/ e' ∈ es) as ->.
    { destruct (es !! MemTable.search es k) as [e|] eqn:He; [|apply Hins].
      destruct (String.eqb_spec (Key e) k) as [Heq | _]; [|apply Hins].
      exfalso. apply (Hmiss e); [reflexivity | exact Heq]. }
    split.
    + intros [-> | Hx]; [left; reflexivity | right; split; [exact Hx | apply Habs; exact Hx]].
    + intros [-> | [Hx _]]; auto.
Qed.

Lemma option_ext {A} (a b : option A) :
  (forall v, a = Some v <-> b = Some v) -> a = b.
Proof.
  intros H. destruct a as [x|], b as [y|]; try reflexivity.
  - symmetry. apply (H x). reflexivity.
  - pose proof (proj1 (H x) eq_refl). discriminate.
  - pose proof (proj2 (H y) eq_refl). discriminate.
Qed.

Lemma Get_Set (mt : MemTable.t) (k k' : string) (v : list byte) (now : Z) :
  sorted_unique (MemTable.entries mt) -> MemTable.immutable mt = false ->
  MemTable.Get (snd (MemTable.Set_ mt k v now)) k'
  = if String.eqb k k' then Some v else MemTable.Get mt k'.
Proof.
  intros Hs Him.
  pose proof (Set_sorted mt k v now Hs) as Hs'.
  pose proof (Set_entries mt k v now Him) as Hent.
  destruct (written_elem (MemTable.entries mt) k
              (fun e => mkEntry (Key e) v now false) (mkEntry k v now false) Hs)
    as (ne & Hne & Helem).
  rewrite <- Hent in Helem.
  assert (Key ne = k /\ Deleted ne = false /\ Value ne = v) as (Hk & Hd & Hv).
  { destruct Hne as [-> | (e0 & _ & Hk0 & ->)]; simpl; auto. }
  destruct (String.eqb_spec k k') as [<- | Hkk].
  - apply Get_Some_iff; [exact Hs'|]. exists ne.
    split; [apply Helem; left; reflexivity | auto].
  - apply option_ext. intros v'. rewrite !Get_Some_iff by assumption. split.
    + intros (e & Hin & Hke & Hde & Hve). apply Helem in Hin as [-> | [Hin _]].
      * congruence.
      * exists e. auto.
    + intros (e & Hin & Hke & Hde & Hve). exists e.
      split; [|auto]. apply Helem. right. split; [exact Hin | congruence].
Qed.

Lemma Get_Delete (mt : MemTable.t) (k k' : string) (now : Z) :
  sorted_unique (MemTable.entries mt) -> MemTable.immutable mt = false ->
  MemTable.Get (snd (MemTable.Delete mt k now)) k'
  = if String.eqb k k' then None else MemTable.Get mt k'.
Proof.
  intros Hs Him.
  pose proof (Delete_sorted mt k now Hs) as Hs'.
  pose proof (Delete_entries mt k now Him) as Hent.
  destruct (written_elem (MemTable.entries mt) k
              (fun e => mkEntry (Key e) (Value e) now true)
              (mkEntry k [] now true) Hs)
    as (ne & Hne & Helem).
  rewrite <- Hent in Helem.
  assert (Deleted ne = true) as Hd.
  { destruct Hne as [-> | (e0 & _ & _ & ->)]; reflexivity. }
  destruct (String.eqb_spec k k') as [<- | Hkk].
  - apply option_ext. intros v'. rewrite Get_Some_iff by exact Hs'. split.
    + intros (e & Hin & Hke & Hde & Hve). apply Helem in Hin as [-> | [_ Hn]];
        congruence.
    + discriminate.
  - apply option_ext. intros v'. rewrite !Get_Some_iff by assumption. split.
    + intros (e & Hin & Hke & Hde & Hve). apply Helem in Hin as [-> | [Hin _]].
      * congruence.
      * exists e. auto.
    + intros (e & Hin & Hke & Hde & Hve). exists e.
      split; [|auto]. apply Helem. right. split; [exact Hin | congruence].
Qed.

Lemma sealed_apply (mt : MemTable.t) (o : MemTable.op) :
  MemTable.immutable mt = true ->
  MemTable.apply mt o = mt \/ MemTable.apply mt o = MemTable.MakeImmutable mt.
Proof.
  intros Him. destruct o; simpl.
  - left. unfold MemTable.Set_. rewrite Him. reflexivity.
  - left. unfold MemTable.Delete. rewrite Him. reflexivity.
  - right. reflexivity.
Qed.

Lemma MakeImmutable_sealed (mt : MemTable.t) :
  MemTable.immutable mt = true -> MemTable.MakeImmutable mt = mt.
Proof. intros Him. destruct mt as [es sz mx im]. simpl in *. subst. reflexivity. Qed.

Lemma sealed_fold (ops : list MemTable.op) (mt : MemTable.t) :
  MemTable.immutable mt = true -> fold_left MemTable.apply ops mt = mt.
Proof.
  intros Him. induction ops as [|o ops IH]; [reflexivity|]. simpl.
  destruct (sealed_apply mt o Him) as [-> | ->]; [exact IH|].
  rewrite MakeImmutable_sealed by exact Him. exact IH.
Qed.

Lemma Set_immutable_flag (mt : MemTable.t) (k : string) (v : list byte) (now : Z) :
  MemTable.immutable (snd (MemTable.Set_ mt k v now)) = MemTable.immutable mt.
Proof.
  unfold MemTable.Set_. destruct (MemTable.immutable mt) eqn:Him; [exact Him|].
  destruct (MemTable.entries mt !! MemTable.search (MemTable.entries mt) k)
    as [e|]; [destruct (String.eqb (Key e) k)|]; reflexivity.
Qed.

Lemma Delete_immutable_flag (mt : MemTable.t) (k : string) (now : Z) :
  MemTable.immutable (snd (MemTable.Delete mt k now)) = MemTable.immutable mt.
Proof.
  unfold MemTable.Delete. destruct (MemTable.immutable mt) eqn:Him; [exact Him|].
  destruct (MemTable.entries mt !! MemTable.search (MemTable.entries mt) k)
    as [e|]; [destruct (String.eqb (Key e) k)|]; reflexivity.
Qed.

Lemma Get_fold_last_write (ops : list MemTable.op) (key : string) :
  forall mt : MemTable.t,
    sorted_unique (MemTable.entries mt) ->
    MemTable.Get (fold_left MemTable.apply ops mt) key
    = last_write ops (MemTable.immutable mt) (MemTable.Get mt key) key.
Proof.
  induction ops as [|o ops IH]; intros mt Hs; [reflexivity|].
  cbn [last_write]. destruct (MemTable.immutable mt) eqn:Him.
  - rewrite (sealed_fold (o :: ops) mt Him). reflexivity.
  - cbn [fold_left]. destruct o as [k v now | k now |].
    + cbn [MemTable.apply]. rewrite IH by (apply Set_sorted; exact Hs).
      rewrite Set_immutable_flag, Him, Get_Set by assumption. reflexivity.
    + cbn [MemTable.apply]. rewrite IH by (apply Delete_sorted; exact Hs).
      rewrite Delete_immutable_flag, Him, Get_Delete by assumption. reflexivity.
    + cbn [MemTable.apply]. rewrite sealed_fold by reflexivity. reflexivity.
Qed.

(** X1.  Whatever sequence of [Set], [Delete] and [MakeImmutable] calls is
    applied to a fresh MemTable, [Get] answers for every key with the value
    of the last [Set] of that key that was made before the table was sealed,
    and with nothing when a [Delete] of the key came after that [Set] or the
    key was never set. *)
Theorem MemTable_Get_returns_last_write (maxSize : Z) (ops : list MemTable.op)
    (key : string) :
  MemTable.Get (MemTable.run maxSize ops) key = last_write ops false None key.
Proof.
  unfold MemTable.run. rewrite Get_fold_last_write by constructor. reflexivity.
Qed.

(** X3.  A sealed MemTable stays as it is under every sequence of
    operations, and [Set] and [Delete] on it return [ErrMemTableImmutable]
    without touching it. *)
Theorem MemTable_sealed_rejects_writes (mt : MemTable.t)
    (ops : list MemTable.op) (key : string) (value : list byte) (now : Z) :
  fold_left MemTable.apply ops (MemTable.MakeImmutable mt)
  = MemTable.MakeImmutable mt /\
  MemTable.Set_ (MemTable.MakeImmutable mt) key value now
  = (Err ErrMemTableImmutable, MemTable.MakeImmutable mt) /\
  MemTable.Delete (MemTable.MakeImmutable mt) key now
  = (Err ErrMemTableImmutable, MemTable.MakeImmutable mt).
Proof.
  split; [apply sealed_fold; reflexivity|]. split; reflexivity.
Qed.

Lemma int64_add_l (a b : Z) : int64 (int64 a + b) = int64 (a + b).
Proof.
  unfold int64. f_equal.
  replace ((a + 2 ^ 63) mod 2 ^ 64 - 2 ^ 63 + b + 2 ^ 63)
    with ((a + 2 ^ 63) mod 2 ^ 64 + b) by lia.
  rewrite Zplus_mod_idemp_l. f_equal. lia.
Qed.

Lemma int64_add_r (a b : Z) : int64 (a + int64 b) = int64 (a + b).
Proof. rewrite Z.add_comm, int64_add_l. f_equal. lia. Qed.

Lemma int64_sub_l (a b : Z) : int64 (int64 a - b) = int64 (a - b).
Proof. unfold Z.sub. apply int64_add_l. Qed.

Lemma sum_mem_size_app (l1 l2 : list Entry) :
  sum_mem_size (l1 ++ l2) = sum_mem_size l1 + sum_mem_size l2.
Proof.
  unfold sum_mem_size. induction l1 as [|e l1 IH]; simpl; [reflexivity|].
  rewrite IH. lia.
Qed.

Lemma sum_mem_size_cons (e : Entry) (l : list Entry) :
  sum_mem_size (e :: l) = mem_size e + sum_mem_size l.
Proof. reflexivity. Qed.

Lemma sum_mem_size_insert_at (es : list Entry) (idx : nat) (e : Entry) :
  sum_mem_size (MemTable.insert_at idx e es) = sum_mem_size es + mem_size e.
Proof.
  unfold MemTable.insert_at. rewrite <- (take_drop idx es) at 3.
  rewrite !sum_mem_size_app, sum_mem_size_cons. lia.
Qed.

Lemma sum_mem_size_update (es : list Entry) (idx : nat) (e0 e : Entry) :
  es !! idx = Some e0 ->
  sum_mem_size (<[idx := e]> es) = sum_mem_size es - mem_size e0 + mem_size e.
Proof.
  intros He0.
  assert (idx < List.length es)%nat as Hlt by (eapply lookup_lt_Some; eassumption).
  rewrite (insert_take_drop es idx e Hlt).
  rewrite <- (take_drop_middle es idx e0 He0) at 3.
  rewrite !sum_mem_size_app, !sum_mem_size_cons. lia.
Qed.

Lemma Set_size_ok (mt : MemTable.t) (k : string) (v : list byte) (now : Z) :
  size_ok mt -> size_ok (snd (MemTable.Set_ mt k v now)).
Proof.
  unfold size_ok, MemTable.Set_. intros Hok.
  destruct (MemTable.immutable mt); [exact Hok|].
  destruct (MemTable.entries mt !! MemTable.search (MemTable.entries mt) k)
    as [e|] eqn:He; [destruct (String.eqb_spec (Key e) k) as [Hk | _]|];
    cbn [snd MemTable.sizeBytes MemTable.entries].
  - rewrite (sum_mem_size_update _ _ e _ He), Hok.
    rewrite int64_sub_l, int64_add_l. f_equal. unfold mem_size. simpl. lia.
  - rewrite sum_mem_size_insert_at, Hok, int64_add_l, int64_add_r.
    f_equal.
  - rewrite sum_mem_size_insert_at, Hok, int64_add_l, int64_add_r.
    f_equal.
Qed.

Lemma Delete_size_ok (mt : MemTable.t) (k : string) (now : Z) :
  size_ok mt -> size_ok (snd (MemTable.Delete mt k now)).
Proof.
  unfold size_ok, MemTable.Delete. intros Hok.
  destruct (MemTable.immutable mt); [exact Hok|].
  destruct (MemTable.entries mt !! MemTable.search (MemTable.entries mt) k)
    as [e|] eqn:He; [destruct (String.eqb_spec (Key e) k) as [Hk | _]|];
    cbn [snd MemTable.sizeBytes MemTable.entries].
  - rewrite (sum_mem_size_update _ _ e _ He), Hok.
    f_equal. unfold mem_size. simpl. lia.
  - rewrite sum_mem_size_insert_at, Hok, int64_add_l, int64_add_r.
    f_equal. unfold mem_size, len_bytes. simpl. lia.
  - rewrite sum_mem_size_insert_at, Hok, int64_add_l, int64_add_r.
    f_equal. unfold mem_size, len_bytes. simpl. lia.
Qed.

Lemma fold_size_ok (ops : list MemTable.op) (mt : MemTable.t) :
  size_ok mt -> size_ok (fold_left MemTable.apply ops mt).
Proof.
  revert mt. induction ops as [|o ops IH]; intros mt Hok; [exact Hok|].
  simpl. apply IH. destruct o; simpl;
    [apply Set_size_ok | apply Delete_size_ok |]; exact Hok.
Qed.

(** X2.  The size that a MemTable reports is, after every sequence of
    operations, the sum over its entries of key length, value length and 24,
    in [int64] arithmetic: an overwrite exchanges the old value length for
    the new one, and a [Delete] of a present key changes nothing, as the
    tombstone keeps the value. *)
Theorem MemTable_Size_is_sum_of_entries (maxSize : Z) (ops : list MemTable.op) :
  MemTable.Size (MemTable.run maxSize ops)
  = int64 (sum_mem_size (MemTable.GetAllEntries (MemTable.run maxSize ops))).
Proof.
  apply (fold_size_ok ops (MemTable.NewMemTable maxSize)). reflexivity.
Qed.

(** X4.  [Set] on an open MemTable returns no error, and afterwards the
    table holds the entry of the call (key, value, clock reading, not
    deleted) and, besides it, exactly the entries it held under other
    keys. *)
Theorem MemTable_Set_replaces_entry (mt : MemTable.t) (key : string)
    (value : list byte) (now : Z)
    (Hsorted : sorted_unique (MemTable.entries mt))
    (Hopen : MemTable.immutable mt = false) :
  fst (MemTable.Set_ mt key value now) = Ok tt /\
  forall e : Entry,
    e ∈ MemTable.GetAllEntries (snd (MemTable.Set_ mt key value now)) <->
    e = mkEntry key value now false \/
    (e ∈ MemTable.GetAllEntries mt /\ Key e <> key).
Proof.
  split.
  { unfold MemTable.Set_. rewrite Hopen.
    destruct (MemTable.entries mt !! MemTable.search (MemTable.entries mt) key)
      as [e|]; [destruct (String.eqb (Key e) key)|]; reflexivity. }
  unfold MemTable.GetAllEntries. rewrite Set_entries by exact Hopen.
  destruct (written_elem (MemTable.entries mt) key
              (fun e => mkEntry (Key e) value now false)
              (mkEntry key value now false) Hsorted) as (ne & Hne & Helem).
  assert (ne = mkEntry key value now false) as ->.
  { destruct Hne as [-> | (e0 & _ & <- & ->)]; reflexivity. }
  exact Helem.
Qed.

Lemma MemTable_Set_replaces_entry_witness :
  mkEntry "a" [x32] 7 false
    ∈ MemTable.GetAllEntries
        (snd (MemTable.Set_ (MemTable.run 500 [MemTable.OpSet "a" [x31] 1;
                                              MemTable.OpSet "b" [] 2])
                "a" [x32] 7)).
Proof.
  apply (MemTable_Set_replaces_entry
           (MemTable.run 500 [MemTable.OpSet "a" [x31] 1; MemTable.OpSet "b" [] 2])
           "a" [x32] 7).
  - vm_compute. repeat constructor.
  - reflexivity.
  - left. reflexivity.
Defined.



(** ** Merging sorted entries *)

Lemma mergeSortedEntries_nil_r (l : list Entry) : mergeSortedEntries l [] = l.
Proof. destruct l; reflexivity. Qed.

Lemma mergeSortedEntries_cons (e1 e2 : Entry) (r1 r2 : list Entry) :
  mergeSortedEntries (e1 :: r1) (e2 :: r2)
  = if String.ltb (Key e1) (Key e2) then
      e1 :: mergeSortedEntries r1 (e2 :: r2)
    else if String.ltb (Key e2) (Key e1) then
      e2 :: mergeSortedEntries (e1 :: r1) r2
    else if negb (Deleted (mergeEntries e1 e2)) then
      mergeEntries e1 e2 :: mergeSortedEntries r1 r2
    else mergeSortedEntries r1 r2.
Proof. reflexivity. Qed.

Lemma ltb_false_eq (a b : string) :
  String.ltb a b = false -> String.ltb b a = false -> a = b.
Proof.
  rewrite !ltb_negb_leb. intros H1 H2.
  apply String.leb_antisym.
  - destruct (String.leb a b); [reflexivity | discriminate].
  - destruct (String.leb b a); [reflexivity | discriminate].
Qed.

Lemma mergeEntries_key (e1 e2 : Entry) :
  Key e1 = Key e2 -> Key (mergeEntries e1 e2) = Key e1.
Proof. intros H. unfold mergeEntries. destruct (_ <? _); congruence. Qed.

(** Every key of the merge is a key of one of the inputs. *)
Lemma merge_keys_from_inputs (l1 : list Entry) :
  forall (l2 : list Entry) (P : string -> Prop),
    Forall P (keys l1) -> Forall P (keys l2) ->
    Forall P (keys (mergeSortedEntries l1 l2)).
Proof.
  induction l1 as [|e1 r1 IH1]; intros l2 P H1 H2; [destruct l2; exact H2|].
  induction l2 as [|e2 r2 IH2]; [exact H1|].
  rewrite mergeSortedEntries_cons.
  pose proof H1 as H1'. pose proof H2 as H2'.
  unfold keys in H1', H2'. cbn [map] in H1', H2'.
  apply Forall_cons in H1' as [Pe1 Pr1]. apply Forall_cons in H2' as [Pe2 Pr2].
  destruct (String.ltb (Key e1) (Key e2)) eqn:H12.
  - unfold keys. cbn [map]. constructor; [exact Pe1|]. apply IH1; assumption.
  - destruct (String.ltb (Key e2) (Key e1)) eqn:H21.
    + unfold keys. cbn [map]. constructor; [exact Pe2|]. apply IH2. exact Pr2.
    + pose proof (ltb_false_eq _ _ H12 H21) as Heq.
      destruct (negb (Deleted (mergeEntries e1 e2))).
      * unfold keys. cbn [map]. constructor.
        -- rewrite mergeEntries_key by exact Heq. exact Pe1.
        -- apply IH1; assumption.
      * apply IH1; assumption.
Qed.

Lemma sorted_unique_cons (e : Entry) (l : list Entry) :
  sorted_unique (e :: l) <->
  Forall (key_lt (Key e)) (keys l) /\ sorted_unique l.
Proof. unfold sorted_unique, keys. cbn [map]. apply StronglySorted_cons. Qed.

Lemma merge_sorted (l1 : list Entry) :
  forall l2 : list Entry,
    sorted_unique l1 -> sorted_unique l2 ->
    sorted_unique (mergeSortedEntries l1 l2).
Proof.
  induction l1 as [|e1 r1 IH1]; intros l2 H1 H2; [destruct l2; exact H2|].
  induction l2 as [|e2 r2 IH2]; [exact H1|].
  rewrite mergeSortedEntries_cons.
  apply sorted_unique_cons in H1 as [Hall1 Hs1].
  apply sorted_unique_cons in H2 as [Hall2 Hs2].
  assert (sorted_unique (e1 :: r1)) as H1 by (apply sorted_unique_cons; auto).
  assert (sorted_unique (e2 :: r2)) as H2 by (apply sorted_unique_cons; auto).
  destruct (String.ltb (Key e1) (Key e2)) eqn:H12.
  - apply sorted_unique_cons. split; [|apply IH1; assumption].
    apply merge_keys_from_inputs; [exact Hall1|].
    unfold keys. cbn [map]. constructor; [exact H12|].
    eapply Forall_impl; [exact Hall2|]. intros k Hk.
    eapply key_lt_trans; [exact H12 | exact Hk].
  - destruct (String.ltb (Key e2) (Key e1)) eqn:H21.
    + apply sorted_unique_cons. split; [|apply IH2; assumption].
      apply merge_keys_from_inputs; [|exact Hall2].
      unfold keys. cbn [map]. constructor; [exact H21|].
      eapply Forall_impl; [exact Hall1|]. intros k Hk.
      eapply key_lt_trans; [exact H21 | exact Hk].
    + pose proof (ltb_false_eq _ _ H12 H21) as Heq.
      destruct (negb (Deleted (mergeEntries e1 e2))); [|apply IH1; assumption].
      apply sorted_unique_cons. split; [|apply IH1; assumption].
      rewrite mergeEntries_key by exact Heq.
      apply merge_keys_from_inputs; [exact Hall1|]. rewrite Heq. exact Hall2.
Qed.

Lemma find_key_above (k : string) (l : list Entry) :
  Forall (key_lt k) (keys l) -> find_key k l = None.
Proof.
  unfold find_key, keys. induction l as [|e r IH]; intros Hall; [reflexivity|].
  cbn [map] in Hall. apply Forall_cons in Hall as [He Hr]. cbn [find].
  destruct (String.eqb_spec (Key e) k) as [Heq | _]; [|apply IH; exact Hr].
  exfalso. apply (key_lt_irrefl k). rewrite Heq in He. exact He.
Qed.

Lemma find_key_cons (k : string) (e : Entry) (l : list Entry) :
  find_key k (e :: l) = if String.eqb (Key e) k then Some e else find_key k l.
Proof. reflexivity. Qed.

Lemma mergeAll_fold_sorted (others : list (list Entry)) :
  forall first : list Entry,
    sorted_unique first -> Forall sorted_unique others ->
    sorted_unique (fold_left mergeSortedEntries others first).
Proof.
  induction others as [|l r IH]; intros first Hfirst Hall; [exact Hfirst|].
  apply Forall_cons in Hall as [Hl Hr]. cbn [fold_left].
  apply IH; [apply merge_sorted; assumption | exact Hr].
Qed.

(** X6.  The merge loop of [CompactSSTables] keeps its entries sorted: when
    every list it is given is strictly ascending by key, the list that
    [mergeSortedEntries] builds from them, one after the other, is strictly
    ascending by key too, so it has no key twice. *)
Theorem mergeAll_keeps_sorted_unique (allEntries : list (list Entry))
    (Hsorted : Forall sorted_unique allEntries) :
  sorted_unique (mergeAll allEntries).
Proof.
  destruct allEntries as [|first others]; [constructor|].
  apply Forall_cons in Hsorted as [Hfirst Hothers].
  apply mergeAll_fold_sorted; assumption.
Qed.

Lemma mergeAll_keeps_sorted_unique_witness :
  sorted_unique
    (mergeAll [[mkEntry "a" [x31] 1 false; mkEntry "c" [] 5 true];
               [mkEntry "b" [x32] 2 false; mkEntry "c" [x33] 3 false];
               [mkEntry "c" [x34] 4 false]]).
Proof.
  apply mergeAll_keeps_sorted_unique.
  repeat constructor.
Defined.

(** X7.  What [mergeSortedEntries] of two sorted lists holds under a key.
    When both lists have the key, the merge holds the entry that
    [mergeEntries] picks (the first list's when its timestamp is larger, the
    second list's otherwise), and nothing when that entry is a tombstone.
    When one list alone has the key, its entry is taken over as it is, a
    tombstone also. *)
Theorem mergeSortedEntries_lookup (entries1 entries2 : list Entry)
    (key : string)
    (Hsorted1 : sorted_unique entries1) (Hsorted2 : sorted_unique entries2) :
  find_key key (mergeSortedEntries entries1 entries2)
  = merged_lookup (find_key key entries1) (find_key key entries2).
Proof.
  revert entries2 Hsorted1 Hsorted2.
  induction entries1 as [|e1 r1 IH1]; intros l2 H1 H2.
  { assert (mergeSortedEntries [] l2 = l2) as -> by (destruct l2; reflexivity).
    change (find_key key []) with (@None Entry).
    destruct (find_key key l2); reflexivity. }
  induction l2 as [|e2 r2 IH2].
  { rewrite mergeSortedEntries_nil_r.
    change (find_key key []) with (@None Entry).
    destruct (find_key key (e1 :: r1)); reflexivity. }
  rewrite mergeSortedEntries_cons.
  apply sorted_unique_cons in H1 as [Hall1 Hs1].
  apply sorted_unique_cons in H2 as [Hall2 Hs2].
  assert (sorted_unique (e1 :: r1)) as H1 by (apply sorted_unique_cons; auto).
  assert (sorted_unique (e2 :: r2)) as H2 by (apply sorted_unique_cons; auto).
  destruct (String.ltb (Key e1) (Key e2)) eqn:H12.
  - rewrite !find_key_cons, IH1 by assumption. rewrite find_key_cons.
    destruct (String.eqb_spec (Key e1) key) as [Hk1 | Hk1]; [|reflexivity].
    assert (key_lt key (Key e2)) as Hk2 by (rewrite <- Hk1; exact H12).
    destruct (String.eqb_spec (Key e2) key) as [Hk2' | _].
    { exfalso. apply (key_lt_irrefl key). rewrite Hk2' in Hk2. exact Hk2. }
    rewrite (find_key_above key r2); [reflexivity|].
    eapply Forall_impl; [exact Hall2|]. intros x Hx.
    eapply key_lt_trans; [exact Hk2 | exact Hx].
  - destruct (String.ltb (Key e2) (Key e1)) eqn:H21.
    + rewrite find_key_cons, IH2 by assumption. rewrite !find_key_cons.
      destruct (String.eqb_spec (Key e2) key) as [Hk2 | Hk2]; [|reflexivity].
      assert (key_lt key (Key e1)) as Hk1 by (rewrite <- Hk2; exact H21).
      destruct (String.eqb_spec (Key e1) key) as [Hk1' | _].
      { exfalso. apply (key_lt_irrefl key). rewrite Hk1' in Hk1. exact Hk1. }
      rewrite (find_key_above key r1); [reflexivity|].
      eapply Forall_impl; [exact Hall1|]. intros x Hx.
      eapply key_lt_trans; [exact Hk1 | exact Hx].
    + pose proof (ltb_false_eq _ _ H12 H21) as Heq.
      rewrite !(find_key_cons key e1), !(find_key_cons key e2).
      destruct (String.eqb_spec (Key e1) key) as [Hk1 | Hk1].
      * destruct (String.eqb_spec (Key e2) key) as [_ | Hk2]; [|congruence].
        cbn [merged_lookup].
        assert (find_key key (mergeSortedEntries r1 r2) = None) as Hnone.
        { rewrite IH1 by assumption.
          rewrite (find_key_above key r1), (find_key_above key r2);
            [reflexivity | rewrite <- Hk1, Heq; exact Hall2
            | rewrite <- Hk1; exact Hall1]. }
        destruct (Deleted (mergeEntries e1 e2)); cbn [negb]; [exact Hnone|].
        rewrite find_key_cons, mergeEntries_key by exact Heq.
        destruct (String.eqb_spec (Key e1) key); [reflexivity | contradiction].
      * destruct (String.eqb_spec (Key e2) key) as [Hk2 | Hk2]; [congruence|].
        destruct (negb (Deleted (mergeEntries e1 e2))); [|apply IH1; assumption].
        rewrite find_key_cons, mergeEntries_key by exact Heq.
        destruct (String.eqb_spec (Key e1) key); [contradiction|].
        apply IH1; assumption.
Qed.

Lemma mergeSortedEntries_lookup_witness :
  find_key "c"
    (mergeSortedEntries [mkEntry "a" [x31] 1 false; mkEntry "c" [] 5 true]
                        [mkEntry "b" [x32] 2 false; mkEntry "c" [x33] 3 false])
  = None.
Proof.
  apply (mergeSortedEntries_lookup
           [mkEntry "a" [x31] 1 false; mkEntry "c" [] 5 true]
           [mkEntry "b" [x32] 2 false; mkEntry "c" [x33] 3 false] "c");
    repeat constructor.
Defined.

(** ** Reading back what the table writer wrote *)

(** What [CreateSSTable] leaves in the file: the entries, the index, and the
    first two fields of the footer. *)
Lemma CreateSSTable_body_layout (entries : list Entry) :
  Forall encodable entries -> total_size entries < 2 ^ 63 ->
  snd (CreateSSTable_body entries [])
  = entry_region entries ++ index_region entries
      ++ le_bytes 8 (uint64 (len_bytes (entry_region entries)))
      ++ le_bytes 4 (uint32 (int64 (Z.of_nat (List.length entries)))).
Proof.
  intros Hsmall Hsize.
  pose proof (sstable_file_layout entries Hsmall Hsize) as Hlayout.
  unfold sstable_file, sstable_file_with, footer_region in Hlayout.
  rewrite !app_assoc in Hlayout. apply app_inv_tail in Hlayout.
  apply app_inv_tail in Hlayout. rewrite Hlayout, <- !app_assoc. reflexivity.
Qed.

Lemma entry_at_recorded_offset (entries : list Entry) (tail : list byte)
    (i : nat) (e : Entry) :
  Forall encodable entries -> entries !! i = Some e ->
  ReadEntryAtOffset (entry_region entries ++ tail)
    (0 + total_size (take i entries)) = Ok e.
Proof.
  intros Hsmall Hi.
  pose proof (total_size_take_le entries i) as Hoff.
  apply (ReadEntryAtOffset_decodes _ _ e
           (entry_region (drop (S i) entries) ++ tail)).
  - lia.
  - rewrite (entry_region_split entries i e Hi), <- !app_assoc.
    apply drop_app_length'. rewrite Z.add_0_l, <- len_entry_region.
    unfold len_bytes. rewrite Nat2Z.id. reflexivity.
  - rewrite Forall_forall in Hsmall. apply Hsmall.
    eapply list_elem_of_lookup_2. exact Hi.
Qed.

(** X8.  The entries that [CreateSSTable] writes can be read back from the
    file it leaves, although the call itself ends in the footer error: for
    the i-th entry, [WriteEntries] records the key and an offset, and
    [ReadEntryAtOffset] at that offset of the file that is left gives the
    entry back, with key, value, timestamp and deleted flag. *)
Theorem ReadEntryAtOffset_reads_what_WriteEntries_wrote (path : string)
    (fs : FileSystem) (entries : list Entry)
    (Hsmall : Forall encodable entries)
    (Hsize : total_size entries < 2 ^ 63) :
  exists (file : list byte) (indexEntries : list IndexEntry) (written : Z),
    snd (CreateSSTable path entries fs) !! path = Some file /\
    fst (WriteEntries entries []) = Ok (indexEntries, written) /\
    List.length indexEntries = List.length entries /\
    forall (i : nat) (e : Entry),
      entries !! i = Some e ->
      exists ie : IndexEntry,
        indexEntries !! i = Some ie /\ IKey ie = Key e /\
        ReadEntryAtOffset file (Offset ie) = Ok e.
Proof.
  pose proof (CreateSSTable_body_layout entries Hsmall Hsize) as Hlayout.
  pose proof (total_size_nonneg entries) as Hsize0.
  exists (snd (CreateSSTable_body entries [])), (index_from 0 entries),
    (0 + total_size entries).
  split.
  { unfold CreateSSTable. destruct (CreateSSTable_body entries []) as [r file].
    cbn [snd]. apply lookup_insert_eq. }
  split.
  { unfold WriteEntries.
    rewrite (WriteEntries_loop_encodes entries [] 0 []) by (try assumption; lia).
    reflexivity. }
  split; [apply index_from_length|].
  intros i e Hi.
  exists (mkIndexEntry (Key e) (0 + total_size (take i entries))).
  split; [apply index_from_lookup; exact Hi|]. split; [reflexivity|].
  cbn [Offset]. rewrite Hlayout. apply entry_at_recorded_offset; assumption.
Qed.

Lemma footer_fields_of_sstable_file (entries : list Entry) :
  Forall encodable entries ->
  Z.of_nat (List.length entries) < 2 ^ 32 ->
  total_size entries < 2 ^ 63 ->
  20 <= len_bytes (sstable_file entries) /\
  footer_magic (sstable_file entries) = MagicNumber /\
  footer_index_start (sstable_file entries) = total_size entries /\
  footer_entries (sstable_file entries) = Z.of_nat (List.length entries).
Proof.
  intros Hsmall Hcount Hsize.
  pose proof (sstable_file_layout entries Hsmall Hsize) as Hlayout.
  pose proof (total_size_nonneg entries) as Hsize0.
  pose proof (len_entry_region entries) as HlenE.
  pose proof (len_footer_region entries) as HlenF.
  set (file := sstable_file entries) in *.
  split.
  { rewrite Hlayout, !len_bytes_app, HlenF.
    pose proof (len_bytes_nonneg (entry_region entries)).
    pose proof (len_bytes_nonneg (index_region entries)). lia. }
  split.
  { unfold footer_magic. rewrite Hlayout. unfold footer_region.
    replace (entry_region entries ++ index_region entries ++
             le_bytes 8 (uint64 (len_bytes (entry_region entries))) ++
             le_bytes 4 (uint32 (int64 (Z.of_nat (List.length entries)))) ++
             le_bytes 4 Version ++ le_bytes 4 MagicNumber)
      with (entry_region entries
            ++ (index_region entries ++
                le_bytes 8 (uint64 (len_bytes (entry_region entries))) ++
                le_bytes 4 (uint32 (int64 (Z.of_nat (List.length entries)))) ++
                le_bytes 4 Version)
            ++ le_bytes 4 MagicNumber ++ [])
      by (rewrite <- !app_assoc, app_nil_r; reflexivity).
    rewrite footer_bytes_app by reflexivity. reflexivity. }
  split.
  { unfold footer_index_start. rewrite Hlayout. unfold footer_region.
    rewrite footer_bytes_app
      by (rewrite ?len_bytes_app, ?len_bytes_le_bytes; reflexivity).
    rewrite le_value_le_bytes. unfold uint64. change (8 * Z.of_nat 8) with 64.
    rewrite Z.mod_mod by lia. rewrite int64_of_uint64; lia. }
  unfold footer_entries. rewrite Hlayout. unfold footer_region.
  replace (entry_region entries ++ index_region entries ++
           le_bytes 8 (uint64 (len_bytes (entry_region entries))) ++
           le_bytes 4 (uint32 (int64 (Z.of_nat (List.length entries)))) ++
           le_bytes 4 Version ++ le_bytes 4 MagicNumber)
    with (entry_region entries
          ++ (index_region entries ++
              le_bytes 8 (uint64 (len_bytes (entry_region entries))))
          ++ le_bytes 4 (uint32 (int64 (Z.of_nat (List.length entries))))
          ++ (le_bytes 4 Version ++ le_bytes 4 MagicNumber))
    by (rewrite <- !app_assoc; reflexivity).
  rewrite footer_bytes_app
    by (rewrite ?len_bytes_app, ?len_bytes_le_bytes; reflexivity).
  rewrite le_value_le_bytes. unfold uint32. change (8 * Z.of_nat 4) with 32.
  rewrite Z.mod_mod by lia. rewrite int64_in_range by lia.
  apply Z.mod_small. lia.
Qed.

Lemma OpenSSTable_sstable_file (path : string) (fs : FileSystem)
    (entries : list Entry) :
  fs !! path = Some (sstable_file entries) ->
  Forall encodable entries ->
  Z.of_nat (List.length entries) < 2 ^ 32 ->
  total_size entries < 2 ^ 63 ->
  exists footer : SSTableFooter.t,
    OpenSSTable path fs
    = Ok (SSTable.mk path (sstable_file entries)
            (index_of (index_from 0 entries) ∅) footer).
Proof.
  intros Hfile Hsmall Hcount Hsize.
  destruct (footer_fields_of_sstable_file entries Hsmall Hcount Hsize)
    as (Hlen & Hmagic & Hstart & Hn).
  pose proof (sstable_file_layout entries Hsmall Hsize) as Hlayout.
  pose proof (total_size_nonneg entries) as Hsize0.
  pose proof (len_entry_region entries) as HlenE.
  set (file := sstable_file entries) in *.
  unfold OpenSSTable. rewrite Hfile. fold file.
  unfold OpenSSTable_body. unfold bind at 1, orErrorf at 1.
  pose proof (ReadFooter_large_enough file 0 Hlen) as Hfooter.
  pose proof (ReadFooter_contents (mkOpenFile file 0)) as Hcont.
  destruct (ReadFooter (mkOpenFile file 0)) as [r f1].
  cbn [fst snd contents] in Hfooter, Hcont.
  rewrite Hmagic, Z.eqb_refl in Hfooter. subst r. cbn [Errorf].
  unfold bind at 1, orErrorf at 1, ReadIndex.
  unfold bind at 1, orErrorf at 1, file_Seek.
  cbn [SSTableFooter.IndexStartOffset SSTableFooter.NumberOfEntries].
  rewrite Hstart, Hn, Hcont.
  destruct (Z.ltb_spec (total_size entries) 0) as [Hneg | _]; [lia|].
  cbn [Errorf].
  rewrite Nat2Z.id, <- (index_from_length entries 0).
  destruct (ReadIndex_loop_decodes (index_from 0 entries) ∅
              (mkOpenFile file (total_size entries)) (footer_region entries))
    as (f2 & ->).
  { cbn [cursor]. lia. }
  { unfold remaining. cbn [cursor contents]. rewrite Hlayout.
    apply drop_app_length'. rewrite <- HlenE. unfold len_bytes.
    rewrite Nat2Z.id. reflexivity. }
  { apply index_from_ok; [exact Hsmall | lia | lia]. }
  cbn [Errorf ret fst]. eexists. reflexivity.
Qed.

Lemma index_of_size (ies : list IndexEntry) :
  forall m : gmap string Z,
    NoDup (map IKey ies) ->
    (forall k, k ∈ map IKey ies -> m !! k = None) ->
    size (index_of ies m) = (size m + List.length ies)%nat.
Proof.
  induction ies as [|ie r IH]; intros m Hnd Hfresh.
  - simpl. lia.
  - cbn [map] in Hnd, Hfresh. apply NoDup_cons in Hnd as [Hnotin Hnd].
    unfold index_of. cbn [fold_left]. fold (index_of r (<[IKey ie := Offset ie]> m)).
    rewrite IH.
    + rewrite map_size_insert_None by (apply Hfresh; left).
      cbn [List.length]. lia.
    + exact Hnd.
    + intros k Hk. rewrite lookup_insert_ne.
      * apply Hfresh. right. exact Hk.
      * intros Heq. subst k. contradiction.
Qed.

(** X9.  The table that [OpenSSTable] makes of a complete file of entries
    with distinct keys: [NumEntries] is the number of entries,
    [ContainsKey] holds of the keys of the entries and of no other, and
    [Get] returns, without error, the value of a live entry, and nothing for
    a tombstone and for a key that the file does not hold. *)
Theorem SSTable_Get_on_complete_file (path : string) (fs : FileSystem)
    (entries : list Entry)
    (Hfile : fs !! path = Some (sstable_file entries))
    (Hkeys : NoDup (map Key entries))
    (Hsmall : Forall encodable entries)
    (Hcount : Z.of_nat (List.length entries) < 2 ^ 32)
    (Hsize : total_size entries < 2 ^ 63) :
  exists sst : SSTable.t,
    OpenSSTable path fs = Ok sst /\
    SSTable.NumEntries sst = Z.of_nat (List.length entries) /\
    forall key : string,
      SSTable.ContainsKey sst key = bool_decide (key ∈ map Key entries) /\
      SSTable.Get sst key
      = Ok (match find_key key entries with
            | Some e => if Deleted e then None else Some (Value e)
            | None => None
            end).
Proof.
  destruct (OpenSSTable_sstable_file path fs entries Hfile Hsmall Hcount Hsize)
    as (footer & Hopen).
  eexists. split; [exact Hopen|].
  assert (NoDup (map IKey (index_from 0 entries))) as Hnd
    by (rewrite index_from_keys; exact Hkeys).
  split.
  { unfold SSTable.NumEntries. cbn [SSTable.index].
    rewrite index_of_size; [|exact Hnd|intros; apply lookup_empty].
    rewrite map_size_empty, index_from_length. reflexivity. }
  intros key. unfold SSTable.ContainsKey, SSTable.Get.
  cbn [SSTable.index SSTable.file].
  destruct (find_key key entries) as [e|] eqn:Hfind.
  - apply find_some in Hfind as [Hin Hk]. apply String.eqb_eq in Hk.
    apply list_elem_of_In, list_elem_of_lookup_1 in Hin as [i Hi].
    pose proof (index_of_lookup (index_from 0 entries) ∅ i _ Hnd
                  (index_from_lookup entries 0 i e Hi)) as Hidx.
    cbn [IKey Offset] in Hidx. rewrite Hk in Hidx. rewrite Hidx.
    split.
    { rewrite (bool_decide_eq_true_2 (is_Some (Some _)))
        by (eexists; reflexivity).
      symmetry. apply bool_decide_eq_true_2. rewrite <- Hk.
      apply (list_elem_of_fmap_2 Key). eapply list_elem_of_lookup_2. exact Hi. }
    rewrite (sstable_file_layout entries Hsmall Hsize).
    rewrite (entry_at_recorded_offset entries _ i e Hsmall Hi).
    rewrite Hk, String.eqb_refl. cbn [negb]. destruct (Deleted e); reflexivity.
  - assert (key ∉ map Key entries) as Hnotin.
    { intros Hin. apply list_elem_of_fmap in Hin as (e & -> & Hin).
      apply list_elem_of_In in Hin.
      pose proof (find_none _ _ Hfind e Hin) as Hf. cbn beta in Hf.
      rewrite String.eqb_refl in Hf. discriminate. }
    rewrite index_of_lookup_other by (rewrite index_from_keys; exact Hnotin).
    rewrite lookup_empty. split; [|reflexivity].
    rewrite (bool_decide_eq_false_2 (is_Some None))
      by (intros [x Hx]; discriminate).
    symmetry. apply bool_decide_eq_false_2. exact Hnotin.
Qed.

Lemma getAllEntries_loop_collects (path : string) (file : list byte)
    (pairs : list (string * Z)) (es : list Entry) :
  Forall2 (read_as file) pairs es ->
  forall (acc : list Entry) (log : ReadLog),
    fst (fold_left
           (fun '(entries, log) '(key, offset) =>
              let log := log ++ [(path, offset)] in
              match ReadEntryAtOffset file offset with
              | Err _ => (entries, log)
              | Ok entry =>
                  if negb (String.eqb (Key entry) key) then (entries, log)
                  else (entries ++ [entry], log)
              end)
           pairs (acc, log))
    = acc ++ es.
Proof.
  induction 1 as [|[k o] e pairs es [Hread Hk] Hall IH]; intros acc log.
  - cbn [fold_left fst]. rewrite app_nil_r. reflexivity.
  - cbn [fold_left]. cbn [snd fst] in Hread, Hk. rewrite Hread, Hk.
    rewrite String.eqb_refl. cbn [negb]. rewrite IH, <- app_assoc.
    reflexivity.
Qed.

Lemma getAllEntries_collects (range : RangeOrder) (sst : SSTable.t)
    (es : list Entry) :
  Forall2 (read_as (SSTable.file sst)) (range (SSTable.index sst)) es ->
  fst (getAllEntriesFromSSTable range sst) = es.
Proof.
  intros Hall. unfold getAllEntriesFromSSTable.
  apply (getAllEntries_loop_collects _ _ _ _ Hall [] []).
Qed.

Lemma index_lookup_reads (entries : list Entry) (tail : list byte)
    (k : string) (o : Z) :
  Forall encodable entries -> NoDup (map Key entries) ->
  index_of (index_from 0 entries) ∅ !! k = Some o ->
  exists e : Entry,
    e ∈ entries /\ read_as (entry_region entries ++ tail) (k, o) e.
Proof.
  intros Hsmall Hnd Hidx.
  destruct (decide (k ∈ map Key entries)) as [Hin | Hnotin].
  - apply list_elem_of_fmap in Hin as (e & -> & Hin).
    apply list_elem_of_lookup_1 in Hin as [i Hi].
    assert (NoDup (map IKey (index_from 0 entries))) as Hnd'
      by (rewrite index_from_keys; exact Hnd).
    pose proof (index_of_lookup (index_from 0 entries) ∅ i _ Hnd'
                  (index_from_lookup entries 0 i e Hi)) as Hidx'.
    cbn [IKey Offset] in Hidx'. rewrite Hidx' in Hidx. injection Hidx as <-.
    exists e. split; [eapply list_elem_of_lookup_2; exact Hi|].
    split; [|reflexivity]. cbn [snd].
    apply entry_at_recorded_offset; assumption.
  - rewrite index_of_lookup_other in Hidx
      by (rewrite index_from_keys; exact Hnotin).
    rewrite lookup_empty in Hidx. discriminate.
Qed.

Lemma Forall2_of_Forall_exists {A B} (R : A -> B -> Prop) (P : B -> Prop)
    (l : list A) :
  Forall (fun a => exists b, P b /\ R a b) l ->
  exists k : list B, Forall2 R l k /\ Forall P k.
Proof.
  induction 1 as [|a l (b & Hb & Hab) _ (k & Hk & HP)].
  - exists []. split; constructor.
  - exists (b :: k). split; constructor; assumption.
Qed.

(** X10.  [getAllEntriesFromSSTable] on such a table returns every entry of
    the file once, in the order in which [range] visits the index: the keys
    of the result are the keys of the visit, one for one.  The result is
    sorted by key only when the visit is. *)
Theorem getAllEntriesFromSSTable_follows_range_order (range : RangeOrder)
    (path : string) (fs : FileSystem) (entries : list Entry)
    (Hrange : forall m : gmap string Z, range m ≡ₚ map_to_list m)
    (Hfile : fs !! path = Some (sstable_file entries))
    (Hkeys : NoDup (map Key entries))
    (Hsmall : Forall encodable entries)
    (Hcount : Z.of_nat (List.length entries) < 2 ^ 32)
    (Hsize : total_size entries < 2 ^ 63) :
  exists sst : SSTable.t,
    OpenSSTable path fs = Ok sst /\
    map Key (fst (getAllEntriesFromSSTable range sst))
    = map fst (range (SSTable.index sst)) /\
    fst (getAllEntriesFromSSTable range sst) ≡ₚ entries.
Proof.
  destruct (OpenSSTable_sstable_file path fs entries Hfile Hsmall Hcount Hsize)
    as (footer & Hopen).
  eexists. split; [exact Hopen|].
  set (sst := SSTable.mk path (sstable_file entries)
                (index_of (index_from 0 entries) ∅) footer).
  set (idx := index_of (index_from 0 entries) ∅).
  assert (exists es, Forall2 (read_as (SSTable.file sst))
                       (range (SSTable.index sst)) es
                     /\ Forall (fun e => e ∈ entries) es) as (es & Hes & Hsub).
  { apply Forall2_of_Forall_exists. apply Forall_forall. intros [k o] Hin.
    change (SSTable.file sst) with (sstable_file entries).
    change ((k, o) ∈ range idx) in Hin.
    rewrite (Hrange idx) in Hin. apply elem_of_map_to_list in Hin.
    rewrite (sstable_file_layout entries Hsmall Hsize).
    apply index_lookup_reads; assumption. }
  rewrite (getAllEntries_collects range sst es Hes).
  assert (map Key es = map fst (range (SSTable.index sst))) as Hkeys_es.
  { clear -Hes. induction Hes as [|p e ps es [_ Hk] _ IH]; [reflexivity|].
    cbn [map]. rewrite Hk, IH. reflexivity. }
  split; [exact Hkeys_es|].
  assert (map Key es ≡ₚ map Key entries) as Hperm_keys.
  { rewrite Hkeys_es. change (SSTable.index sst) with idx.
    rewrite (Hrange idx).
    apply NoDup_Permutation.
    - apply (NoDup_fst_map_to_list idx).
    - exact Hkeys.
    - intros k. split.
      + intros Hin. apply list_elem_of_fmap in Hin as ([k' o] & -> & Hin).
        apply elem_of_map_to_list in Hin. cbn [fst].
        destruct (decide (k' ∈ map Key entries)) as [|Hnotin]; [assumption|].
        unfold idx in Hin. rewrite index_of_lookup_other in Hin
          by (rewrite index_from_keys; exact Hnotin).
        rewrite lookup_empty in Hin. discriminate.
      + intros Hin. apply list_elem_of_fmap in Hin as (e & -> & Hin).
        apply list_elem_of_lookup_1 in Hin as [i Hi].
        assert (NoDup (map IKey (index_from 0 entries))) as Hnd'
          by (rewrite index_from_keys; exact Hkeys).
        pose proof (index_of_lookup (index_from 0 entries) ∅ i _ Hnd'
                      (index_from_lookup entries 0 i e Hi)) as Hidx.
        cbn [IKey Offset] in Hidx.
        apply list_elem_of_fmap. eexists (Key e, _). split; [reflexivity|].
        apply elem_of_map_to_list. exact Hidx. }
  assert (NoDup (map Key es)) as Hnd_es
    by (rewrite Hperm_keys; exact Hkeys).
  apply NoDup_Permutation.
  - eapply NoDup_fmap_1. exact Hnd_es.
  - eapply NoDup_fmap_1. exact Hkeys.
  - intros e. split.
    + intros Hin. rewrite Forall_forall in Hsub. apply Hsub. exact Hin.
    + intros Hin.
      assert (Key e ∈ map Key es) as Hk
        by (rewrite Hperm_keys; apply list_elem_of_fmap_2; exact Hin).
      apply list_elem_of_fmap in Hk as (e' & Hk & Hin').
      rewrite Forall_forall in Hsub. pose proof (Hsub e' Hin') as Hin''.
      assert (e = e') as ->; [|exact Hin'].
      clear -Hkeys Hin Hin'' Hk.
      induction entries as [|x r IH]; [inversion Hin|].
      cbn [map] in Hkeys. apply NoDup_cons in Hkeys as [Hx Hr].
      apply elem_of_cons in Hin as [-> | Hin];
        apply elem_of_cons in Hin'' as [-> | Hin''].
      * reflexivity.
      * exfalso. apply Hx. rewrite Hk. apply list_elem_of_fmap_2. exact Hin''.
      * exfalso. apply Hx. rewrite <- Hk. apply list_elem_of_fmap_2. exact Hin.
      * apply IH; assumption.
Qed.

Lemma ReadEntryAtOffset_reads_what_WriteEntries_wrote_witness :
  exists (file : list byte) (indexEntries : list IndexEntry) (written : Z),
    snd (CreateSSTable "data/sstable-0.sst"
           [mkEntry "a" [x31] 1 false; mkEntry "b" [] 2 true] ∅)
      !! "data/sstable-0.sst" = Some file /\
    fst (WriteEntries [mkEntry "a" [x31] 1 false; mkEntry "b" [] 2 true] [])
    = Ok (indexEntries, written) /\
    List.length indexEntries = 2%nat /\
    forall (i : nat) (e : Entry),
      [mkEntry "a" [x31] 1 false; mkEntry "b" [] 2 true] !! i = Some e ->
      exists ie : IndexEntry,
        indexEntries !! i = Some ie /\ IKey ie = Key e /\
        ReadEntryAtOffset file (Offset ie) = Ok e.
Proof.
  apply (ReadEntryAtOffset_reads_what_WriteEntries_wrote "data/sstable-0.sst" ∅
           [mkEntry "a" [x31] 1 false; mkEntry "b" [] 2 true]).
  - repeat constructor; vm_compute; congruence.
  - vm_compute. reflexivity.
Defined.

Lemma SSTable_Get_on_complete_file_witness :
  exists sst : SSTable.t,
    OpenSSTable "data/sstable-0.db"
      {[ "data/sstable-0.db" :=
           sstable_file [mkEntry "a" [x31] 1 false; mkEntry "b" [] 2 true] ]}
    = Ok sst /\
    SSTable.NumEntries sst = 2 /\
    forall key : string,
      SSTable.ContainsKey sst key = bool_decide (key ∈ ["a"; "b"]) /\
      SSTable.Get sst key
      = Ok (match find_key key
                    [mkEntry "a" [x31] 1 false; mkEntry "b" [] 2 true] with
            | Some e => if Deleted e then None else Some (Value e)
            | None => None
            end).
Proof.
  apply (SSTable_Get_on_complete_file "data/sstable-0.db"
           {[ "data/sstable-0.db" :=
                sstable_file [mkEntry "a" [x31] 1 false; mkEntry "b" [] 2 true] ]}
           [mkEntry "a" [x31] 1 false; mkEntry "b" [] 2 true]).
  - vm_compute. reflexivity.
  - apply NoDup_cons. split; [|apply NoDup_singleton].
    intros Hin. apply list_elem_of_singleton in Hin. discriminate.
  - repeat constructor; vm_compute; congruence.
  - vm_compute. reflexivity.
  - vm_compute. reflexivity.
Defined.

Lemma getAllEntriesFromSSTable_follows_range_order_witness :
  exists sst : SSTable.t,
    OpenSSTable "data/sstable-0.db"
      {[ "data/sstable-0.db" :=
           sstable_file [mkEntry "a" [x31] 1 false; mkEntry "b" [] 2 true] ]}
    = Ok sst /\
    map Key (fst (getAllEntriesFromSSTable (fun m => reverse (map_to_list m)) sst))
    = map fst (reverse (map_to_list (SSTable.index sst))) /\
    fst (getAllEntriesFromSSTable (fun m => reverse (map_to_list m)) sst)
    ≡ₚ [mkEntry "a" [x31] 1 false; mkEntry "b" [] 2 true].
Proof.
  apply (getAllEntriesFromSSTable_follows_range_order
           (fun m => reverse (map_to_list m)) "data/sstable-0.db"
           {[ "data/sstable-0.db" :=
                sstable_file [mkEntry "a" [x31] 1 false; mkEntry "b" [] 2 true] ]}
           [mkEntry "a" [x31] 1 false; mkEntry "b" [] 2 true]).
  - intros m. apply reverse_Permutation.
  - vm_compute. reflexivity.
  - apply NoDup_cons. split; [|apply NoDup_singleton].
    intros Hin. apply list_elem_of_singleton in Hin. discriminate.
  - repeat constructor; vm_compute; congruence.
  - vm_compute. reflexivity.
  - vm_compute. reflexivity.
Defined.

(** ** Writes of the LSM store and its background flush *)

Lemma flush_write_fails (dataDir : string) (memtableToFlush : MemTable.t)
    (sstableID : Z) (fs : FileSystem) :
  fst (LSMStore.flush_write dataDir memtableToFlush sstableID fs) = None.
Proof.
  unfold LSMStore.flush_write, FlushMemTableToSSTable.
  destruct (List.length (MemTable.GetAllEntries memtableToFlush) =? 0)%nat;
    [reflexivity|].
  pose proof (CreateSSTable_fails (flushPath dataDir sstableID)
                (MemTable.GetAllEntries memtableToFlush) fs) as Hfail.
  destruct (CreateSSTable _ _ fs) as [r fs']. cbn [fst] in Hfail. subst r.
  reflexivity.
Qed.

(** The flush run to its end is its three parts one after the other. *)
Lemma flushImmutableMemTable_parts (store : LSMStore.t) (fs : FileSystem) :
  LSMStore.flushImmutableMemTable store fs
  = match LSMStore.flush_take store with
    | (store', None) => (store', fs)
    | (store', Some (memtableToFlush, sstableID)) =>
        match LSMStore.flush_write (LSMStore.dataDir store') memtableToFlush
                sstableID fs with
        | (None, fs') => (store', fs')
        | (Some sstable, fs') => (LSMStore.flush_publish store' sstable, fs')
        end
    end.
Proof.
  unfold LSMStore.flushImmutableMemTable, LSMStore.flush_take,
    LSMStore.flush_write.
  destruct (LSMStore.immutableMemTable store) as [mt|]; [|reflexivity].
  cbn [LSMStore.dataDir LSMStore.nextSSTableID].
  destruct (FlushMemTableToSSTable mt _ fs) as [[u|e] fs']; [|reflexivity].
  destruct (OpenSSTable _ fs') as [sst|e]; reflexivity.
Qed.

Lemma rotateMemTable_keeps (store : LSMStore.t) :
  let store' := snd (fst (LSMStore.rotateMemTable store)) in
  LSMStore.sstables store' = LSMStore.sstables store /\
  (slot_sealed store ->
   LSMStore.immutableMemTable store' = LSMStore.immutableMemTable store /\
   LSMStore.memTable store' = MemTable.MakeImmutable (LSMStore.memTable store) /\
   fst (fst (LSMStore.rotateMemTable store))
   = Err "still flushing the immutable memtable, cannot rotate" /\
   snd (LSMStore.rotateMemTable store) = false).
Proof.
  unfold LSMStore.rotateMemTable. cbn [LSMStore.immutableMemTable].
  split.
  - destruct (match LSMStore.immutableMemTable store with
              | Some imm => MemTable.IsImmutable imm | None => false end);
      reflexivity.
  - intros (imm & -> & ->). cbn. repeat split; reflexivity.
Qed.

Lemma Set_keeps (store : LSMStore.t) (key : string) (value : list byte)
    (now : Z) :
  let store' := snd (fst (LSMStore.Set_ store key value now)) in
  LSMStore.sstables store' = LSMStore.sstables store /\
  (slot_sealed store ->
   LSMStore.immutableMemTable store' = LSMStore.immutableMemTable store /\
   snd (LSMStore.Set_ store key value now) = false).
Proof.
  unfold LSMStore.Set_.
  destruct (MemTable.Set_ (LSMStore.memTable store) key value now) as [r mt].
  destruct r as [u|e]; [|cbn; split; [reflexivity | intros _; split; reflexivity]].
  cbn [LSMStore.memTable].
  destruct (MemTable.ShouldFlush mt);
    [|cbn; split; [reflexivity | intros _; split; reflexivity]].
  match goal with
  | |- context [LSMStore.rotateMemTable ?s] =>
      pose proof (rotateMemTable_keeps s) as [Hsst Hslot];
      destruct (LSMStore.rotateMemTable s) as [[r s'] b]
  end.
  cbn [fst snd LSMStore.sstables LSMStore.immutableMemTable] in *.
  split.
  - destruct r; exact Hsst.
  - intros Hsealed.
    destruct Hslot as (Himm & _ & _ & Hb).
    { destruct Hsealed as (imm & Himm & Hs). exists imm. split; assumption. }
    destruct r; split; assumption.
Qed.

Lemma Delete_keeps (store : LSMStore.t) (key : string) (now : Z) :
  let store' := snd (fst (LSMStore.Delete store key now)) in
  LSMStore.sstables store' = LSMStore.sstables store /\
  (slot_sealed store ->
   LSMStore.immutableMemTable store' = LSMStore.immutableMemTable store /\
   snd (LSMStore.Delete store key now) = false).
Proof.
  unfold LSMStore.Delete.
  destruct (MemTable.Delete (LSMStore.memTable store) key now) as [r mt].
  destruct r as [u|e]; [|cbn; split; [reflexivity | intros _; split; reflexivity]].
  cbn [LSMStore.memTable].
  destruct (MemTable.ShouldFlush mt);
    [|cbn; split; [reflexivity | intros _; split; reflexivity]].
  match goal with
  | |- context [LSMStore.rotateMemTable ?s] =>
      pose proof (rotateMemTable_keeps s) as [Hsst Hslot];
      destruct (LSMStore.rotateMemTable s) as [[r s'] b]
  end.
  cbn [fst snd LSMStore.sstables LSMStore.immutableMemTable] in *.
  split.
  - destruct r; exact Hsst.
  - intros Hsealed.
    destruct Hslot as (Himm & _ & _ & Hb).
    { destruct Hsealed as (imm & Himm & Hs). exists imm. split; assumption. }
    destruct r; split; assumption.
Qed.

Lemma Forall_not_opened_delete (i : nat) (l : list Flush) :
  Forall not_opened l -> Forall not_opened (delete i l).
Proof.
  apply Forall_delete.
Qed.

Lemma step_keeps (w : World) (ev : Event) :
  Forall not_opened (w_flushes w) ->
  Forall not_opened (w_flushes (step w ev)) /\
  LSMStore.sstables (w_store (step w ev)) = LSMStore.sstables (w_store w) /\
  (slot_sealed (w_store w) ->
   LSMStore.immutableMemTable (w_store (step w ev))
   = LSMStore.immutableMemTable (w_store w)).
Proof.
  intros Hno. destruct ev as [key value now | key now | i]; cbn [step].
  - pose proof (Set_keeps (w_store w) key value now) as [Hsst Hslot].
    destruct (LSMStore.Set_ (w_store w) key value now) as [[r s'] b].
    cbn [fst snd w_store w_flushes] in *.
    split; [|split; [exact Hsst | intros Hs; apply Hslot; exact Hs]].
    apply Forall_app. split; [exact Hno|].
    destruct b; repeat constructor.
  - pose proof (Delete_keeps (w_store w) key now) as [Hsst Hslot].
    destruct (LSMStore.Delete (w_store w) key now) as [[r s'] b].
    cbn [fst snd w_store w_flushes] in *.
    split; [|split; [exact Hsst | intros Hs; apply Hslot; exact Hs]].
    apply Forall_app. split; [exact Hno|].
    destruct b; repeat constructor.
  - destruct (w_flushes w !! i) as [[| mt id | sst]|] eqn:Hi.
    + unfold LSMStore.flush_take.
      destruct (LSMStore.immutableMemTable (w_store w)) as [imm|] eqn:Himm;
        cbn [w_store w_flushes LSMStore.sstables LSMStore.immutableMemTable].
      * split; [|split; [reflexivity | intros _; congruence]].
        apply Forall_insert; [exact Hno | exact I].
      * split; [|split; [reflexivity | intros _; congruence]].
        apply Forall_not_opened_delete. exact Hno.
    + pose proof (flush_write_fails (LSMStore.dataDir (w_store w)) mt id
                    (w_files w)) as Hfail.
      destruct (LSMStore.flush_write _ mt id (w_files w)) as [r fs].
      cbn [fst] in Hfail. subst r. cbn [w_store w_flushes].
      split; [|split; [reflexivity | intros _; reflexivity]].
      apply Forall_not_opened_delete. exact Hno.
    + exfalso. rewrite Forall_forall in Hno.
      apply (Hno (FlushOpened sst)). eapply list_elem_of_lookup_2. exact Hi.
    + split; [exact Hno|]. split; [reflexivity | intros _; reflexivity].
Qed.

Lemma slot_sealed_by_slot (s s' : LSMStore.t) :
  LSMStore.immutableMemTable s' = LSMStore.immutableMemTable s ->
  slot_sealed s -> slot_sealed s'.
Proof. intros Heq (imm & Himm & Hs). exists imm. rewrite Heq. split; assumption. Qed.

Lemma run_world_keeps (events : list Event) :
  forall w : World,
    Forall not_opened (w_flushes w) ->
    Forall not_opened (w_flushes (run_world w events)) /\
    LSMStore.sstables (w_store (run_world w events))
    = LSMStore.sstables (w_store w) /\
    (slot_sealed (w_store w) ->
     LSMStore.immutableMemTable (w_store (run_world w events))
     = LSMStore.immutableMemTable (w_store w)).
Proof.
  induction events as [|ev events IH]; intros w Hno.
  - split; [exact Hno|]. split; [reflexivity | intros _; reflexivity].
  - unfold run_world. cbn [fold_left]. fold (run_world (step w ev) events).
    destruct (step_keeps w ev Hno) as (Hno' & Hsst & Hslot).
    destruct (IH (step w ev) Hno') as (Hno'' & Hsst' & Hslot').
    split; [exact Hno''|]. split; [rewrite Hsst'; exact Hsst|].
    intros Hs. rewrite Hslot'; [apply Hslot; exact Hs|].
    eapply slot_sealed_by_slot; [apply Hslot; exact Hs | exact Hs].
Qed.

(** X13.  No flush ever publishes a table.  Under every interleaving of
    [Set] and [Delete] calls with the moves of the flushes that rotations
    have started, the SSTables of the store are the ones it began with, and
    a sealed MemTable in the slot [immutableMemTable] stays there
    (provided no flush was already waiting with an opened table): every
    flush ends at the error of [FlushMemTableToSSTable]. *)
Theorem LSMStore_flush_never_publishes (w : World) (events : list Event)
    (Hflushes : Forall not_opened (w_flushes w)) :
  LSMStore.sstables (w_store (run_world w events))
  = LSMStore.sstables (w_store w) /\
  (slot_sealed (w_store w) ->
   LSMStore.immutableMemTable (w_store (run_world w events))
   = LSMStore.immutableMemTable (w_store w)).
Proof.
  destruct (run_world_keeps events w Hflushes) as (_ & Hsst & Hslot).
  split; assumption.
Qed.

Lemma MemTable_Set_open (mt : MemTable.t) (k : string) (v : list byte) (now : Z) :
  MemTable.immutable mt = false -> fst (MemTable.Set_ mt k v now) = Ok tt.
Proof.
  intros Him. unfold MemTable.Set_. rewrite Him.
  destruct (MemTable.entries mt !! MemTable.search (MemTable.entries mt) k)
    as [e|]; [destruct (String.eqb (Key e) k)|]; reflexivity.
Qed.

Lemma MemTable_Delete_open (mt : MemTable.t) (k : string) (now : Z) :
  MemTable.immutable mt = false -> fst (MemTable.Delete mt k now) = Ok tt.
Proof.
  intros Him. unfold MemTable.Delete. rewrite Him.
  destruct (MemTable.entries mt !! MemTable.search (MemTable.entries mt) k)
    as [e|]; [destruct (String.eqb (Key e) k)|]; reflexivity.
Qed.

Lemma Get_MakeImmutable (mt : MemTable.t) (k : string) :
  MemTable.Get (MemTable.MakeImmutable mt) k = MemTable.Get mt k.
Proof. reflexivity. Qed.

Lemma Get_NewMemTable (maxSize : Z) (k : string) :
  MemTable.Get (MemTable.NewMemTable maxSize) k = None.
Proof. reflexivity. Qed.

(** After a write the MemTable [mt'] that holds it is either still the
    MemTable of the store or has moved to the slot below a fresh one. *)
Lemma Get_after_write (store : LSMStore.t) (mt' : MemTable.t) (key : string) :
  let store1 :=
    LSMStore.mk mt' (LSMStore.immutableMemTable store) (LSMStore.sstables store)
      (LSMStore.memtableSize store) (LSMStore.dataDir store)
      (LSMStore.nextSSTableID store) in
  let store' :=
    if MemTable.ShouldFlush mt'
    then snd (fst (LSMStore.rotateMemTable store1)) else store1 in
  LSMStore.Get store' key
  = match MemTable.Get mt' key with
    | Some value => Some value
    | None =>
        if MemTable.ShouldFlush mt' &&
           negb match LSMStore.immutableMemTable store with
                | Some imm => MemTable.IsImmutable imm
                | None => false
                end
        then LSMStore.Get_sstables (LSMStore.sstables store) key
        else Get_below store key
    end.
Proof.
  cbn zeta. destruct (MemTable.ShouldFlush mt'); cbn [andb].
  - unfold LSMStore.rotateMemTable.
    cbn [LSMStore.immutableMemTable LSMStore.memTable LSMStore.sstables
         LSMStore.memtableSize].
    destruct (match LSMStore.immutableMemTable store with
              | Some imm => MemTable.IsImmutable imm | None => false end);
      cbn [negb fst snd].
    + unfold LSMStore.Get. cbn [LSMStore.memTable LSMStore.immutableMemTable
                                LSMStore.sstables].
      rewrite Get_MakeImmutable. reflexivity.
    + unfold LSMStore.Get. cbn [LSMStore.memTable LSMStore.immutableMemTable
                                LSMStore.sstables].
      rewrite Get_NewMemTable, Get_MakeImmutable. reflexivity.
  - reflexivity.
Qed.

Lemma Set_store (store : LSMStore.t) (key : string) (value : list byte)
    (now : Z) :
  MemTable.immutable (LSMStore.memTable store) = false ->
  let mt' := snd (MemTable.Set_ (LSMStore.memTable store) key value now) in
  let store1 :=
    LSMStore.mk mt' (LSMStore.immutableMemTable store) (LSMStore.sstables store)
      (LSMStore.memtableSize store) (LSMStore.dataDir store)
      (LSMStore.nextSSTableID store) in
  snd (fst (LSMStore.Set_ store key value now))
  = if MemTable.ShouldFlush mt'
    then snd (fst (LSMStore.rotateMemTable store1)) else store1.
Proof.
  intros Hopen. cbn zeta. unfold LSMStore.Set_.
  pose proof (MemTable_Set_open _ key value now Hopen) as Hok.
  destruct (MemTable.Set_ (LSMStore.memTable store) key value now) as [r mt'].
  cbn [fst snd] in *. subst r. cbn [LSMStore.memTable].
  destruct (MemTable.ShouldFlush mt'); [|reflexivity].
  destruct (LSMStore.rotateMemTable _) as [[[u|e] s'] b]; reflexivity.
Qed.

Lemma Delete_store (store : LSMStore.t) (key : string) (now : Z) :
  MemTable.immutable (LSMStore.memTable store) = false ->
  let mt' := snd (MemTable.Delete (LSMStore.memTable store) key now) in
  let store1 :=
    LSMStore.mk mt' (LSMStore.immutableMemTable store) (LSMStore.sstables store)
      (LSMStore.memtableSize store) (LSMStore.dataDir store)
      (LSMStore.nextSSTableID store) in
  snd (fst (LSMStore.Delete store key now))
  = if MemTable.ShouldFlush mt'
    then snd (fst (LSMStore.rotateMemTable store1)) else store1.
Proof.
  intros Hopen. cbn zeta. unfold LSMStore.Delete.
  pose proof (MemTable_Delete_open _ key now Hopen) as Hok.
  destruct (MemTable.Delete (LSMStore.memTable store) key now) as [r mt'].
  cbn [fst snd] in *. subst r. cbn [LSMStore.memTable].
  destruct (MemTable.ShouldFlush mt'); [|reflexivity].
  destruct (LSMStore.rotateMemTable _) as [[[u|e] s'] b]; reflexivity.
Qed.

(** X11.  A [Set] on a store whose MemTable is open is seen by [Get] at
    once, whatever [Set] returns: also when the write fills the MemTable and
    the rotation fails, in which case [Set] returns an error for a write
    that has been made. *)
Theorem LSMStore_Get_after_Set (store : LSMStore.t) (key : string)
    (value : list byte) (now : Z)
    (Hsorted : sorted_unique (MemTable.entries (LSMStore.memTable store)))
    (Hopen : MemTable.IsImmutable (LSMStore.memTable store) = false) :
  LSMStore.Get (snd (fst (LSMStore.Set_ store key value now))) key
  = Some value.
Proof.
  rewrite (Set_store store key value now Hopen).
  rewrite (Get_after_write store _ key).
  rewrite (Get_Set _ key key value now Hsorted Hopen), String.eqb_refl.
  reflexivity.
Qed.

(** X12.  [Delete] does not hide what an SSTable holds.  If the tables of
    the store answer a key with a value, and the slot [immutableMemTable]
    has nothing live under the key, then after [Delete] of the key on an
    open MemTable [Get] still returns that value: the tombstone in the
    MemTable makes the lookup go on to the older layers. *)
Theorem LSMStore_Delete_uncovers_SSTable_value (store : LSMStore.t)
    (key : string) (now : Z) (value : list byte)
    (Hsorted : sorted_unique (MemTable.entries (LSMStore.memTable store)))
    (Hopen : MemTable.IsImmutable (LSMStore.memTable store) = false)
    (Hslot : match LSMStore.immutableMemTable store with
             | Some imm => MemTable.Get imm key
             | None => None
             end = None)
    (Htable : LSMStore.Get_sstables (LSMStore.sstables store) key
              = Some value) :
  LSMStore.Get (snd (fst (LSMStore.Delete store key now))) key = Some value.
Proof.
  rewrite (Delete_store store key now Hopen).
  rewrite (Get_after_write store _ key).
  rewrite (Get_Delete _ key key now Hsorted Hopen), String.eqb_refl.
  unfold Get_below. rewrite Hslot, Htable.
  destruct (_ && _); reflexivity.
Qed.

Lemma Set_sealed (store : LSMStore.t) (key : string) (value : list byte)
    (now : Z) :
  MemTable.immutable (LSMStore.memTable store) = true ->
  LSMStore.Set_ store key value now
  = (Err "failed to set value in memtable: memtable is immutable", store, false).
Proof.
  intros Hsealed. unfold LSMStore.Set_, MemTable.Set_. rewrite Hsealed.
  destruct store. reflexivity.
Qed.

Lemma Delete_sealed (store : LSMStore.t) (key : string) (now : Z) :
  MemTable.immutable (LSMStore.memTable store) = true ->
  LSMStore.Delete store key now
  = (Err "failed to delete value in memtable: memtable is immutable", store,
     false).
Proof.
  intros Hsealed. unfold LSMStore.Delete, MemTable.Delete. rewrite Hsealed.
  destruct store. reflexivity.
Qed.

Lemma step_sealed (w : World) (ev : Event) :
  MemTable.immutable (LSMStore.memTable (w_store w)) = true ->
  Forall not_opened (w_flushes w) ->
  Forall not_opened (w_flushes (step w ev)) /\
  layers (w_store (step w ev)) = layers (w_store w).
Proof.
  intros Hsealed Hno.
  destruct (step_keeps w ev Hno) as (Hno' & _).
  split; [exact Hno'|].
  destruct ev as [key value now | key now | i]; cbn [step].
  - rewrite Set_sealed by exact Hsealed. reflexivity.
  - rewrite Delete_sealed by exact Hsealed. reflexivity.
  - destruct (w_flushes w !! i) as [[| mt id | sst]|] eqn:Hi.
    + unfold LSMStore.flush_take.
      destruct (LSMStore.immutableMemTable (w_store w)) as [imm|] eqn:Himm;
        unfold layers; cbn; rewrite ?Himm; reflexivity.
    + destruct (LSMStore.flush_write _ mt id (w_files w)) as [[sst|] fs];
        reflexivity.
    + exfalso. rewrite Forall_forall in Hno.
      apply (Hno (FlushOpened sst)). eapply list_elem_of_lookup_2. exact Hi.
    + reflexivity.
Qed.

Lemma run_world_sealed (events : list Event) :
  forall w : World,
    MemTable.immutable (LSMStore.memTable (w_store w)) = true ->
    Forall not_opened (w_flushes w) ->
    layers (w_store (run_world w events)) = layers (w_store w).
Proof.
  induction events as [|ev events IH]; intros w Hsealed Hno; [reflexivity|].
  unfold run_world. cbn [fold_left]. fold (run_world (step w ev) events).
  destruct (step_sealed w ev Hsealed Hno) as (Hno' & Hlayers).
  rewrite IH; [exact Hlayers | | exact Hno'].
  unfold layers in Hlayers. injection Hlayers as -> _ _ _ _. exact Hsealed.
Qed.

Lemma Get_layers (s s' : LSMStore.t) (key : string) :
  layers s' = layers s -> LSMStore.Get s' key = LSMStore.Get s key.
Proof.
  unfold layers. intros [= Hmt Hslot Hsst _ _].
  unfold LSMStore.Get. rewrite Hmt, Hslot, Hsst. reflexivity.
Qed.

(** X14.  Once the MemTable of the store is sealed in place (a rotation
    that failed leaves it so), the store takes no write any more: under
    every interleaving of later calls and flush moves, every [Set] and every
    [Delete] returns the error of the immutable MemTable and leaves the
    store as it is, and [Get] answers as it did. *)
Theorem LSMStore_sealed_memtable_rejects_every_write (w : World)
    (events : list Event)
    (Hsealed : MemTable.IsImmutable (LSMStore.memTable (w_store w)) = true)
    (Hflushes : Forall not_opened (w_flushes w)) :
  (forall (key : string) (value : list byte) (now : Z),
     LSMStore.Set_ (w_store (run_world w events)) key value now
     = (Err "failed to set value in memtable: memtable is immutable",
        w_store (run_world w events), false)) /\
  (forall (key : string) (now : Z),
     LSMStore.Delete (w_store (run_world w events)) key now
     = (Err "failed to delete value in memtable: memtable is immutable",
        w_store (run_world w events), false)) /\
  (forall key : string,
     LSMStore.Get (w_store (run_world w events)) key
     = LSMStore.Get (w_store w) key).
Proof.
  pose proof (run_world_sealed events w Hsealed Hflushes) as Hlayers.
  assert (MemTable.immutable (LSMStore.memTable (w_store (run_world w events)))
          = true) as Hsealed'.
  { unfold layers in Hlayers. injection Hlayers as -> _ _ _ _. exact Hsealed. }
  split; [intros; apply Set_sealed; exact Hsealed'|].
  split; [intros; apply Delete_sealed; exact Hsealed'|].
  intros key. apply Get_layers. exact Hlayers.
Qed.

(** X15.  While the slot [immutableMemTable] holds a sealed table, a [Set]
    that fills the MemTable returns the error of the failed rotation, starts
    no flush, and leaves the store with its MemTable sealed, the written
    entry in it, and the slot and the tables unchanged. *)
Theorem LSMStore_Set_cannot_rotate_twice (store : LSMStore.t) (key : string)
    (value : list byte) (now : Z)
    (Hopen : MemTable.IsImmutable (LSMStore.memTable store) = false)
    (Hslot : slot_sealed store)
    (Hfull : MemTable.ShouldFlush
               (snd (MemTable.Set_ (LSMStore.memTable store) key value now))
             = true) :
  exists store' : LSMStore.t,
    LSMStore.Set_ store key value now
    = (Err "failed to rotate memtable: still flushing the immutable memtable, cannot rotate",
       store', false) /\
    LSMStore.memTable store'
    = MemTable.MakeImmutable
        (snd (MemTable.Set_ (LSMStore.memTable store) key value now)) /\
    LSMStore.immutableMemTable store' = LSMStore.immutableMemTable store /\
    LSMStore.sstables store' = LSMStore.sstables store.
Proof.
  unfold LSMStore.Set_.
  pose proof (MemTable_Set_open _ key value now Hopen) as Hok.
  destruct (MemTable.Set_ (LSMStore.memTable store) key value now) as [r mt'].
  cbn [fst snd] in *. subst r. cbn [LSMStore.memTable]. rewrite Hfull.
  destruct Hslot as (imm & Himm & Hs).
  unfold LSMStore.rotateMemTable. cbn [LSMStore.immutableMemTable].
  rewrite Himm, Hs. eexists. split; [reflexivity|].
  cbn. repeat split; congruence.
Qed.

Lemma LSMStore_Get_after_Set_witness :
  LSMStore.Get
    (snd (fst (LSMStore.Set_
                 (LSMStore.mk (MemTable.NewMemTable 20)
                    (Some (MemTable.MakeImmutable (MemTable.NewMemTable 20)))
                    [] 20 "data" 0)
                 "a" [x31] 1)))
    "a"
  = Some [x31].
Proof.
  apply LSMStore_Get_after_Set.
  - constructor.
  - reflexivity.
Defined.

Lemma LSMStore_Delete_uncovers_SSTable_value_witness :
  LSMStore.Get
    (snd (fst (LSMStore.Delete
                 (LSMStore.mk (MemTable.NewMemTable 500)
                    (Some (MemTable.NewMemTable 500)) [gen_old] 500 "data" 1)
                 "k" 5)))
    "k"
  = Some [x76; x30].
Proof.
  apply LSMStore_Delete_uncovers_SSTable_value.
  - constructor.
  - reflexivity.
  - reflexivity.
  - vm_compute. reflexivity.
Defined.

Lemma LSMStore_flush_never_publishes_witness :
  LSMStore.sstables
    (w_store (run_world (mkWorld store_before_flush ∅ [FlushStarted])
                [FlushMoves 0; FlushMoves 0; CallSet "b" [x32] 2]))
  = [] /\
  (slot_sealed store_before_flush ->
   LSMStore.immutableMemTable
     (w_store (run_world (mkWorld store_before_flush ∅ [FlushStarted])
                 [FlushMoves 0; FlushMoves 0; CallSet "b" [x32] 2]))
   = LSMStore.immutableMemTable store_before_flush).
Proof.
  apply (LSMStore_flush_never_publishes
           (mkWorld store_before_flush ∅ [FlushStarted])
           [FlushMoves 0; FlushMoves 0; CallSet "b" [x32] 2]).
  repeat constructor.
Defined.

Lemma LSMStore_sealed_memtable_rejects_every_write_witness :
  LSMStore.Set_
    (w_store (run_world
                (mkWorld
                   (LSMStore.mk
                      (MemTable.MakeImmutable
                         (MemTable.run 20 [MemTable.OpSet "b" [x32] 2]))
                      (LSMStore.immutableMemTable store_before_flush)
                      [] 20 "data" 0)
                   ∅ [FlushStarted])
                [FlushMoves 0; CallDelete "a" 3; FlushMoves 0]))
    "c" [x33] 4
  = (Err "failed to set value in memtable: memtable is immutable",
     w_store (run_world
                (mkWorld
                   (LSMStore.mk
                      (MemTable.MakeImmutable
                         (MemTable.run 20 [MemTable.OpSet "b" [x32] 2]))
                      (LSMStore.immutableMemTable store_before_flush)
                      [] 20 "data" 0)
                   ∅ [FlushStarted])
                [FlushMoves 0; CallDelete "a" 3; FlushMoves 0]),
     false).
Proof.
  apply (LSMStore_sealed_memtable_rejects_every_write
           (mkWorld
              (LSMStore.mk
                 (MemTable.MakeImmutable
                    (MemTable.run 20 [MemTable.OpSet "b" [x32] 2]))
                 (LSMStore.immutableMemTable store_before_flush)
                 [] 20 "data" 0)
              ∅ [FlushStarted])
           [FlushMoves 0; CallDelete "a" 3; FlushMoves 0]).
  - reflexivity.
  - repeat constructor.
Defined.

Lemma LSMStore_Set_cannot_rotate_twice_witness :
  exists store' : LSMStore.t,
    LSMStore.Set_
      (LSMStore.mk (MemTable.NewMemTable 20)
         (LSMStore.immutableMemTable store_before_flush) [] 20 "data" 0)
      "b" [x32] 2
    = (Err "failed to rotate memtable: still flushing the immutable memtable, cannot rotate",
       store', false) /\
    LSMStore.memTable store'
    = MemTable.MakeImmutable
        (snd (MemTable.Set_ (MemTable.NewMemTable 20) "b" [x32] 2)) /\
    LSMStore.immutableMemTable store'
    = LSMStore.immutableMemTable store_before_flush /\
    LSMStore.sstables store' = [].
Proof.
  apply (LSMStore_Set_cannot_rotate_twice
           (LSMStore.mk (MemTable.NewMemTable 20)
              (LSMStore.immutableMemTable store_before_flush) [] 20 "data" 0)
           "b" [x32] 2).
  - reflexivity.
  - eexists. split; reflexivity.
  - reflexivity.
Defined.

(** ** Loading the tables of a directory *)

Lemma NewLSMStore_loaded (memtableSize : Z) (dataDir : string)
    (fs : FileSystem) (store : LSMStore.t) :
  LSMStore.NewLSMStore memtableSize dataDir fs = Ok store ->
  map SSTable.filePath (LSMStore.sstables store)
  = sort_by_id (Glob (dataDir_of dataDir) "sstable-" ".db" fs).
Proof.
  unfold LSMStore.NewLSMStore, LSMStore.loadSSTables.
  cbn [LSMStore.dataDir]. fold (dataDir_of dataDir).
  set (files := Glob (dataDir_of dataDir) "sstable-" ".db" fs).
  destruct (Nat.eqb_spec (List.length files) 0) as [Hnil | Hcons].
  - intros [= <-]. apply nil_length_inv in Hnil. rewrite Hnil. reflexivity.
  - match goal with
    | |- context [LSMStore.loadSSTables_loop ?l ?f ?s] =>
        destruct (LSMStore.loadSSTables_loop l f s) as [loaded|] eqn:Hload
    end; [|discriminate].
    intros [= <-]. apply loadSSTables_loop_paths in Hload.
    exact Hload.
Qed.

Lemma sstables_open (files : list string) (fs : FileSystem) :
  forall store store' : LSMStore.t,
    LSMStore.loadSSTables_loop files fs store = Ok store' ->
    Forall (fun sst => OpenSSTable (SSTable.filePath sst) fs = Ok sst)
      (LSMStore.sstables store) ->
    Forall (fun sst => OpenSSTable (SSTable.filePath sst) fs = Ok sst)
      (LSMStore.sstables store').
Proof.
  induction files as [|file rest IH]; intros store store' Hload Hall;
    cbn [LSMStore.loadSSTables_loop] in Hload.
  - injection Hload as <-. exact Hall.
  - destruct (OpenSSTable file fs) as [sst|] eqn:Hopen; [|discriminate].
    apply IH in Hload; [exact Hload|]. cbn [LSMStore.sstables].
    apply Forall_app. split; [exact Hall|]. constructor; [|constructor].
    rewrite (OpenSSTable_filePath file fs sst Hopen). exact Hopen.
Qed.

(** X16.  When [NewLSMStore] succeeds, the tables of the store are the
    files of the data directory that match [sstable-*.db], each opened once,
    in ascending order of the ids in their names; every table is what
    [OpenSSTable] makes of its file. *)
Theorem NewLSMStore_opens_each_matching_file_once (memtableSize : Z)
    (dataDir : string) (fs : FileSystem) (store : LSMStore.t)
    (Hnew : LSMStore.NewLSMStore memtableSize dataDir fs = Ok store) :
  map SSTable.filePath (LSMStore.sstables store)
    ≡ₚ Glob (dataDir_of dataDir) "sstable-" ".db" fs /\
  StronglySorted id_le (map SSTable.filePath (LSMStore.sstables store)) /\
  Forall (fun sst => OpenSSTable (SSTable.filePath sst) fs = Ok sst)
    (LSMStore.sstables store).
Proof.
  pose proof (NewLSMStore_loaded _ _ _ _ Hnew) as Hpaths.
  split; [rewrite Hpaths; apply merge_sort_Permutation|].
  split; [rewrite Hpaths; apply StronglySorted_merge_sort; apply _|].
  revert Hnew. unfold LSMStore.NewLSMStore, LSMStore.loadSSTables.
  cbn [LSMStore.dataDir].
  destruct (_ =? _)%nat; [intros [= <-]; constructor|].
  match goal with
  | |- context [LSMStore.loadSSTables_loop ?l ?f ?s] =>
      destruct (LSMStore.loadSSTables_loop l f s) as [loaded|] eqn:Hload
  end; [|discriminate].
  intros [= <-]. eapply sstables_open; [exact Hload | constructor].
Qed.

Lemma NewLSMStore_opens_each_matching_file_once_witness :
  exists store : LSMStore.t,
    LSMStore.NewLSMStore 500 "data" two_generations = Ok store /\
    map SSTable.filePath (LSMStore.sstables store)
      ≡ₚ Glob (dataDir_of "data") "sstable-" ".db" two_generations.
Proof.
  eexists. split; [vm_compute; reflexivity|].
  apply (NewLSMStore_opens_each_matching_file_once 500 "data" two_generations).
  vm_compute. reflexivity.
Defined.

Lemma loadSSTables_loop_fails (files : list string) (fs : FileSystem) :
  forall store : LSMStore.t,
    Exists (fun file => is_ok (OpenSSTable file fs) = false) files ->
    exists e : string,
      LSMStore.loadSSTables_loop files fs store
      = Err ("failed to open sstable: " +:+ e).
Proof.
  induction files as [|file rest IH]; intros store Hbad; [inversion Hbad|].
  cbn [LSMStore.loadSSTables_loop].
  destruct (OpenSSTable file fs) as [sst|e] eqn:Hopen.
  - apply IH. inversion Hbad as [? ? Hhere | ? ? Hlater]; subst.
    + rewrite Hopen in Hhere. discriminate.
    + exact Hlater.
  - exists e. reflexivity.
Qed.

(** X17.  One file that matches [sstable-*.db] and that [OpenSSTable]
    refuses makes [NewLSMStore] fail, with the error of the load, whatever
    else the directory holds. *)
Theorem NewLSMStore_fails_on_one_bad_table (memtableSize : Z)
    (dataDir : string) (fs : FileSystem) (file : string)
    (Hlisted : file ∈ Glob (dataDir_of dataDir) "sstable-" ".db" fs)
    (Hbad : is_ok (OpenSSTable file fs) = false) :
  exists e : string,
    LSMStore.NewLSMStore memtableSize dataDir fs
    = Err ("failed to load sstables: failed to open sstable: " +:+ e).
Proof.
  unfold LSMStore.NewLSMStore, LSMStore.loadSSTables.
  cbn [LSMStore.dataDir]. fold (dataDir_of dataDir).
  set (files := Glob (dataDir_of dataDir) "sstable-" ".db" fs) in *.
  destruct (Nat.eqb_spec (List.length files) 0) as [Hnil | Hcons].
  - apply nil_length_inv in Hnil. rewrite Hnil in Hlisted. inversion Hlisted.
  - match goal with
    | |- context [LSMStore.loadSSTables_loop ?l ?f ?s] =>
        destruct (loadSSTables_loop_fails l f s) as [e ->]
    end.
    + apply Exists_exists. exists file. split; [|exact Hbad].
      unfold sort_by_id. rewrite merge_sort_Permutation. exact Hlisted.
    + exists e. reflexivity.
Qed.

Lemma NewLSMStore_fails_on_one_bad_table_witness :
  exists e : string,
    LSMStore.NewLSMStore 500 "data"
      {[ "data/sstable-0.db" := sstable_file [mkEntry "a" [x31] 1 false];
         "data/sstable-1.db" := [] ]}
    = Err ("failed to load sstables: failed to open sstable: " +:+ e).
Proof.
  apply (NewLSMStore_fails_on_one_bad_table 500 "data"
           {[ "data/sstable-0.db" := sstable_file [mkEntry "a" [x31] 1 false];
              "data/sstable-1.db" := [] ]}
           "data/sstable-1.db").
  - apply (bool_decide_unpack _). vm_compute. exact I.
  - vm_compute. reflexivity.
Defined.

Lemma parse_digits_nonneg (l : list ascii) :
  forall acc n : Z, 0 <= acc -> parse_digits l acc = Some n -> 0 <= n.
Proof.
  induction l as [|c r IH]; intros acc n Hacc Hparse; cbn [parse_digits] in Hparse.
  - injection Hparse as <-. exact Hacc.
  - destruct (digit c) as [d|] eqn:Hd; [|discriminate].
    apply (IH (acc * 10 + d)); [|exact Hparse].
    unfold digit in Hd.
    destruct ((0 <=? _) && (_ <=? 9)) eqn:Hrange; [|discriminate].
    injection Hd as <-. apply andb_prop in Hrange as [H0 _]. lia.
Qed.

Lemma Atoi_range (s : string) (n : Z) :
  Atoi s = Some n -> - 2 ^ 63 <= n < 2 ^ 63.
Proof.
  unfold Atoi. destruct (chars s) as [|c r]; [discriminate|].
  destruct (if Ascii.eqb c "-" then (true, r)
            else if Ascii.eqb c "+" then (false, r) else (false, c :: r))
    as [neg ds].
  destruct ds as [|d ds]; [discriminate|].
  destruct (parse_digits (d :: ds) 0) as [v|]; [|discriminate].
  destruct ((_ <=? _) && (_ <? _)) eqn:Hrange; [|discriminate].
  intros [= <-]. apply andb_prop in Hrange as [Hlo Hhi]. lia.
Qed.

Lemma extractSSTableId_range (fileName : string) :
  - 2 ^ 63 <= extractSSTableId fileName < 2 ^ 63.
Proof.
  unfold extractSSTableId.
  destruct (Atoi _) as [id|] eqn:Hid; [exact (Atoi_range _ _ Hid) | lia].
Qed.

Lemma loadSSTables_loop_next (files : list string) (fs : FileSystem) :
  forall store store' : LSMStore.t,
    LSMStore.loadSSTables_loop files fs store = Ok store' ->
    Forall (fun file => extractSSTableId file < 2 ^ 63 - 1) files ->
    LSMStore.nextSSTableID store <= LSMStore.nextSSTableID store' /\
    Forall (fun file => extractSSTableId file < LSMStore.nextSSTableID store')
      files.
Proof.
  induction files as [|file rest IH]; intros store store' Hload Hids;
    cbn [LSMStore.loadSSTables_loop] in Hload.
  - injection Hload as <-. split; [lia | constructor].
  - destruct (OpenSSTable file fs) as [sst|]; [|discriminate].
    apply Forall_cons in Hids as [Hid Hids].
    apply IH in Hload as [Hle Hall]; [|exact Hids].
    cbn [LSMStore.nextSSTableID] in Hle.
    pose proof (extractSSTableId_range file) as Hrange.
    rewrite int64_in_range in Hle by lia.
    destruct (Z.leb_spec (LSMStore.nextSSTableID store) (extractSSTableId file)).
    + split; [lia|]. constructor; [lia | exact Hall].
    + split; [lia|]. constructor; [lia | exact Hall].
Qed.

(** X18.  After a successful [NewLSMStore], [nextSSTableID] is not negative
    and is larger than the id in the name of every table that was loaded,
    provided no name carries the largest [int]. *)
Theorem NewLSMStore_next_id_above_loaded (memtableSize : Z)
    (dataDir : string) (fs : FileSystem) (store : LSMStore.t)
    (Hnew : LSMStore.NewLSMStore memtableSize dataDir fs = Ok store)
    (Hids : Forall (fun file => extractSSTableId file < 2 ^ 63 - 1)
              (Glob (dataDir_of dataDir) "sstable-" ".db" fs)) :
  0 <= LSMStore.nextSSTableID store /\
  Forall (fun sst =>
            extractSSTableId (SSTable.filePath sst)
            < LSMStore.nextSSTableID store)
    (LSMStore.sstables store).
Proof.
  pose proof (NewLSMStore_loaded _ _ _ _ Hnew) as Hpaths.
  revert Hnew. unfold LSMStore.NewLSMStore, LSMStore.loadSSTables.
  cbn [LSMStore.dataDir]. fold (dataDir_of dataDir).
  destruct (_ =? _)%nat.
  { intros [= <-]. cbn. split; [lia | constructor]. }
  match goal with
  | |- context [LSMStore.loadSSTables_loop ?l ?f ?s] =>
      destruct (LSMStore.loadSSTables_loop l f s) as [loaded|] eqn:Hload
  end; [|discriminate].
  intros [= <-]. apply loadSSTables_loop_next in Hload as [Hle Hall].
  - cbn [LSMStore.nextSSTableID] in Hle. split; [exact Hle|].
    rewrite <- Hpaths in Hall. rewrite Forall_fmap in Hall. exact Hall.
  - unfold sort_by_id. rewrite merge_sort_Permutation. exact Hids.
Qed.

Lemma NewLSMStore_next_id_above_loaded_witness :
  exists store : LSMStore.t,
    LSMStore.NewLSMStore 500 "data" two_generations = Ok store /\
    0 <= LSMStore.nextSSTableID store.
Proof.
  eexists. split; [vm_compute; reflexivity|].
  apply (NewLSMStore_next_id_above_loaded 500 "data" two_generations).
  - vm_compute. reflexivity.
  - apply (bool_decide_unpack _). vm_compute. exact I.
Defined.

(** ** The write-ahead log: what is written and what is recovered *)

Lemma list_byte_of_string_app (a b : string) :
  list_byte_of_string (a +:+ b) = list_byte_of_string a ++ list_byte_of_string b.
Proof.
  unfold list_byte_of_string.
  change (list_ascii_of_string (a +:+ b)) with (chars (a +:+ b)).
  rewrite chars_append, map_app. reflexivity.
Qed.

Lemma chars_of_bytes (s : string) :
  map ascii_of_byte (list_byte_of_string s) = chars s.
Proof.
  unfold list_byte_of_string, chars. rewrite map_map.
  rewrite <- (map_id (list_ascii_of_string s)) at 2.
  apply map_ext. intros c. apply ascii_of_byte_of_ascii.
Qed.

Lemma chars_string_of_list_byte (data : list byte) :
  chars (string_of_list_byte data) = map ascii_of_byte data.
Proof.
  unfold chars, string_of_list_byte.
  apply list_ascii_of_string_of_list_ascii.
Qed.

Lemma format_entry_nonempty (now : Z) (operation key value : string) :
  0 < len_bytes (list_byte_of_string (WAL.format_entry now operation key value)).
Proof.
  unfold WAL.format_entry. rewrite !list_byte_of_string_app, !len_bytes_app.
  repeat match goal with
         | |- context [len_bytes (list_byte_of_string ?s)] =>
             lazymatch goal with
             | H : 0 <= len_bytes (list_byte_of_string s) |- _ => fail
             | _ => pose proof (len_bytes_nonneg (list_byte_of_string s))
             end
         end.
  change (len_bytes (list_byte_of_string newline)) with 1 in *. lia.
Qed.

Lemma os_Write_twice (p : string) (a b : list byte) (d : Disk) :
  files (os_Write p b (os_Write p a d))
  = <[p := default [] (files d !! p) ++ a ++ b]> (files d).
Proof.
  unfold os_Write. cbn [files]. rewrite lookup_insert_eq. cbn [default].
  rewrite insert_insert_eq. f_equal. symmetry. apply app_assoc.
Qed.

(** What a [WriteString] followed by a [Flush] leaves: the buffered bytes
    and the string are in the file, and the buffer is empty. *)
Lemma WriteString_Flush (w : WAL.t) (s : list byte) (d : Disk) :
  0 < len_bytes s ->
  let '(w1, d1) := WAL.writer_WriteString w s d in
  let '(w2, d2) := WAL.writer_Flush w1 d1 in
  WAL.writer w2 = [] /\ WAL.path w2 = WAL.path w /\
  files d2
  = <[WAL.path w := default [] (files d !! WAL.path w) ++ WAL.writer w ++ s]>
      (files d).
Proof.
  intros Hs. unfold WAL.writer_WriteString.
  pose proof (len_bytes_nonneg (WAL.writer w)) as Hw.
  destruct (Z.leb_spec (len_bytes s) (defaultBufSize - len_bytes (WAL.writer w)))
    as [Hfits | Hlarge].
  - unfold WAL.writer_Flush. cbn [WAL.writer WAL.path].
    rewrite len_bytes_app.
    destruct (Z.eqb_spec (len_bytes (WAL.writer w) + len_bytes s) 0); [lia|].
    cbn [WAL.writer WAL.path]. repeat split.
  - destruct (Z.eqb_spec (len_bytes (WAL.writer w)) 0) as [Hempty | Hfull].
    + unfold WAL.writer_Flush. cbn [WAL.writer WAL.path].
      rewrite Hempty. cbn [Z.eqb].
      assert (WAL.writer w = []) as ->.
      { destruct (WAL.writer w); [reflexivity|].
        unfold len_bytes in Hempty. cbn [List.length] in Hempty. lia. }
      destruct w as [buffer p]. cbn [WAL.writer WAL.path] in *.
      split; [reflexivity|]. split; [reflexivity|].
      unfold os_Write. cbn [files]. reflexivity.
    + set (available := Z.to_nat (defaultBufSize - len_bytes (WAL.writer w))).
      assert (0 < len_bytes (drop available s)) as Hrest.
      { unfold len_bytes in *. rewrite length_drop. subst available.
        unfold defaultBufSize in *. lia. }
      destruct (Z.leb_spec (len_bytes (drop available s)) defaultBufSize).
      * unfold WAL.writer_Flush. cbn [WAL.writer WAL.path].
        destruct (Z.eqb_spec (len_bytes (drop available s)) 0); [lia|].
        cbn [WAL.writer WAL.path].
        split; [reflexivity|]. split; [reflexivity|].
        rewrite os_Write_twice, <- app_assoc, take_drop. reflexivity.
      * unfold WAL.writer_Flush. cbn [WAL.writer WAL.path len_bytes List.length].
        cbn [Z.of_nat Z.eqb WAL.writer WAL.path].
        split; [reflexivity|]. split; [reflexivity|].
        rewrite os_Write_twice, <- app_assoc, take_drop. reflexivity.
Qed.

Lemma WriteEntry_appends (w : WAL.t) (operation key value : string) (now : Z)
    (d : Disk) :
  let '(r, w', d') := WAL.WriteEntry w operation key value now d in
  r = Ok tt /\ WAL.writer w' = [] /\ WAL.path w' = WAL.path w /\
  files d'
  = <[WAL.path w :=
        default [] (files d !! WAL.path w) ++ WAL.writer w ++
        list_byte_of_string (WAL.format_entry now operation key value)]>
      (files d).
Proof.
  unfold WAL.WriteEntry.
  pose proof (WriteString_Flush w
                (list_byte_of_string (WAL.format_entry now operation key value))
                d (format_entry_nonempty now operation key value)) as H.
  destruct (WAL.writer_WriteString w _ d) as [w1 d1].
  destruct (WAL.writer_Flush w1 d1) as [w2 d2].
  split; [reflexivity | exact H].
Qed.

(** X19.  [WriteEntry] returns no error and leaves the buffer of the writer
    empty; the log file then holds what it held, what the buffer held, and
    the line of the record, in this order, and no other file has changed. *)
Theorem WAL_WriteEntry_appends_one_line (w : WAL.t)
    (operation key value : string) (now : Z) (d : Disk) :
  let '(r, w', d') := WAL.WriteEntry w operation key value now d in
  r = Ok tt /\ WAL.writer w' = [] /\
  files d' !! WAL.path w
  = Some (default [] (files d !! WAL.path w) ++ WAL.writer w ++
          list_byte_of_string (WAL.format_entry now operation key value)) /\
  forall other : string,
    other <> WAL.path w -> files d' !! other = files d !! other.
Proof.
  pose proof (WriteEntry_appends w operation key value now d) as H.
  destruct (WAL.WriteEntry w operation key value now d) as [[r w'] d'].
  destruct H as (Hr & Hw & _ & Hfiles).
  split; [exact Hr|]. split; [exact Hw|]. rewrite Hfiles.
  split; [apply lookup_insert_eq|].
  intros other Hother. apply lookup_insert_ne. congruence.
Qed.

Lemma pretty_N_go_plain (P : ascii -> Prop) :
  (forall n : N, P (pretty_N_char n)) ->
  forall (x : N) (s : string),
    Forall P (chars s) -> Forall P (chars (pretty_N_go x s)).
Proof.
  intros Hdigit x. induction (N.lt_wf_0 x) as [x _ IH]. intros s Hs.
  destruct (N.eq_dec x 0%N) as [-> | Hx]; [rewrite pretty_N_go_0; exact Hs|].
  rewrite pretty_N_go_step by lia. apply IH.
  - apply N.div_lt; lia.
  - constructor; [apply Hdigit | exact Hs].
Qed.

Lemma pretty_Z_plain (P : ascii -> Prop) (z : Z) :
  (forall n : N, P (pretty_N_char n)) -> P "-"%char ->
  Forall P (chars (pretty z)).
Proof.
  intros Hdigit Hdash.
  assert (forall p : positive, Forall P (chars (pretty p))) as Hpos.
  { intros p. unfold pretty, pretty_positive, pretty, pretty_N.
    destruct (decide (N.pos p = 0%N)); [discriminate|].
    apply pretty_N_go_plain; [exact Hdigit | constructor]. }
  destruct z as [|p|p]; unfold pretty, pretty_Z.
  - constructor; [apply (Hdigit 0%N) | constructor].
  - apply Hpos.
  - rewrite chars_append. apply Forall_app. split; [|apply Hpos].
    constructor; [exact Hdash | constructor].
Qed.

Lemma pretty_plain (z : Z) : Forall plain (chars (pretty z)).
Proof.
  apply pretty_Z_plain.
  - intros n. unfold pretty_N_char, plain.
    repeat case_match; split; discriminate.
  - split; discriminate.
Qed.

Lemma cut_at (sep : ascii) (before after : list ascii) :
  sep ∉ before -> cut sep (before ++ sep :: after) = Some (before, after).
Proof.
  induction before as [|c r IH]; intros Hnot; cbn [cut app].
  - rewrite Ascii.eqb_refl. reflexivity.
  - apply not_elem_of_cons in Hnot as [Hne Hr].
    destruct (Ascii.eqb_spec c sep) as [-> | _]; [contradiction|].
    rewrite IH by exact Hr. reflexivity.
Qed.

Lemma string_of_chars (s : string) : string_of_list_ascii (chars s) = s.
Proof. apply string_of_list_ascii_of_string. Qed.

Lemma plain_no_bar (l : list ascii) : Forall plain l -> bar ∉ l.
Proof.
  intros Hall Hin. rewrite Forall_forall in Hall.
  destruct (Hall bar Hin) as [Hne _]. contradiction.
Qed.

Lemma plain_no_line_feed (l : list ascii) : Forall plain l -> line_feed ∉ l.
Proof.
  intros Hall Hin. rewrite Forall_forall in Hall.
  destruct (Hall line_feed Hin) as [_ Hne]. contradiction.
Qed.

Lemma chars_format_entry (r : LogRecord) :
  chars (WAL.format_entry (r_now r) (r_operation r) (r_key r) (r_value r))
  = line_of r ++ [line_feed].
Proof.
  unfold WAL.format_entry, line_of. rewrite !chars_append.
  change (chars "|") with [bar]. change (chars newline) with [line_feed].
  repeat (rewrite <- app_assoc || rewrite <- app_comm_cons).
  reflexivity.
Qed.

Lemma SplitN_line_of (r : LogRecord) :
  bar ∉ chars (r_operation r) -> bar ∉ chars (r_key r) ->
  SplitN (string_of_list_ascii (line_of r)) "|" 4
  = [pretty (r_now r); r_operation r; r_key r; r_value r].
Proof.
  intros Hop Hkey. unfold SplitN, chars.
  rewrite list_ascii_of_string_of_list_ascii. unfold line_of.
  cbn [SplitN_chars].
  rewrite cut_at by (apply plain_no_bar, pretty_plain).
  rewrite cut_at by exact Hop. rewrite cut_at by exact Hkey.
  rewrite !string_of_chars. reflexivity.
Qed.

Lemma Recover_line_replays (r : LogRecord) (lineNum : Z) (store : Store.t)
    (out : list string) :
  bar ∉ chars (r_operation r) -> bar ∉ chars (r_key r) ->
  snd (fst (WAL.Recover_line (lineNum, store, out)
              (string_of_list_ascii (line_of r))))
  = replay store r.
Proof.
  intros Hop Hkey. unfold WAL.Recover_line, replay.
  rewrite (SplitN_line_of r Hop Hkey). cbn [List.length Nat.ltb Nat.leb nth].
  destruct (String.eqb (r_operation r) "SET"); [reflexivity|].
  destruct (String.eqb (r_operation r) "DEL"); reflexivity.
Qed.

Lemma dropCR_keeps (l : list ascii) :
  last l <> Some carriage_return -> dropCR l = l.
Proof.
  intros Hlast. unfold dropCR.
  destruct (reverse l) as [|c r] eqn:Hrev; [reflexivity|].
  destruct (Ascii.eqb_spec c carriage_return) as [-> | _]; [|reflexivity].
  exfalso. apply Hlast.
  rewrite <- (reverse_involutive l), Hrev, reverse_cons.
  apply last_snoc.
Qed.

Lemma Scan_lines_line (line : list ascii) :
  forall (rest cur : list ascii),
    line_feed ∉ line ->
    Z.of_nat (List.length (cur ++ line)) < MaxScanTokenSize ->
    Scan_lines (line ++ line_feed :: rest) cur
    = (string_of_list_ascii (dropCR (cur ++ line)) :: fst (Scan_lines rest []),
       snd (Scan_lines rest [])).
Proof.
  induction line as [|c line IH]; intros rest cur Hnot Hlen.
  - cbn [app Scan_lines]. change (ascii_of_nat 10) with line_feed.
    rewrite Ascii.eqb_refl. rewrite app_nil_r in *.
    destruct (Z.leb_spec MaxScanTokenSize (Z.of_nat (List.length cur))); [lia|].
    destruct (Scan_lines rest []) as [lines tooLong]. reflexivity.
  - apply not_elem_of_cons in Hnot as [Hne Hnot].
    cbn [app Scan_lines]. change (ascii_of_nat 10) with line_feed.
    destruct (Ascii.eqb_spec c line_feed) as [-> | _]; [contradiction|].
    rewrite IH.
    + rewrite <- app_assoc. reflexivity.
    + exact Hnot.
    + rewrite <- app_assoc. exact Hlen.
Qed.

Lemma length_chars (s : string) : List.length (chars s) = String.length s.
Proof.
  unfold chars. induction s as [|c s IH]; cbn; [|rewrite IH]; reflexivity.
Qed.

Lemma loggable_line (r : LogRecord) :
  loggable r ->
  (line_feed ∉ line_of r) /\
  Z.of_nat (List.length (line_of r)) < MaxScanTokenSize /\
  last (line_of r) <> Some carriage_return.
Proof.
  intros (Hop_bar & Hop_lf & Hkey_bar & Hkey_lf & Hval_lf & Hval_cr & Hlen).
  split; [|split].
  - unfold line_of. intros Hin.
    repeat (apply elem_of_app in Hin as [Hin | Hin]
            || apply elem_of_cons in Hin as [Hin | Hin]);
      try discriminate; try contradiction.
    exact (plain_no_line_feed _ (pretty_plain (r_now r)) Hin).
  - unfold len_string in Hlen. rewrite <- length_chars, chars_format_entry in Hlen.
    rewrite length_app in Hlen. cbn [List.length] in Hlen. lia.
  - assert (line_of r
            = (chars (pretty (r_now r)) ++ bar :: chars (r_operation r) ++
               bar :: chars (r_key r)) ++ bar :: chars (r_value r)) as ->.
    { unfold line_of.
      repeat (rewrite <- app_assoc || rewrite <- app_comm_cons). reflexivity. }
    rewrite last_app_cons.
    destruct (chars (r_value r)) as [|c v]; [discriminate|].
    change (last (bar :: c :: v)) with (last (c :: v)). exact Hval_cr.
Qed.

Lemma Scan_lines_records (records : list LogRecord) :
  Forall loggable records ->
  Scan_lines (concat (map (fun r => line_of r ++ [line_feed]) records)) []
  = (map (fun r => string_of_list_ascii (line_of r)) records, false).
Proof.
  induction 1 as [|r records Hr _ IH]; [reflexivity|].
  destruct (loggable_line r Hr) as (Hlf & Hlen & Hcr).
  cbn [map concat]. rewrite <- app_assoc. cbn [app].
  rewrite Scan_lines_line by assumption.
  rewrite IH. cbn [fst snd app]. rewrite dropCR_keeps by exact Hcr.
  reflexivity.
Qed.

Lemma fold_Recover_line_replays (records : list LogRecord) :
  Forall loggable records ->
  forall (lineNum : Z) (store : Store.t) (out : list string),
    snd (fst (fold_left WAL.Recover_line
                (map (fun r => string_of_list_ascii (line_of r)) records)
                (lineNum, store, out)))
    = fold_left replay records store.
Proof.
  induction 1 as [|r records Hr _ IH]; intros lineNum store out; [reflexivity|].
  cbn [map fold_left].
  destruct Hr as (Hop & _ & Hkey & _).
  pose proof (Recover_line_replays r lineNum store out Hop Hkey) as Hstep.
  destruct (WAL.Recover_line (lineNum, store, out) _) as [[n s] o].
  cbn [fst snd] in Hstep. subst s. apply IH.
Qed.

Lemma write_records_file (records : list LogRecord) :
  forall (w : WAL.t) (d : Disk) (old : list byte),
    WAL.writer w = [] -> files d !! WAL.path w = Some old ->
    WAL.path (fst (fold_left write_record records (w, d))) = WAL.path w /\
    files (snd (fold_left write_record records (w, d))) !! WAL.path w
    = Some (old ++
            concat (map (fun r =>
                           list_byte_of_string
                             (WAL.format_entry (r_now r) (r_operation r)
                                (r_key r) (r_value r)))
                      records)).
Proof.
  induction records as [|r records IH]; intros w d old Hw Hold.
  - cbn [fold_left map concat fst snd]. rewrite app_nil_r.
    split; [reflexivity | exact Hold].
  - cbn [fold_left map concat].
    pose proof (WriteEntry_appends w (r_operation r) (r_key r) (r_value r)
                  (r_now r) d) as H.
    assert (write_record (w, d) r
            = (snd (fst (WAL.WriteEntry w (r_operation r) (r_key r) (r_value r)
                           (r_now r) d)),
               snd (WAL.WriteEntry w (r_operation r) (r_key r) (r_value r)
                      (r_now r) d))) as ->.
    { unfold write_record. cbn [fst snd].
      destruct (WAL.WriteEntry w _ _ _ _ d) as [[res w'] d']. reflexivity. }
    destruct (WAL.WriteEntry w _ _ _ _ d) as [[res w'] d']. cbn [fst snd].
    destruct H as (_ & Hw' & Hpath & Hfiles).
    destruct (IH w' d' (old ++ list_byte_of_string
                          (WAL.format_entry (r_now r) (r_operation r)
                             (r_key r) (r_value r)))) as [Hp Hf].
    + exact Hw'.
    + rewrite Hfiles, Hpath, lookup_insert_eq, Hold, Hw. reflexivity.
    + rewrite Hpath in Hp, Hf. split; [exact Hp|].
      rewrite Hf, <- app_assoc. reflexivity.
Qed.

Lemma NewWAL_starts_empty (path : string) (d : Disk) :
  default [] (files d !! path) = [] ->
  files (snd (WAL.NewWAL path d)) !! path = Some [].
Proof.
  intros Hnew. unfold WAL.NewWAL. cbn [snd files].
  destruct (files d !! path) as [old|] eqn:Hold.
  - simpl in Hnew. subst old. exact Hold.
  - apply lookup_insert_eq.
Qed.

Lemma chars_of_log (records : list LogRecord) :
  chars (string_of_list_byte
           (concat (map (fun r =>
                           list_byte_of_string
                             (WAL.format_entry (r_now r) (r_operation r)
                                (r_key r) (r_value r)))
                      records)))
  = concat (map (fun r => line_of r ++ [line_feed]) records).
Proof.
  rewrite chars_string_of_list_byte.
  induction records as [|r records IH]; [reflexivity|].
  cbn [map concat]. rewrite map_app, IH, chars_of_bytes, chars_format_entry.
  reflexivity.
Qed.

(** X20.  Recovery replays what was written.  Records written with
    [WriteEntry] to a new log, none of which has a separator in its
    operation or key, a line end in a field, a carriage return at the end of
    its value, or a line longer than the scanner holds, are read back by
    [Recover] without error, and the store is then the one that results
    from applying the records in order: [SET] stores the value, [DEL]
    removes the key, any other operation does nothing. *)
Theorem WAL_Recover_replays_written_records (path : string) (d : Disk)
    (records : list LogRecord) (store : Store.t)
    (Hnew : default [] (files d !! path) = [])
    (Hrecords : Forall loggable records) :
  let written := fold_left write_record records (WAL.NewWAL path d) in
  WAL.err (WAL.Recover (fst written) store (snd written)) = None /\
  WAL.store (WAL.Recover (fst written) store (snd written))
  = fold_left replay records store.
Proof.
  cbn zeta.
  destruct (write_records_file records (fst (WAL.NewWAL path d))
              (snd (WAL.NewWAL path d)) [] eq_refl
              (NewWAL_starts_empty path d Hnew)) as [Hpath Hfile].
  change (fst (WAL.NewWAL path d), snd (WAL.NewWAL path d))
    with (WAL.NewWAL path d) in Hpath, Hfile.
  cbn [app] in Hfile. unfold WAL.Recover. rewrite Hpath.
  change (WAL.path (fst (WAL.NewWAL path d))) with path in *.
  rewrite Hfile, chars_of_log, (Scan_lines_records records Hrecords).
  pose proof (fold_Recover_line_replays records Hrecords 0 store []) as Hfold.
  destruct (fold_left WAL.Recover_line _ (0, store, [])) as [[n s] o].
  cbn [fst snd] in Hfold. cbn [WAL.err WAL.store].
  split; [reflexivity | exact Hfold].
Qed.

Lemma WAL_Recover_replays_written_records_witness :
  WAL.store
    (WAL.Recover
       (fst (fold_left write_record
               [mkLogRecord "SET" "a" "1" 17; mkLogRecord "SET" "b" "2" 18;
                mkLogRecord "DEL" "a" "" 19]
               (WAL.NewWAL "wal.log" (mkDisk ∅ []))))
       (Store.mk ∅)
       (snd (fold_left write_record
               [mkLogRecord "SET" "a" "1" 17; mkLogRecord "SET" "b" "2" 18;
                mkLogRecord "DEL" "a" "" 19]
               (WAL.NewWAL "wal.log" (mkDisk ∅ [])))))
  = fold_left replay
      [mkLogRecord "SET" "a" "1" 17; mkLogRecord "SET" "b" "2" 18;
       mkLogRecord "DEL" "a" "" 19]
      (Store.mk ∅).
Proof.
  apply (WAL_Recover_replays_written_records "wal.log" (mkDisk ∅ [])
           [mkLogRecord "SET" "a" "1" 17; mkLogRecord "SET" "b" "2" 18;
            mkLogRecord "DEL" "a" "" 19]
           (Store.mk ∅)).
  - reflexivity.
  - repeat constructor;
      try (apply (bool_decide_unpack _); vm_compute; exact I);
      try (vm_compute; congruence).
Defined.

Lemma format_entry_bar (now : Z) (operation key1 key2 value : string) :
  WAL.format_entry now operation (key1 +:+ "|" +:+ key2) value
  = WAL.format_entry now operation key1 (key2 +:+ "|" +:+ value).
Proof.
  rewrite <- (string_of_chars (WAL.format_entry _ _ (_ +:+ _) value)).
  rewrite <- (string_of_chars (WAL.format_entry _ _ key1 _)). f_equal.
  unfold WAL.format_entry. rewrite !chars_append, <- !app_assoc. reflexivity.
Qed.

(** X21.  The log does not escape its separator.  A [SET] of the key
    [key1|key2] with a value is written as the same line as a [SET] of the
    key [key1] with the value [key2|value], and [Recover] reads it as the
    latter: the recovered store has [key1], bound to [key2|value]. *)
Theorem WAL_bar_in_key_moves_to_value (path : string) (d : Disk)
    (key1 key2 value : string) (now : Z) (store : Store.t)
    (Hnew : default [] (files d !! path) = [])
    (Hread : loggable (mkLogRecord "SET" key1 (key2 +:+ "|" +:+ value) now)) :
  let written :=
    write_record (WAL.NewWAL path d)
      (mkLogRecord "SET" (key1 +:+ "|" +:+ key2) value now) in
  WAL.store (WAL.Recover (fst written) store (snd written))
  = snd (Store.Set_ store key1 (key2 +:+ "|" +:+ value)).
Proof.
  cbn zeta.
  set (r := mkLogRecord "SET" key1 (key2 +:+ "|" +:+ value) now) in *.
  assert (write_record (WAL.NewWAL path d)
            (mkLogRecord "SET" (key1 +:+ "|" +:+ key2) value now)
          = fold_left write_record [r] (WAL.NewWAL path d)) as ->.
  { unfold write_record, WAL.WriteEntry. subst r.
    cbn [fold_left r_operation r_key r_value r_now].
    rewrite format_entry_bar. reflexivity. }
  destruct (write_records_file [r] (fst (WAL.NewWAL path d))
              (snd (WAL.NewWAL path d)) [] eq_refl
              (NewWAL_starts_empty path d Hnew)) as [Hpath Hfile].
  change (fst (WAL.NewWAL path d), snd (WAL.NewWAL path d))
    with (WAL.NewWAL path d) in Hpath, Hfile.
  cbn [app] in Hfile. unfold WAL.Recover. rewrite Hpath.
  change (WAL.path (fst (WAL.NewWAL path d))) with path in *.
  assert (Forall loggable [r]) as Hrecords by (constructor; [exact Hread | constructor]).
  rewrite Hfile, chars_of_log, (Scan_lines_records [r] Hrecords).
  pose proof (fold_Recover_line_replays [r] Hrecords 0 store []) as Hfold.
  destruct (fold_left WAL.Recover_line _ (0, store, [])) as [[n s] o].
  cbn [fst snd] in Hfold. cbn [WAL.store]. rewrite Hfold. reflexivity.
Qed.

Lemma WAL_bar_in_key_moves_to_value_witness :
  WAL.store
    (WAL.Recover
       (fst (write_record (WAL.NewWAL "wal.log" (mkDisk ∅ []))
               (mkLogRecord "SET" ("a" +:+ "|" +:+ "b") "c" 17)))
       (Store.mk ∅)
       (snd (write_record (WAL.NewWAL "wal.log" (mkDisk ∅ []))
               (mkLogRecord "SET" ("a" +:+ "|" +:+ "b") "c" 17))))
  = snd (Store.Set_ (Store.mk ∅) "a" ("b" +:+ "|" +:+ "c")).
Proof.
  apply (WAL_bar_in_key_moves_to_value "wal.log" (mkDisk ∅ []) "a" "b" "c" 17
           (Store.mk ∅)).
  - reflexivity.
  - repeat split;
      try (apply (bool_decide_unpack _); vm_compute; exact I);
      try (vm_compute; congruence).
Defined.

Lemma Scan_lines_too_long (line : list ascii) :
  forall (rest cur : list ascii),
    line_feed ∉ line ->
    MaxScanTokenSize <= Z.of_nat (List.length (cur ++ line)) ->
    Scan_lines (line ++ line_feed :: rest) cur = ([], true).
Proof.
  induction line as [|c line IH]; intros rest cur Hnot Hlen.
  - cbn [app Scan_lines]. change (ascii_of_nat 10) with line_feed.
    rewrite Ascii.eqb_refl. rewrite app_nil_r in Hlen.
    destruct (Z.leb_spec MaxScanTokenSize (Z.of_nat (List.length cur)));
      [reflexivity | lia].
  - apply not_elem_of_cons in Hnot as [Hne Hnot].
    cbn [app Scan_lines]. change (ascii_of_nat 10) with line_feed.
    destruct (Ascii.eqb_spec c line_feed) as [-> | _]; [contradiction|].
    apply IH; [exact Hnot|]. rewrite <- app_assoc. exact Hlen.
Qed.

Lemma too_long_line (r : LogRecord) :
  too_long r ->
  (line_feed ∉ line_of r) /\
  MaxScanTokenSize <= Z.of_nat (List.length (line_of r)).
Proof.
  intros (Hop & Hkey & Hval & Hlen). split.
  - unfold line_of. intros Hin.
    repeat (apply elem_of_app in Hin as [Hin | Hin]
            || apply elem_of_cons in Hin as [Hin | Hin]);
      try discriminate; try contradiction.
    exact (plain_no_line_feed _ (pretty_plain (r_now r)) Hin).
  - unfold len_string in Hlen. rewrite <- length_chars, chars_format_entry in Hlen.
    rewrite length_app in Hlen. cbn [List.length] in Hlen. lia.
Qed.

Lemma Scan_lines_until_too_long (good : list LogRecord) (long : LogRecord)
    (rest : list ascii) :
  Forall loggable good -> too_long long ->
  Scan_lines
    (concat (map (fun r => line_of r ++ [line_feed]) good)
     ++ line_of long ++ line_feed :: rest) []
  = (map (fun r => string_of_list_ascii (line_of r)) good, true).
Proof.
  intros Hgood Hlong. induction Hgood as [|r good Hr _ IH].
  - cbn [map concat app]. destruct (too_long_line long Hlong) as [Hlf Hlen].
    apply Scan_lines_too_long; assumption.
  - destruct (loggable_line r Hr) as (Hlf & Hlen & Hcr).
    cbn [map concat]. rewrite <- !app_assoc. cbn [app].
    rewrite Scan_lines_line by assumption.
    rewrite IH. cbn [fst snd app].
    rewrite dropCR_keeps by exact Hcr. reflexivity.
Qed.

(** X22.  A record whose line has [MaxScanTokenSize] bytes or more is
    written by [WriteEntry] like any other and makes [Recover] fail: the
    records before it are replayed, the scanner stops at it with its
    token-too-long error, and the records after it are not read. *)
Theorem WAL_Recover_stops_at_long_record (path : string) (d : Disk)
    (good : list LogRecord) (long : LogRecord) (more : list LogRecord)
    (store : Store.t)
    (Hnew : default [] (files d !! path) = [])
    (Hgood : Forall loggable good)
    (Hlong : too_long long) :
  let written :=
    fold_left write_record (good ++ long :: more) (WAL.NewWAL path d) in
  WAL.err (WAL.Recover (fst written) store (snd written))
  = Some "error reading WAL: bufio.Scanner: token too long" /\
  WAL.store (WAL.Recover (fst written) store (snd written))
  = fold_left replay good store.
Proof.
  cbn zeta.
  destruct (write_records_file (good ++ long :: more) (fst (WAL.NewWAL path d))
              (snd (WAL.NewWAL path d)) [] eq_refl
              (NewWAL_starts_empty path d Hnew)) as [Hpath Hfile].
  change (fst (WAL.NewWAL path d), snd (WAL.NewWAL path d))
    with (WAL.NewWAL path d) in Hpath, Hfile.
  cbn [app] in Hfile. unfold WAL.Recover. rewrite Hpath.
  change (WAL.path (fst (WAL.NewWAL path d))) with path in *.
  rewrite Hfile, chars_of_log, map_app, concat_app. cbn [map concat].
  rewrite <- (app_assoc (line_of long)). cbn [app].
  rewrite (Scan_lines_until_too_long good long _ Hgood Hlong).
  pose proof (fold_Recover_line_replays good Hgood 0 store []) as Hfold.
  destruct (fold_left WAL.Recover_line _ (0, store, [])) as [[n s] o].
  cbn [fst snd] in Hfold. cbn [WAL.err WAL.store].
  split; [reflexivity | exact Hfold].
Qed.

Lemma WAL_Recover_stops_at_long_record_witness :
  WAL.err
    (WAL.Recover
       (fst (fold_left write_record
               ([mkLogRecord "SET" "a" "1" 17]
                ++ mkLogRecord "SET" "b" long_value 18
                   :: [mkLogRecord "SET" "c" "3" 19])
               (WAL.NewWAL "wal.log" (mkDisk ∅ []))))
       (Store.mk ∅)
       (snd (fold_left write_record
               ([mkLogRecord "SET" "a" "1" 17]
                ++ mkLogRecord "SET" "b" long_value 18
                   :: [mkLogRecord "SET" "c" "3" 19])
               (WAL.NewWAL "wal.log" (mkDisk ∅ [])))))
  = Some "error reading WAL: bufio.Scanner: token too long".
Proof.
  apply (WAL_Recover_stops_at_long_record "wal.log" (mkDisk ∅ [])
           [mkLogRecord "SET" "a" "1" 17]
           (mkLogRecord "SET" "b" long_value 18)
           [mkLogRecord "SET" "c" "3" 19] (Store.mk ∅)).
  - reflexivity.
  - repeat constructor;
      try (apply (bool_decide_unpack _); vm_compute; exact I);
      try (vm_compute; congruence).
  - repeat split;
      try (apply (bool_decide_unpack _); vm_compute; exact I);
      try (vm_compute; reflexivity).
Defined.

(** ** The server after [NewStore] *)

Lemma Flush_closed (l : LogFile.t) (d : Disk) :
  log_closed l ->
  let '(r, l', d') := LogFile.Flush l d in
  d' = d /\ LogFile.path l' = LogFile.path l /\ log_closed l' /\
  (r = Ok tt /\ LogFile.buffered l = [] /\ l' = l \/
   r = Err (write_on_closed (LogFile.path l))).
Proof.
  intros [Hclosed Herr]. unfold LogFile.Flush.
  destruct Herr as [Herr | Herr]; rewrite Herr.
  - destruct (Z.eqb_spec (len_bytes (LogFile.buffered l)) 0) as [Hempty | Hfull].
    + split; [reflexivity|]. split; [reflexivity|].
      split; [split; [exact Hclosed | left; exact Herr]|].
      left. split; [reflexivity|]. split; [|reflexivity].
      destruct (LogFile.buffered l); [reflexivity|].
      unfold len_bytes in Hempty. cbn [List.length] in Hempty. lia.
    + unfold LogFile.file_Write. rewrite Hclosed.
      split; [reflexivity|]. split; [reflexivity|].
      split; [|right; reflexivity].
      split; [exact Hclosed | right; reflexivity].
  - split; [reflexivity|]. split; [reflexivity|].
    split; [|right; reflexivity].
    split; [exact Hclosed | right; exact Herr].
Qed.

Lemma WriteEntry_closed (l : LogFile.t) (operation key value : string)
    (now : Z) (d : Disk) :
  log_closed l ->
  let '(r, l', d') := LogFile.WriteEntry l operation key value now d in
  r = Err (write_on_closed (LogFile.path l)) /\ d' = d /\
  LogFile.path l' = LogFile.path l /\ log_closed l'.
Proof.
  intros [Hclosed Herr].
  unfold LogFile.WriteEntry, LogFile.WriteString.
  pose proof (format_entry_nonempty now operation key value) as Hs.
  set (s := list_byte_of_string (WAL.format_entry now operation key value)) in *.
  pose proof (len_bytes_nonneg (LogFile.buffered l)) as Hb.
  destruct Herr as [Herr | Herr]; rewrite Herr.
  - destruct (Z.leb_spec (len_bytes s)
                (defaultBufSize - len_bytes (LogFile.buffered l))).
    + unfold LogFile.Flush, LogFile.with_buffer, LogFile.buffered.
      cbn [LogFile.err LogFile.wal WAL.writer]. rewrite Herr.
      fold (LogFile.buffered l). rewrite len_bytes_app.
      destruct (Z.eqb_spec (len_bytes (LogFile.buffered l) + len_bytes s) 0);
        [lia|].
      unfold LogFile.file_Write. cbn [LogFile.closed]. rewrite Hclosed.
      repeat split; try reflexivity; try exact Hclosed. right. reflexivity.
    + destruct (Z.eqb_spec (len_bytes (LogFile.buffered l)) 0).
      * unfold LogFile.file_Write. rewrite Hclosed.
        repeat split; try reflexivity; try exact Hclosed. right. reflexivity.
      * unfold LogFile.Flush, LogFile.with_buffer, LogFile.buffered.
        cbn [LogFile.err LogFile.wal WAL.writer]. rewrite Herr.
        fold (LogFile.buffered l). rewrite len_bytes_app.
        pose proof (len_bytes_nonneg
                      (take (Z.to_nat (defaultBufSize
                                       - len_bytes (LogFile.buffered l))) s)).
        destruct (Z.eqb_spec
                    (len_bytes (LogFile.buffered l)
                     + len_bytes (take (Z.to_nat (defaultBufSize
                                        - len_bytes (LogFile.buffered l))) s))
                    0); [lia|].
        unfold LogFile.file_Write. cbn [LogFile.closed]. rewrite Hclosed.
        repeat split; try reflexivity; try exact Hclosed. right. reflexivity.
  - repeat split; try reflexivity; try exact Hclosed. right. exact Herr.
Qed.

Lemma executeCommand_closed (ToUpper : string -> string) (args : list string)
    (now : Z) (s : Server.t) (d : Disk) :
  log_closed (Server.log s) ->
  let '(reply, s', d') := Server.executeCommand ToUpper args now s d in
  Server.data s' = Server.data s /\ d' = d /\
  LogFile.path (Server.log s') = LogFile.path (Server.log s) /\
  log_closed (Server.log s') /\
  (is_write ToUpper args = true ->
   reply
   = Server.error_reply (write_on_closed (LogFile.path (Server.log s)))).
Proof.
  intros Hlog. unfold Server.executeCommand, is_write.
  destruct args as [|arg0 args].
  { repeat split; try reflexivity; try apply Hlog. discriminate. }
  destruct (String.eqb_spec (ToUpper arg0) "PING") as [Hping | _].
  { rewrite Hping. repeat split; try reflexivity; try apply Hlog. discriminate. }
  destruct (String.eqb_spec (ToUpper arg0) "ECHO") as [Hecho | _].
  { rewrite Hecho.
    destruct (_ <? 2)%nat; repeat split; try reflexivity; try apply Hlog;
      discriminate. }
  destruct (String.eqb_spec (ToUpper arg0) "SET") as [Hset | _].
  { rewrite Hset. cbn [String.eqb Ascii.eqb Bool.eqb andb orb].
    destruct (Nat.ltb_spec (List.length (arg0 :: args)) 3) as [Hfew | Hall].
    - destruct (Nat.leb_spec 3 (List.length (arg0 :: args))); [lia|].
      repeat split; try reflexivity; try apply Hlog. discriminate.
    - pose proof (WriteEntry_closed (Server.log s) "SET" (nth 1 (arg0 :: args) "")
                    (nth 2 (arg0 :: args) "") now d Hlog) as H.
      destruct (LogFile.WriteEntry _ _ _ _ now d) as [[r l'] d'].
      destruct H as (-> & -> & Hpath & Hlog').
      cbn [Server.data Server.log]. repeat split; try assumption; apply Hlog'. }
  destruct (String.eqb_spec (ToUpper arg0) "GET") as [Hget | _].
  { rewrite Hget.
    destruct (_ <? 2)%nat; [|destruct (Store.Get _ _)];
      repeat split; try reflexivity; try apply Hlog; discriminate. }
  destruct (String.eqb_spec (ToUpper arg0) "DEL") as [Hdel | _].
  { cbn [andb orb].
    destruct (Nat.ltb_spec (List.length (arg0 :: args)) 2) as [Hfew | Hall].
    - destruct (Nat.leb_spec 2 (List.length (arg0 :: args))); [lia|].
      repeat split; try reflexivity; try apply Hlog. discriminate.
    - pose proof (WriteEntry_closed (Server.log s) "DEL" (nth 1 (arg0 :: args) "")
                    "" now d Hlog) as H.
      destruct (LogFile.WriteEntry _ _ _ _ now d) as [[r l'] d'].
      destruct H as (-> & -> & Hpath & Hlog').
      cbn [Server.data Server.log]. repeat split; try assumption; apply Hlog'. }
  cbn [andb orb]. repeat split; try reflexivity; try apply Hlog. discriminate.
Qed.

Lemma serve_closed (ToUpper : string -> string)
    (commands : list (list string * Z)) :
  forall (s : Server.t) (d : Disk),
    log_closed (Server.log s) ->
    let '(replies, s', d') := Server.serve ToUpper commands s d in
    Server.data s' = Server.data s /\ d' = d /\
    LogFile.path (Server.log s') = LogFile.path (Server.log s) /\
    log_closed (Server.log s') /\
    Forall2 (fun command reply =>
               is_write ToUpper (fst command) = true ->
               reply
               = Server.error_reply
                   (write_on_closed (LogFile.path (Server.log s))))
      commands replies.
Proof.
  induction commands as [|[args now] rest IH]; intros s d Hlog.
  - cbn [Server.serve]. repeat split; try reflexivity; try apply Hlog.
    constructor.
  - cbn [Server.serve].
    pose proof (executeCommand_closed ToUpper args now s d Hlog) as Hstep.
    destruct (Server.executeCommand ToUpper args now s d) as [[reply s1] d1].
    destruct Hstep as (Hdata & -> & Hpath & Hlog1 & Hreply).
    pose proof (IH s1 d Hlog1) as Hrest.
    destruct (Server.serve ToUpper rest s1 d) as [[replies s2] d2].
    destruct Hrest as (Hdata2 & -> & Hpath2 & Hlog2 & Hreplies).
    split; [congruence|]. split; [reflexivity|]. split; [congruence|].
    split; [exact Hlog2|]. constructor; [exact Hreply|].
    rewrite <- Hpath. exact Hreplies.
Qed.

Lemma NewStore_log_closed (d : Disk) (s : Server.t) (d' : Disk) :
  Server.NewStore d = (Some s, d') ->
  log_closed (Server.log s) /\ LogFile.path (Server.log s) = "wal.log".
Proof.
  unfold Server.NewStore, WAL.NewWAL, LogFile.Close, LogFile.Flush.
  cbn [LogFile.err LogFile.buffered LogFile.wal WAL.writer len_bytes
       List.length Z.of_nat Z.eqb].
  destruct (WAL.err _); [discriminate|].
  intros [= <- <-]. cbn. split; [split; [reflexivity | left; reflexivity]|].
  reflexivity.
Qed.

(** X23.  A store made by [NewStore] takes no write.  [NewStore] closes the
    log when it returns (the deferred [wal.Close()]), so for every sequence
    of commands served afterwards: the data of the store stay as recovery
    left them, nothing is written to disk, and every [SET] and [DEL] with
    enough arguments is answered with the error of the write to the closed
    file. *)
Theorem Server_never_accepts_a_write (ToUpper : string -> string)
    (d : Disk) (s : Server.t) (d' : Disk)
    (commands : list (list string * Z))
    (Hnew : Server.NewStore d = (Some s, d')) :
  Server.data (snd (fst (Server.serve ToUpper commands s d')))
  = Server.data s /\
  snd (Server.serve ToUpper commands s d') = d' /\
  Forall2 (fun command reply =>
             is_write ToUpper (fst command) = true ->
             reply
             = Server.error_reply "write wal.log: file already closed")
    commands (fst (fst (Server.serve ToUpper commands s d'))).
Proof.
  destruct (NewStore_log_closed d s d' Hnew) as [Hlog Hpath].
  pose proof (serve_closed ToUpper commands s d' Hlog) as H.
  destruct (Server.serve ToUpper commands s d') as [[replies s1] d1].
  destruct H as (Hdata & Hdisk & _ & _ & Hreplies).
  cbn [fst snd]. split; [exact Hdata|]. split; [exact Hdisk|].
  rewrite Hpath in Hreplies. exact Hreplies.
Qed.

Lemma Server_never_accepts_a_write_witness :
  exists (s : Server.t) (d' : Disk),
    Server.NewStore (mkDisk ∅ []) = (Some s, d') /\
    Server.data
      (snd (fst (Server.serve ascii_upper
                   [(["set"; "a"; "1"], 17); (["GET"; "a"], 18)] s d')))
    = Server.data s.
Proof.
  eexists. eexists. split; [vm_compute; reflexivity|].
  apply (Server_never_accepts_a_write ascii_upper (mkDisk ∅ [])).
  vm_compute. reflexivity.
Defined.

(** On a log that is open and has not failed, [LogFile.WriteEntry] is
    [WAL.WriteEntry]. *)
Lemma LogFile_WriteEntry_open (l : LogFile.t) (operation key value : string)
    (now : Z) (d : Disk) :
  LogFile.closed l = false -> LogFile.err l = None ->
  LogFile.WriteEntry l operation key value now d
  = (Ok tt,
     LogFile.mk (snd (fst (WAL.WriteEntry (LogFile.wal l) operation key value
                             now d)))
       false None,
     snd (WAL.WriteEntry (LogFile.wal l) operation key value now d)).
Proof.
  intros Hopen Herr. destruct l as [[buffer p] c e].
  cbn [LogFile.closed LogFile.err] in Hopen, Herr. subst c e.
  unfold LogFile.WriteEntry, WAL.WriteEntry, LogFile.WriteString,
    WAL.writer_WriteString, LogFile.Flush, WAL.writer_Flush,
    LogFile.file_Write, LogFile.with_buffer, LogFile.with_err,
    LogFile.buffered, LogFile.path.
  repeat (cbn [LogFile.wal LogFile.err LogFile.closed WAL.writer WAL.path
               fst snd];
          match goal with
          | |- context [if ?c then _ else _] =>
              lazymatch type of c with bool => destruct c eqn:? end
          end);
    try reflexivity; try discriminate.
  all: try (exfalso;
    match goal with
    | H0 : (len_bytes ?b =? 0) = false,
      H1 : (len_bytes (?b ++ ?x) =? 0) = true |- _ =>
        apply Z.eqb_neq in H0; apply Z.eqb_eq in H1;
        rewrite len_bytes_app in H1;
        pose proof (len_bytes_nonneg b); pose proof (len_bytes_nonneg x); lia
    end).
Qed.

(** ** Table names and their ids *)

Lemma digit_pretty_N_char (n : N) :
  (n < 10)%N -> digit (pretty_N_char n) = Some (Z.of_N n).
Proof.
  intros Hn. destruct n as [|p]; [reflexivity|].
  do 4 (try (destruct p as [p|p|]; try reflexivity; try lia)).
Qed.

(** The digits that [pretty_N_go] puts before [s] read back as [x]. *)
Lemma pretty_N_go_parse (x : N) :
  forall s : string,
    exists ds : list ascii,
      chars (pretty_N_go x s) = ds ++ chars s /\
      ((0 < x)%N -> ds <> []) /\
      forall (acc : Z) (rest : list ascii),
        parse_digits (ds ++ rest) acc
        = parse_digits rest (acc * 10 ^ Z.of_nat (List.length ds) + Z.of_N x).
Proof.
  induction (N.lt_wf_0 x) as [x _ IH]. intros s.
  destruct (N.eq_dec x 0%N) as [-> | Hx].
  { exists []. rewrite pretty_N_go_0. split; [reflexivity|].
    split; [lia|]. intros acc rest. cbn [app List.length Z.of_nat].
    f_equal. change (Z.of_N 0) with 0. lia. }
  rewrite pretty_N_go_step by lia.
  destruct (IH (x `div` 10)%N (N.div_lt x 10 ltac:(lia) ltac:(lia))
              (String (pretty_N_char (x `mod` 10)) s))
    as (ds & Hchars & _ & Hparse).
  exists (ds ++ [pretty_N_char (x `mod` 10)]).
  split; [rewrite Hchars, <- app_assoc; reflexivity|].
  split; [intros _ Hnil; apply app_eq_nil in Hnil as [_ Hnil]; discriminate|].
  intros acc rest. rewrite <- app_assoc. cbn [app].
  rewrite Hparse. cbn [parse_digits].
  rewrite digit_pretty_N_char by (apply N.mod_lt; lia).
  f_equal. rewrite length_app. cbn [List.length].
  rewrite Nat2Z.inj_add, Z.pow_add_r by lia. change (10 ^ Z.of_nat 1) with 10.
  pose proof (N.div_mod x 10 ltac:(lia)) as Hdiv.
  apply (f_equal Z.of_N) in Hdiv. rewrite N2Z.inj_add, N2Z.inj_mul in Hdiv.
  change (Z.of_N 10) with 10 in Hdiv. lia.
Qed.

Lemma parse_pretty_positive (p : positive) :
  exists ds : list ascii,
    chars (pretty p) = ds /\ ds <> [] /\
    parse_digits ds 0 = Some (Z.pos p).
Proof.
  unfold pretty, pretty_positive, pretty, pretty_N.
  destruct (decide (N.pos p = 0%N)); [discriminate|].
  destruct (pretty_N_go_parse (N.pos p) "") as (ds & Hchars & Hne & Hparse).
  exists ds. change (chars "") with (@nil ascii) in Hchars.
  rewrite app_nil_r in Hchars. split; [exact Hchars|].
  split; [apply Hne; lia|].
  specialize (Hparse 0 []). rewrite app_nil_r in Hparse. rewrite Hparse.
  cbn [parse_digits]. f_equal.
Qed.

Lemma not_sign_digit (c : ascii) (d : Z) :
  digit c = Some d -> Ascii.eqb c "-" = false /\ Ascii.eqb c "+" = false.
Proof.
  intros Hd. split.
  - destruct (Ascii.eqb_spec c "-") as [-> | _]; [discriminate | reflexivity].
  - destruct (Ascii.eqb_spec c "+") as [-> | _]; [discriminate | reflexivity].
Qed.

Lemma Atoi_pretty (id : Z) :
  - 2 ^ 63 <= id < 2 ^ 63 -> Atoi (pretty id) = Some id.
Proof.
  intros Hid. unfold Atoi. destruct id as [|p|p].
  - reflexivity.
  - change (pretty (Z.pos p)) with (pretty p).
    destruct (parse_pretty_positive p) as (ds & -> & Hne & Hparse).
    destruct ds as [|c ds]; [contradiction|].
    pose proof Hparse as Hc. cbn [parse_digits] in Hc.
    destruct (digit c) as [d|] eqn:Hd; [|discriminate].
    destruct (not_sign_digit c d Hd) as [-> ->].
    rewrite Hparse.
    destruct (Z.leb_spec (- 2 ^ 63) (Z.pos p)); [|lia].
    destruct (Z.ltb_spec (Z.pos p) (2 ^ 63)); [reflexivity | lia].
  - change (pretty (Z.neg p)) with ("-" +:+ pretty p).
    rewrite chars_append. change (chars "-") with ["-"%char]. cbn [app].
    rewrite Ascii.eqb_refl.
    destruct (parse_pretty_positive p) as (ds & -> & Hne & Hparse).
    destruct ds as [|c ds]; [contradiction|].
    rewrite Hparse. change (- Z.pos p) with (Z.neg p).
    destruct (Z.leb_spec (- 2 ^ 63) (Z.neg p)); [|lia].
    destruct (Z.ltb_spec (Z.neg p) (2 ^ 63)); [reflexivity | lia].
Qed.

Lemma drop_slashes_no_slash (c : ascii) (l : list ascii) :
  c <> slash -> drop_slashes (c :: l) = c :: l.
Proof.
  intros Hc. cbn [drop_slashes].
  destruct (Ascii.eqb_spec c slash); [contradiction | reflexivity].
Qed.

Lemma until_slash_app (name rest : list ascii) :
  slash ∉ name -> until_slash (name ++ slash :: rest) = name.
Proof.
  induction name as [|c name IH]; intros Hnot; cbn [app until_slash].
  - rewrite Ascii.eqb_refl. reflexivity.
  - apply not_elem_of_cons in Hnot as [Hne Hnot].
    destruct (Ascii.eqb_spec c slash); [congruence|].
    rewrite IH by exact Hnot. reflexivity.
Qed.

Lemma Base_Join (dir name : string) :
  name <> "" -> slash ∉ chars name -> Base (Join dir name) = name.
Proof.
  intros Hname Hslash. unfold Base, Join.
  rewrite !chars_append. change (chars "/") with [slash].
  destruct (chars dir ++ [slash] ++ chars name) as [|c0 l0] eqn:Hl.
  { apply app_eq_nil in Hl as [_ Hl]. discriminate. }
  rewrite <- Hl. clear Hl c0 l0.
  rewrite !reverse_app. change (reverse [slash]) with [slash].
  destruct (reverse (chars name)) as [|c r] eqn:Hrev.
  { exfalso. apply Hname. rewrite <- (string_of_chars name).
    rewrite <- (reverse_involutive (chars name)), Hrev. reflexivity. }
  assert (slash ∉ c :: r) as Hnot.
  { rewrite <- Hrev. rewrite elem_of_reverse. exact Hslash. }
  rewrite <- !app_assoc. cbn [app].
  rewrite drop_slashes_no_slash
    by (intros ->; apply Hnot; left).
  change (c :: r ++ slash :: reverse (chars dir))
    with ((c :: r) ++ slash :: reverse (chars dir)).
  rewrite until_slash_app by exact Hnot.
  rewrite <- Hrev, reverse_involutive. apply string_of_chars.
Qed.

Lemma TrimPrefix_append (pre rest : string) :
  TrimPrefix (pre +:+ rest) pre = rest.
Proof.
  unfold TrimPrefix, HasPrefix. rewrite chars_append.
  rewrite bool_decide_eq_true_2 by (apply prefix_app_r; reflexivity).
  rewrite <- length_chars, drop_app_length. apply string_of_chars.
Qed.

Lemma TrimSuffix_append (body suf : string) :
  TrimSuffix (body +:+ suf) suf = body.
Proof.
  unfold TrimSuffix, HasSuffix. rewrite chars_append.
  rewrite bool_decide_eq_true_2 by (apply suffix_app_r; reflexivity).
  rewrite <- !length_chars, chars_append, length_app.
  replace (List.length (chars body) + List.length (chars suf)
           - List.length (chars suf))%nat
    with (List.length (chars body)) by lia.
  rewrite take_app_length. apply string_of_chars.
Qed.

Lemma pretty_no_slash (z : Z) : slash ∉ chars (pretty z).
Proof.
  assert (Forall (fun c => c <> slash) (chars (pretty z))) as Hall.
  { apply pretty_Z_plain.
    - intros n. unfold pretty_N_char. repeat case_match; discriminate.
    - discriminate. }
  intros Hin. rewrite Forall_forall in Hall. exact (Hall slash Hin eq_refl).
Qed.

Lemma table_name_no_slash (id : Z) :
  table_name id <> "" /\ slash ∉ chars (table_name id).
Proof.
  split; [discriminate|].
  unfold table_name. rewrite !chars_append. intros Hin.
  apply elem_of_app in Hin as [Hin | Hin];
    [|apply elem_of_app in Hin as [Hin | Hin]].
  - revert Hin. apply (bool_decide_unpack _). vm_compute. exact I.
  - exact (pretty_no_slash id Hin).
  - revert Hin. apply (bool_decide_unpack _). vm_compute. exact I.
Qed.

(** X24.  [extractSSTableId] reads back the id of a table name: for every
    directory and every id in the range of [int], the id of
    [dataDir/sstable-<id>.db] is [id]. *)
Theorem extractSSTableId_of_table_name (dataDir : string) (id : Z)
    (Hid : - 2 ^ 63 <= id < 2 ^ 63) :
  extractSSTableId (Join dataDir (table_name id)) = id.
Proof.
  unfold extractSSTableId.
  destruct (table_name_no_slash id) as [Hname Hslash].
  rewrite (Base_Join dataDir (table_name id) Hname Hslash).
  unfold table_name. rewrite TrimPrefix_append, TrimSuffix_append.
  rewrite (Atoi_pretty id Hid). reflexivity.
Qed.

Lemma extractSSTableId_of_table_name_witness :
  extractSSTableId (Join "data" (table_name 42)) = 42.
Proof.
  apply (extractSSTableId_of_table_name "data" 42). lia.
Defined.

(** ** Compaction of several tables; reads outside the file *)

Lemma CreateSSTable_files (path : string) (entries : list Entry)
    (fs : FileSystem) :
  is_Some (snd (CreateSSTable path entries fs) !! path) /\
  forall other : string,
    other <> path -> snd (CreateSSTable path entries fs) !! other = fs !! other.
Proof.
  unfold CreateSSTable. destruct (CreateSSTable_body entries []) as [r file].
  cbn [snd]. split.
  - rewrite lookup_insert_eq. eexists. reflexivity.
  - intros other Hother. apply lookup_insert_ne. congruence.
Qed.

(** X25.  [CompactSSTables] with two tables or more never succeeds: it
    returns the footer error of [CreateSSTable], having put a file at the
    output path; every other file, the inputs among them, is as it was.
    [MergeTwoSSTables] returns the same error for every pair of tables. *)
Theorem CompactSSTables_of_several_tables_fails (range : RangeOrder)
    (sstables : list SSTable.t) (outputPath : string) (fs : FileSystem)
    (Hseveral : (2 <= List.length sstables)%nat) :
  let fs' := snd (fst (CompactSSTables range sstables outputPath fs)) in
  fst (fst (CompactSSTables range sstables outputPath fs))
  = Err footer_write_error /\
  is_Some (fs' !! outputPath) /\
  (forall other : string, other <> outputPath -> fs' !! other = fs !! other) /\
  forall sst1 sst2 : SSTable.t,
    fst (fst (MergeTwoSSTables range sst1 sst2 outputPath fs))
    = Err footer_write_error.
Proof.
  cbn zeta. destruct sstables as [|sst1 [|sst2 rest]];
    [cbn in Hseveral; lia | cbn in Hseveral; lia |].
  unfold CompactSSTables.
  set (merged := mergeAll _).
  pose proof (CreateSSTable_fails outputPath merged fs) as Hfail.
  pose proof (CreateSSTable_files outputPath merged fs) as [Hout Hothers].
  destruct (CreateSSTable outputPath merged fs) as [r fs'].
  cbn [fst snd] in *. subst r. cbn [fst snd].
  split; [reflexivity|]. split; [exact Hout|]. split; [exact Hothers|].
  intros t1 t2. unfold MergeTwoSSTables.
  destruct (getAllEntriesFromSSTable range t1) as [entries1 log1].
  destruct (getAllEntriesFromSSTable range t2) as [entries2 log2].
  pose proof (CreateSSTable_fails outputPath
                (mergeSortedEntries entries1 entries2) fs) as Hfail2.
  destruct (CreateSSTable outputPath _ fs) as [r2 fs2].
  cbn [fst] in Hfail2. subst r2. reflexivity.
Qed.

Lemma CompactSSTables_of_several_tables_fails_witness :
  fst (fst (CompactSSTables map_to_list [gen_mid; gen_old] "data/sstable-2.db" ∅))
  = Err footer_write_error.
Proof.
  refine (proj1 (CompactSSTables_of_several_tables_fails map_to_list
                   [gen_mid; gen_old] "data/sstable-2.db" ∅ _)).
  cbn. lia.
Defined.

(** X26.  [ReadEntryAtOffset] at an offset outside the file fails: at a
    negative offset, where the seek is refused, and at an offset at or
    beyond the end of the file, where the read of the key length reports
    [EOF]. *)
Theorem ReadEntryAtOffset_outside_file_fails (file : list byte) (offset : Z)
    (Houtside : offset < 0 \/ len_bytes file <= offset) :
  is_ok (ReadEntryAtOffset file offset) = false /\
  (0 <= offset ->
   ReadEntryAtOffset file offset = Err "failed to read key length: EOF").
Proof.
  destruct (Z.ltb_spec offset 0) as [Hneg | Hpos].
  - split; [|lia].
    unfold ReadEntryAtOffset, ReadEntryAtOffset_body.
    unfold bind at 1, orErrorf at 1, file_Seek.
    destruct (Z.ltb_spec offset 0); [reflexivity | lia].
  - destruct Houtside as [? | Hpast]; [lia|].
    assert (ReadEntryAtOffset file offset
            = Err "failed to read key length: EOF") as ->; [|split; reflexivity].
    unfold ReadEntryAtOffset, ReadEntryAtOffset_body.
    unfold bind at 1, orErrorf at 1, file_Seek.
    destruct (Z.ltb_spec offset 0); [lia|].
    cbn [Errorf fst snd].
    unfold bind at 1, orErrorf at 1, binary_Read_uint32.
    unfold bind at 1, io_ReadFull. cbn [contents cursor].
    rewrite drop_ge by (unfold len_bytes in Hpast; lia).
    cbn [take firstn len_bytes List.length Z.of_nat Z.eqb]. reflexivity.
Qed.

Lemma ReadEntryAtOffset_outside_file_fails_witness :
  is_ok (ReadEntryAtOffset (sstable_file [mkEntry "a" [x31] 1 false]) 1000)
  = false.
Proof.
  apply (ReadEntryAtOffset_outside_file_fails
           (sstable_file [mkEntry "a" [x31] 1 false]) 1000).
  right. vm_compute. discriminate.
Defined.
